(** * Jaguartest: a shallow embedding of [jaguartest.js]

    The development follows the layout of the source file:

    - JavaScript values, [JSON.stringify], the matchers and [expect];
    - promises and [async] functions as resumable processes;
    - the worker pool of [runConcurrent];
    - [Suite], [Test] and the registration API ([it], [it.skip], ...);
    - [computeMergedHooks] and its per-suite cache;
    - [runSuite]: context merge, test filter, test tasks, child suites.

    Arrays and context objects that the source shares by reference live in
    explicit stores addressed by locations. *)

From Stdlib Require Import Ascii String.
From stdpp Require Import gmap strings list pretty.

Set Warnings "-register-all".

Open Scope string_scope.
Open Scope list_scope.
Open Scope Z_scope.

(** ** JavaScript values *)

(** [Number.MAX_SAFE_INTEGER], 2^53 - 1 *)
Definition MAX_SAFE_INTEGER : Z := 9007199254740991.

(** The safe integers: the integers that a double holds exactly together
    with their two neighbours.  [Number::toString] and [JSON.stringify]
    print them with all their digits. *)
Record safe_integer : Type := SafeInteger {
  integer :> Z;
  is_safe : Is_true (Z.abs integer <=? MAX_SAFE_INTEGER);
}.

(** The safe integer of a literal. *)
Abbreviation lit z := (SafeInteger z I) (only parsing).

(** Numbers: the safe integers, [NaN] and the two infinities.  Fractions,
    larger doubles and the negative zero are outside the model. *)
Inductive number : Type :=
| NInt (z : safe_integer)
| NNaN
| NInfinity (negative : bool).

(** Values are trees.  [VObj] is a plain object, given by the list of its
    own enumerable string keyed properties in enumeration order; [VArr] is
    an array without holes or extra properties.  Cyclic structures, getters,
    [toJSON] methods and objects of other classes ([RegExp], [Date], ...)
    are outside the model, and so is the identity of objects.  [VError msg]
    is an [Error] object with that message and no enumerable property, of
    whatever class ([Error], [TypeError], [SyntaxError]); [VFun] is a
    function object without properties of its own; [VSymbol] is a symbol,
    known by its identity. *)
Inductive value : Type :=
| VUndefined
| VNull
| VBool (b : bool)
| VNum (n : number)
| VStr (s : string)
| VBigInt (z : Z)
| VSymbol (id : nat)
| VArr (items : list value)
| VObj (fields : list (string * value))
| VFun (name : string)
| VError (message : string).

(** [ToBoolean]: what [if (v)] tests. *)
Definition truthy (v : value) : bool :=
  match v with
  | VUndefined | VNull => false
  | VBool b => b
  | VNum (NInt z) => negb (z =? 0)
  | VNum NNaN => false
  | VNum (NInfinity _) => true
  | VStr s => negb (String.eqb s "")
  | VBigInt z => negb (z =? 0)
  | VSymbol _ | VArr _ | VObj _ | VFun _ | VError _ => true
  end.

(** The completion of a synchronous call: it returns or it throws. *)
Inductive completion (A : Type) : Type :=
| Normal (a : A)
| Abrupt (e : value).
Arguments Normal {A} a.
Arguments Abrupt {A} e.

Definition succeeds {A} (c : completion A) : Prop :=
  match c with Normal _ => True | Abrupt _ => False end.

(** ** [JSON.stringify] *)

Module JSON.

Definition hex_digit (n : N) : ascii :=
  if (n <? 10)%N then ascii_of_N (48 + n) else ascii_of_N (87 + n).

Definition dquote : string := String (ascii_of_N 34) "".

(** One code unit of a quoted JSON string. *)
Definition quote_char (c : ascii) : string :=
  let n := N_of_ascii c in
  if (n =? 34)%N then "\" +:+ dquote
  else if (n =? 92)%N then "\\"
  else if (n =? 8)%N then "\b"
  else if (n =? 12)%N then "\f"
  else if (n =? 10)%N then "\n"
  else if (n =? 13)%N then "\r"
  else if (n =? 9)%N then "\t"
  else if (n <? 32)%N then
    "\u00" +:+ String (hex_digit (n / 16)) (String (hex_digit (n mod 16)) "")
  else String c "".

Fixpoint quote_body (s : string) : string :=
  match s with
  | EmptyString => ""
  | String c r => quote_char c +:+ quote_body r
  end.

Definition quote (s : string) : string := dquote +:+ quote_body s +:+ dquote.

Definition number_to_json (n : number) : string :=
  match n with
  | NInt z => pretty (integer z)
  | NNaN | NInfinity _ => "null"
  end.

Fixpoint join (sep : string) (parts : list string) : string :=
  match parts with
  | [] => ""
  | [p] => p
  | p :: rest => p +:+ sep +:+ join sep rest
  end.

(** The members of an object, given the serialization of values: a
    property whose value has none is left out. *)
Definition members (str : value -> option string)
  : list (string * value) -> list string :=
  fix go fs :=
    match fs with
    | [] => []
    | (k, x) :: rest =>
        match str x with
        | Some s => (quote k +:+ ":" +:+ s) :: go rest
        | None => go rest
        end
    end.

(** The elements of an array: one without serialization prints [null]. *)
Definition elements (str : value -> option string) (items : list value)
  : list string :=
  List.map (fun x => default "null" (str x)) items.

(** The serialization of a value that holds no [BigInt]: [None] where
    [JSON.stringify] returns [undefined]. *)
Fixpoint serialize (v : value) : option string :=
  match v with
  | VUndefined | VFun _ | VSymbol _ | VBigInt _ => None
  | VNull => Some "null"
  | VBool true => Some "true"
  | VBool false => Some "false"
  | VNum n => Some (number_to_json n)
  | VStr s => Some (quote s)
  | VArr items => Some ("[" +:+ join "," (elements serialize items) +:+ "]")
  | VObj fields => Some ("{" +:+ join "," (members serialize fields) +:+ "}")
  | VError _ => Some "{}"
  end.

(** Every element of an array and every property of an object is
    serialized, so a [BigInt] anywhere in the tree is met. *)
Fixpoint has_bigint (v : value) : bool :=
  match v with
  | VBigInt _ => true
  | VArr items => existsb has_bigint items
  | VObj fields => existsb (fun kv => has_bigint (snd kv)) fields
  | _ => false
  end.

Definition bigint_error : value := VError "Do not know how to serialize a BigInt".

(** [JSON.stringify(v)]: it throws a [TypeError] when it meets a [BigInt]. *)
Definition stringify (v : value) : completion (option string) :=
  if has_bigint v then Abrupt bigint_error else Normal (serialize v).

End JSON.

(** *** Reading a quoted string back

    The inverse of [JSON.quote_char], used to show that a property name
    can be recovered from the front of a serialization. *)

Definition hex_value (c : ascii) : N :=
  let n := N_of_ascii c in
  if (n <? 58)%N then (n - 48)%N else (n - 87)%N.

(** Reading back one code unit of a quoted string: [None] at the closing
    quote and on what [quote_char] never writes. *)
Definition unquote_char (s : string) : option (ascii * string) :=
  match s with
  | EmptyString => None
  | String c rest =>
      let n := N_of_ascii c in
      if (n =? 34)%N then None
      else if (n =? 92)%N then
        match rest with
        | EmptyString => None
        | String x rest' =>
            let m := N_of_ascii x in
            if (m =? 34)%N then Some (ascii_of_N 34, rest')
            else if (m =? 92)%N then Some (ascii_of_N 92, rest')
            else if (m =? 98)%N then Some (ascii_of_N 8, rest')
            else if (m =? 102)%N then Some (ascii_of_N 12, rest')
            else if (m =? 110)%N then Some (ascii_of_N 10, rest')
            else if (m =? 114)%N then Some (ascii_of_N 13, rest')
            else if (m =? 116)%N then Some (ascii_of_N 9, rest')
            else if (m =? 117)%N then
              match rest' with
              | String _ (String _ (String h1 (String h2 rest''))) =>
                  Some (ascii_of_N (16 * hex_value h1 + hex_value h2), rest'')
              | _ => None
              end
            else None
        end
      else Some (c, rest)
  end.

(** ** Matchers *)

(** A template literal prints [undefined] for a missing serialization. *)
Definition show_json (o : option string) : string := default "undefined" o.

(** [customMatchers.toEqual]: strict inequality of the two serializations,
    the one of [received] computed first. *)
Definition toEqual (received expected : value) : completion unit :=
  match JSON.stringify received with
  | Abrupt e => Abrupt e
  | Normal r =>
      match JSON.stringify expected with
      | Abrupt e => Abrupt e
      | Normal x =>
          if decide (r = x) then Normal tt
          else Abrupt (VError ("Expected " +:+ show_json r +:+
                               " to equal " +:+ show_json x))
      end
  end.

(** The primitive values, on which [===] is decided by the value alone. *)
Inductive primitive : Type :=
| PUndefined
| PNull
| PBool (b : bool)
| PNum (n : number)
| PStr (s : string)
| PBigInt (z : Z)
| PSymbol (id : nat).

Definition value_of (p : primitive) : value :=
  match p with
  | PUndefined => VUndefined
  | PNull => VNull
  | PBool b => VBool b
  | PNum n => VNum n
  | PStr s => VStr s
  | PBigInt z => VBigInt z
  | PSymbol id => VSymbol id
  end.

Definition primitive_of (v : value) : option primitive :=
  match v with
  | VUndefined => Some PUndefined
  | VNull => Some PNull
  | VBool b => Some (PBool b)
  | VNum n => Some (PNum n)
  | VStr s => Some (PStr s)
  | VBigInt z => Some (PBigInt z)
  | VSymbol id => Some (PSymbol id)
  | VArr _ | VObj _ | VFun _ | VError _ => None
  end.

(** [Number::toString] *)
Definition number_to_string (n : number) : string :=
  match n with
  | NInt z => pretty (integer z)
  | NNaN => "NaN"
  | NInfinity false => "Infinity"
  | NInfinity true => "-Infinity"
  end.

(** What a template literal makes of a primitive: a symbol has no
    conversion to a string. *)
Definition to_string (p : primitive) : completion string :=
  match p with
  | PUndefined => Normal "undefined"
  | PNull => Normal "null"
  | PBool true => Normal "true"
  | PBool false => Normal "false"
  | PNum n => Normal (number_to_string n)
  | PStr s => Normal s
  | PBigInt z => Normal (pretty z)
  | PSymbol _ => Abrupt (VError "Cannot convert a Symbol value to a string")
  end.

(** [a === b] on numbers: [NaN] equals nothing. *)
Definition number_equals (a b : number) : bool :=
  match a, b with
  | NInt x, NInt y => x =? y
  | NInfinity s, NInfinity t => Bool.eqb s t
  | _, _ => false
  end.

(** [a === b] *)
Definition strict_equals (a b : primitive) : bool :=
  match a, b with
  | PUndefined, PUndefined => true
  | PNull, PNull => true
  | PBool x, PBool y => Bool.eqb x y
  | PNum x, PNum y => number_equals x y
  | PStr x, PStr y => String.eqb x y
  | PBigInt x, PBigInt y => x =? y
  | PSymbol x, PSymbol y => Nat.eqb x y
  | _, _ => false
  end.

(** [customMatchers.toBe], on primitives: the message is built only when
    the two differ, [received] first. *)
Definition toBe (received expected : primitive) : completion unit :=
  if strict_equals received expected then Normal tt
  else match to_string received with
       | Abrupt e => Abrupt e
       | Normal r =>
           match to_string expected with
           | Abrupt e => Abrupt e
           | Normal x => Abrupt (VError ("Expected " +:+ r +:+ " to be " +:+ x))
           end
       end.

(** [a <= b] on numbers: false as soon as one of them is [NaN]. *)
Definition number_le (a b : number) : bool :=
  match a, b with
  | NNaN, _ | _, NNaN => false
  | NInt x, NInt y => x <=? y
  | NInfinity true, _ => true
  | _, NInfinity false => true
  | NInfinity false, _ => false
  | NInt _, NInfinity true => false
  end.

(** [customMatchers.toBeGreaterThan], on numbers. *)
Definition toBeGreaterThan (received expected : number) : completion unit :=
  if number_le received expected
  then Abrupt (VError ("Expected " +:+ number_to_string received +:+
                       " to be greater than " +:+ number_to_string expected))
  else Normal tt.

(** *** The registry

    A matcher is called with the received value and the arguments of the
    call.  Its completion is [None] where it depends on what the values of
    the model do not carry: the identity of an object, the conversion of an
    object to a primitive, the code of a function, the file system. *)
Definition matcher : Type := value -> list value -> option (completion unit).

Definition first_arg (args : list value) : value := default VUndefined (head args).

(** [received !== expected] needs the identity of an object, and the
    message its conversion to a string. *)
Definition toBe_matcher : matcher :=
  fun received args =>
    match primitive_of received, primitive_of (first_arg args) with
    | Some p, Some q => Some (toBe p q)
    | _, _ => None
    end.

Definition toEqual_matcher : matcher :=
  fun received args => Some (toEqual received (first_arg args)).

(** [received <= expected] converts operands that are not numbers. *)
Definition toBeGreaterThan_matcher : matcher :=
  fun received args =>
    match received, first_arg args with
    | VNum a, VNum b => Some (toBeGreaterThan a b)
    | _, _ => None
    end.

(** [regexp.test(received)]: no value of the model is a regular expression.
    Reading [test] off [undefined] or [null] throws; on other values it
    gives [undefined], which is not a function, unless a plain object has a
    property of that name. *)
Definition toMatch_matcher : matcher :=
  fun received args =>
    match first_arg args with
    | VUndefined =>
        Some (Abrupt (VError "Cannot read properties of undefined (reading 'test')"))
    | VNull =>
        Some (Abrupt (VError "Cannot read properties of null (reading 'test')"))
    | VObj fields =>
        match List.find (fun kv => String.eqb (fst kv) "test") fields with
        | Some (_, VFun _) => None
        | _ => Some (Abrupt (VError "regexp.test is not a function"))
        end
    | _ => Some (Abrupt (VError "regexp.test is not a function"))
    end.

(** [toMatchSnapshot] returns at once when [globalConfigObj.disableSnapshots]
    is set; otherwise it reads and writes files. *)
Definition toMatchSnapshot_matcher (disableSnapshots : bool) : matcher :=
  fun received args => if disableSnapshots then Some (Normal tt) else None.

(** [customMatchers] as the module defines it. *)
Definition customMatchers (disableSnapshots : bool) : gmap string matcher :=
  {[ "toBe" := toBe_matcher;
     "toEqual" := toEqual_matcher;
     "toBeGreaterThan" := toBeGreaterThan_matcher;
     "toMatch" := toMatch_matcher;
     "toMatchSnapshot" := toMatchSnapshot_matcher disableSnapshots ]}.

(** [extendExpect]: [Object.assign(customMatchers, newMatchers)].  An
    assignment to [__proto__] changes the prototype of the registry and
    adds no property to it. *)
Definition extendExpect (newMatchers registry : gmap string matcher)
  : gmap string matcher :=
  delete "__proto__" newMatchers ∪ registry.

Definition not_a_function (name : string) : value :=
  VError ("expect(...)." +:+ name +:+ " is not a function").

(** Whether [ToPropertyKey] of an argument runs no code of the caller. *)
Definition plain_key (v : value) : bool :=
  match v with
  | VArr _ | VObj _ => false
  | _ => true
  end.

(** The methods that the object returned by [expect], made by [{}],
    inherits from [Object.prototype], under a name that no matcher has.
    What they return is not followed, only whether they return. *)
Definition inherited (registry : gmap string matcher) (received : value)
    (name : string) (args : list value) : option (completion unit) :=
  if decide (name ∈ ["constructor"; "toString"; "valueOf"; "isPrototypeOf"])
  then Some (Normal tt)
  else if String.eqb name "toLocaleString" then
    (* [this.toString()] *)
    match registry !! "toString" with
    | Some m => m received []
    | None => Some (Normal tt)
    end
  else if decide (name ∈ ["hasOwnProperty"; "propertyIsEnumerable";
                           "__lookupGetter__"; "__lookupSetter__"])
  then (if plain_key (first_arg args) then Some (Normal tt) else None)
  else if decide (name ∈ ["__defineGetter__"; "__defineSetter__"])
  then match args !! 1%nat with
       | Some (VFun _) =>
           if plain_key (first_arg args) then Some (Normal tt) else None
       | _ => Some (Abrupt (VError ("Object.prototype." +:+ name +:+
                                    ": Expecting function")))
       end
  else Some (Abrupt (not_a_function name)).

(** [expect(received).name(...args)] against a registry: every registered
    matcher is a method of the returned object, and hides an inherited
    method of the same name. *)
Definition expect (registry : gmap string matcher) (received : value)
    (name : string) (args : list value) : option (completion unit) :=
  match registry !! name with
  | Some m => m received args
  | None => inherited registry received name args
  end.

(** The call returns. *)
Definition passes (o : option (completion unit)) : Prop := o = Some (Normal tt).

(** ** Promises and [async] functions

    JavaScript runs one job at a time; an [async] function runs until its
    next [await], where it is suspended and other jobs may run.  A
    [promise St A] is what is left of such a computation over the shared
    state [St]: settled ([Ret], [Throw]), never settling ([Pending]), or
    suspended with the continuation that runs, in one piece and up to the
    next suspension, when the job is resumed ([Await]).  An [action] is the
    evaluation of an expression or call: it runs at once on the current state
    and leaves a promise. *)

Inductive promise (St A : Type) : Type :=
| Ret (a : A)
| Throw (e : value)
| Pending
| Await (k : St -> St * promise St A).
Arguments Ret {St A} a.
Arguments Throw {St A} e.
Arguments Pending {St A}.
Arguments Await {St A} k.

Definition action (St A : Type) : Type := St -> St * promise St A.

Section Process.
Context {St : Type}.

Definition ret {A} (a : A) : action St A := fun s => (s, Ret a).
Definition throw {A} (e : value) : action St A := fun s => (s, Throw e).
Definition never {A} : action St A := fun s => (s, Pending).

(** Synchronous reads and writes of the state. *)
Definition gets {A} (f : St -> A) : action St A := fun s => (s, Ret (f s)).
Definition modify (f : St -> St) : action St unit := fun s => (f s, Ret tt).

(** Sequencing: the statements after an expression run as soon as it has
    a value, in the same job. *)
Fixpoint bind_promise {A B} (p : promise St A) (f : A -> action St B)
  : action St B :=
  match p with
  | Ret a => f a
  | Throw e => throw e
  | Pending => never
  | Await k =>
      fun s => (s, Await (fun s' => let (s'', p') := k s' in bind_promise p' f s''))
  end.

Definition bind {A B} (m : action St A) (f : A -> action St B) : action St B :=
  fun s => let (s', p) := m s in bind_promise p f s'.

(** [try { m } catch (e) { h e }]. *)
Fixpoint catch_promise {A} (p : promise St A) (h : value -> action St A)
  : action St A :=
  match p with
  | Ret a => ret a
  | Throw e => h e
  | Pending => never
  | Await k =>
      fun s => (s, Await (fun s' => let (s'', p') := k s' in catch_promise p' h s''))
  end.

Definition try_catch {A} (m : action St A) (h : value -> action St A)
  : action St A :=
  fun s => let (s', p) := m s in catch_promise p h s'.

(** [await e]: [e] is evaluated at once; the caller is suspended and is
    resumed in a later job, after the promise has settled. *)
Fixpoint yield_after {A} (p : promise St A) : promise St A :=
  match p with
  | Ret a => Await (fun s => (s, Ret a))
  | Throw e => Await (fun s => (s, Throw e))
  | Pending => Pending
  | Await k => Await (fun s => let (s', p') := k s in (s', yield_after p'))
  end.

Definition await {A} (m : action St A) : action St A :=
  fun s => let (s', p) := m s in (s', yield_after p).

(** [for (const x of xs) { f x }] *)
Fixpoint for_each {X} (xs : list X) (f : X -> action St unit) : action St unit :=
  match xs with
  | [] => ret tt
  | x :: rest => bind (f x) (fun _ => for_each rest f)
  end.

(** How a promise ends when its job is the only one that runs. *)
Inductive outcome (A : Type) : Type :=
| Fulfilled (a : A)
| Rejected (e : value)
| Unsettled.

Fixpoint run_promise {A} (p : promise St A) (s : St) : St * outcome A :=
  match p with
  | Ret a => (s, Fulfilled _ a)
  | Throw e => (s, Rejected _ e)
  | Pending => (s, Unsettled _)
  | Await k => let (s', p') := k s in run_promise p' s'
  end.

Definition run {A} (m : action St A) (s : St) : St * outcome A :=
  let (s', p) := m s in run_promise p s'.

End Process.

Arguments Fulfilled {A} a.
Arguments Rejected {A} e.
Arguments Unsettled {A}.

Declare Scope action_scope.
Delimit Scope action_scope with action.
Notation "'do' x <- m ; k" := (bind m (fun x => k))
  (at level 10, x name, m at level 100, k at level 200) : action_scope.
Notation "m ;; k" := (bind m (fun _ => k))
  (at level 100, k at level 200, right associativity) : action_scope.
Open Scope action_scope.

(** How [run] goes through a sequence and through a [try]. *)
Definition then_run {St A B} (r : St * outcome A) (f : A -> action St B)
  : St * outcome B :=
  match r with
  | (s, Fulfilled a) => run (f a) s
  | (s, Rejected e) => (s, Rejected e)
  | (s, Unsettled) => (s, Unsettled)
  end.

Definition catch_run {St A} (r : St * outcome A) (h : value -> action St A)
  : St * outcome A :=
  match r with
  | (s, Rejected e) => run (h e) s
  | _ => r
  end.

(** A promise that never settles, whatever the state at its resumptions. *)
Inductive hangs {St A : Type} : promise St A -> Prop :=
| hangs_pending : hangs Pending
| hangs_await k : (forall s, hangs (k s).2) -> hangs (Await k).

(** A computation over a part [St] of a larger state [Big]. *)
Section Zoom.
Context {Big St : Type} (get : Big -> St) (set : St -> Big -> Big).

Fixpoint zoom_promise {A} (p : promise St A) : promise Big A :=
  match p with
  | Ret a => Ret a
  | Throw e => Throw e
  | Pending => Pending
  | Await k =>
      Await (fun b => let (s', p') := k (get b) in (set s' b, zoom_promise p'))
  end.

Definition zoom {A} (m : action St A) : action Big A :=
  fun b => let (s', p) := m (get b) in (set s' b, zoom_promise p).
End Zoom.

(** ** The job queue

    [run_pool] plays the jobs of a group of promises awaited together with
    [Promise.all].  The order in which suspended jobs are resumed is not
    fixed by the model: the [n]-th scheduling decision is read from a list of
    choices, which also bounds the number of resumptions. *)

Inductive pool_outcome (A : Type) : Type :=
| AllFulfilled (values : list A)
| FirstRejected (e : value)
| Stuck
| OutOfSchedule.
Arguments AllFulfilled {A} values.
Arguments FirstRejected {A} e.
Arguments Stuck {A}.
Arguments OutOfSchedule {A}.

Section Pool.
Context {St A : Type}.

Definition suspended (p : promise St A) : bool :=
  match p with Await _ => true | _ => false end.

Definition rejection (p : promise St A) : option value :=
  match p with Throw e => Some e | _ => None end.

Definition fulfilment (p : promise St A) : option A :=
  match p with Ret a => Some a | _ => None end.

(** Positions of the jobs that can be resumed. *)
Definition runnable (ws : list (promise St A)) : list nat :=
  List.filter (fun i => match ws !! i with
                        | Some p => suspended p
                        | None => false
                        end) (seq 0 (length ws)).

(** Resume job [i] once. *)
Definition resume (i : nat) (ws : list (promise St A)) (s : St)
  : St * list (promise St A) :=
  match ws !! i with
  | Some (Await k) => let (s', p') := k s in (s', <[i := p']> ws)
  | _ => (s, ws)
  end.

Fixpoint run_pool (sched : list nat) (ws : list (promise St A)) (s : St)
  : list nat * St * pool_outcome A :=
  match omap rejection ws with
  | e :: _ => (sched, s, FirstRejected e)
  | [] =>
      match runnable ws with
      | [] =>
          if decide (length (omap fulfilment ws) = length ws)
          then (sched, s, AllFulfilled (omap fulfilment ws))
          else (sched, s, Stuck)
      | i0 :: others =>
          match sched with
          | [] => ([], s, OutOfSchedule)
          | choice :: sched' =>
              let live := i0 :: others in
              let i := default i0 (live !! (choice mod length live)%nat) in
              let (s', ws') := resume i ws s in
              run_pool sched' ws' s'
          end
      end
  end.
End Pool.

(** What a pool of one job makes of the end of that job. *)
Definition pool_of {A} (o : outcome A) : pool_outcome A :=
  match o with
  | Fulfilled a => AllFulfilled [a]
  | Rejected e => FirstRejected e
  | Unsettled => Stuck
  end.

(** ** [runConcurrent] *)

(** What a slot of the result array holds once written: the value the task
    returned, or the object [{ error: e }]. *)
Inductive slot (R : Type) : Type :=
| Value (r : R)
| ErrorObj (e : value).
Arguments Value {R} r.
Arguments ErrorObj {R} e.

(** The variables of one call that the workers share.  [results] starts as
    [new Array(tasks.length)], every slot empty; [index] is the counter
    from which a worker takes the index of its next task. *)
Record rc_vars (R : Type) : Type := RcVars {
  results : list (option (slot R));
  index : nat;
}.
Arguments RcVars {R}.
Arguments results {R}.
Arguments index {R}.

Inductive rc_outcome (R : Type) : Type :=
| Resolved (results : list (option (slot R)))
| RcRejected (e : value)
| NeverResolves
| RcOutOfSchedule.
Arguments Resolved {R} results.
Arguments RcRejected {R} e.
Arguments NeverResolves {R}.
Arguments RcOutOfSchedule {R}.

Section RunConcurrent.
Context {St R : Type}.
Variable tasks : list (action St R).

Definition set_result (i : nat) (r : slot R) : action (St * rc_vars R) unit :=
  modify (fun '(s, v) =>
            (s, RcVars (<[i := Some r]> (results v)) (index v))).

Definition call_task (i : nat) : action (St * rc_vars R) R :=
  match tasks !! i with
  | Some task => zoom fst (fun s '(_, v) => (s, v)) task
  | None => throw (VError "tasks[current] is not a function")
  end.

(** [worker]: the [while] loop runs at most once per task, which bounds
    the recursion. *)
Fixpoint worker_loop (fuel : nat) : action (St * rc_vars R) unit :=
  match fuel with
  | O => ret tt
  | S fuel' =>
      fun '(s, v) =>
        if (index v <? length tasks)%nat then
          let current := index v in
          let v' := RcVars (results v) (S (index v)) in
          (try_catch
             (do r <- await (call_task current);
              set_result current (Value r))
             (fun e => set_result current (ErrorObj e));;
           worker_loop fuel') (s, v')
        else ((s, v), Ret tt)
  end.

Definition worker : action (St * rc_vars R) unit :=
  worker_loop (length tasks).

(** [for (let i = 0; i < Math.min(concurrency, tasks.length); i++)
    workers.push(worker())]: each worker runs up to its first [await]
    before the next one is started. *)
Fixpoint spawn (count : nat) (sv : St * rc_vars R)
  : (St * rc_vars R) * list (promise (St * rc_vars R) unit) :=
  match count with
  | O => (sv, [])
  | S count' =>
      let (sv1, w) := worker sv in
      let (sv2, ws) := spawn count' sv1 in
      (sv2, w :: ws)
  end.

Definition worker_count (concurrency : Z) : nat :=
  Z.to_nat (Z.min concurrency (Z.of_nat (length tasks))).

Definition runConcurrent_vars (concurrency : Z) (sched : list nat) (s : St)
  : list nat * (St * rc_vars R) * pool_outcome unit :=
  let vars := RcVars (replicate (length tasks) None) 0 in
  let (sv, workers) := spawn (worker_count concurrency) (s, vars) in
  run_pool sched workers sv.

Definition runConcurrent (concurrency : Z) (sched : list nat) (s : St)
  : list nat * St * rc_outcome R :=
  let '(sched', (s', vars), o) := runConcurrent_vars concurrency sched s in
  (sched', s',
   match o with
   | AllFulfilled _ => Resolved (results vars)
   | FirstRejected e => RcRejected e
   | Stuck => NeverResolves
   | OutOfSchedule => RcOutOfSchedule
   end).
End RunConcurrent.

(** What [runConcurrent] makes of the end of a task that is alone in its
    batch. *)
Definition slot_of {R} (o : outcome R) : rc_outcome R :=
  match o with
  | Fulfilled a => Resolved [Some (Value a)]
  | Rejected e => Resolved [Some (ErrorObj e)]
  | Unsettled => NeverResolves
  end.

(** *** The calls of the tasks

    To tell how often and in which order [runConcurrent] calls its tasks,
    the state is given a log, and task [i] is made to enter [i] in it each
    time it is called; apart from that the task does what it did. *)
Definition logged_task {St R} (i : nat) (task : action St R)
  : action (St * list nat) R :=
  fun '(s, log) => zoom fst (fun s' '(_, l) => (s', l)) task (s, log ++ [i]).

Definition logged {St R} (tasks : list (action St R))
  : list (action (St * list nat) R) :=
  imap logged_task tasks.

(** *** What the callers of [runConcurrent] may rely on *)

Section RunConcurrentSpec.
Context {St R : Type}.

(** [settles b Q p]: whatever the other jobs do to the state between two
    resumptions, [p] settles within [b] resumptions, and what it settles
    with satisfies [Q]. *)
Fixpoint settles (b : nat) (Q : slot R -> Prop) (p : promise St R) : Prop :=
  match p with
  | Ret a => Q (Value a)
  | Throw e => Q (ErrorObj e)
  | Pending => False
  | Await k =>
      match b with
      | O => False
      | S b' => forall s, settles b' Q (k s).2
      end
  end.

(** [ends_in Q p]: whatever the other jobs do to the state between two
    resumptions, what [p] settles with, if it ever does, satisfies [Q]. *)
Fixpoint ends_in (Q : slot R -> Prop) (p : promise St R) : Prop :=
  match p with
  | Ret a => Q (Value a)
  | Throw e => Q (ErrorObj e)
  | Pending => True
  | Await k => forall s, ends_in Q (k s).2
  end.

Variable tasks : list (action St R).
Variable post : nat -> slot R -> Prop.
Variable B : nat.

(** The shapes a worker takes between two resumptions: its task [cur] is
    still running ([Wk_run]), or the task has settled with [r] and the next
    resumption stores [r] and goes round the loop ([Wk_store]).  [b] bounds
    the resumptions left before the worker takes another task or ends. *)
Inductive Wk : nat -> nat -> nat -> promise (St * rc_vars R) unit -> Prop :=
| Wk_run fuel b cur k :
    (forall s v, exists s' p',
        k (s, v) = ((s', v), p') /\ Wk fuel b cur p') ->
    Wk fuel (S b) cur (Await k)
| Wk_store fuel b cur k r :
    post cur r ->
    (forall s v,
        (length tasks <= fuel + index v)%nat ->
        ((index v < length tasks)%nat ->
         exists s' p',
           k (s, v) =
             ((s', RcVars (<[cur := Some r]> (results v)) (S (index v))), p')
           /\ Wk (fuel - 1) (S B) (index v) p') /\
        ((length tasks <= index v)%nat ->
         k (s, v) =
           ((s, RcVars (<[cur := Some r]> (results v)) (index v)), Ret tt))) ->
    Wk fuel (S b) cur (Await k).

(** The state of one worker as the invariant of the pool sees it. *)
Inductive wstatus : Type :=
| WDone
| WBusy (fuel b cur : nat).

Definition budget (st : wstatus) : nat :=
  match st with WDone => O | WBusy _ b _ => b end.

Definition worker_ok (v : rc_vars R) (st : wstatus)
    (w : promise (St * rc_vars R) unit) : Prop :=
  match st with
  | WDone => w = Ret tt /\ (length tasks <= index v)%nat
  | WBusy fuel b cur =>
      Wk fuel b cur w /\ (length tasks <= fuel + index v)%nat /\
      (cur < index v)%nat
  end.

(** Slot [i] holds an outcome of task [i]. *)
Definition completed (v : rc_vars R) (i : nat) : Prop :=
  exists r, results v !! i = Some (Some r) /\ post i r.

Definition pool_inv (sts : list wstatus)
    (ws : list (promise (St * rc_vars R) unit)) (v : rc_vars R) : Prop :=
  length (results v) = length tasks /\
  (index v <= length tasks)%nat /\
  Forall2 (worker_ok v) sts ws /\
  (forall i j fi bi fj bj cur,
      sts !! i = Some (WBusy fi bi cur) ->
      sts !! j = Some (WBusy fj bj cur) -> i = j) /\
  (forall cur, (cur < index v)%nat ->
     (exists i fuel b, sts !! i = Some (WBusy fuel b cur)) \/ completed v cur).

Definition pool_measure (sts : list wstatus) (v : rc_vars R) : nat :=
  (sum_list_with budget sts + (length tasks - index v) * S B)%nat.

(** The assignments a worker makes to the shared variables. *)
Definition store (cur : nat) (r : slot R) (v : rc_vars R) : rc_vars R :=
  RcVars (<[cur := Some r]> (results v)) (index v).

Definition claim (v : rc_vars R) : rc_vars R :=
  RcVars (results v) (S (index v)).

(** The worker from the point where the promise [q] of its task is
    awaited. *)
Definition wrapped (fuel cur : nat) (q : promise (St * rc_vars R) R)
  : action (St * rc_vars R) unit :=
  (try_catch
     (do r <- (fun st => (st, q)); set_result cur (Value r))
     (fun e => set_result cur (ErrorObj e));;
   worker_loop tasks fuel).

Definition loop_ok (fuel : nat) : Prop :=
  forall s v,
    (length tasks <= fuel + index v)%nat ->
    (index v < length tasks)%nat ->
    exists s' p',
      worker_loop tasks fuel (s, v) = ((s', claim v), p') /\
      Wk (fuel - 1) (S B) (index v) p'.

(** The workers just started, in the order of the tasks they took. *)
Definition spawned (from count : nat) : list wstatus :=
  (fun cur => WBusy (length tasks - 1) (S B) cur) <$> seq from count.

(** The counter has reached the end of the array, and every slot holds
    the outcome of its task. *)
Definition all_recorded (v : rc_vars R) : Prop :=
  length (results v) = length tasks /\
  index v = length tasks /\
  forall i, (i < length tasks)%nat -> completed v i.

(** The same shapes without bounds, for tasks that may never settle: the
    worker hangs with its task ([Wp_hang]), its task is still running
    ([Wp_run]), or the task has settled with [r] and the next resumption
    stores [r] and goes round the loop ([Wp_store]). *)
Inductive Wp : nat -> nat -> promise (St * rc_vars R) unit -> Prop :=
| Wp_hang fuel cur : Wp fuel cur Pending
| Wp_run fuel cur k :
    (forall s v, exists s' p',
        k (s, v) = ((s', v), p') /\ Wp fuel cur p') ->
    Wp fuel cur (Await k)
| Wp_store fuel cur k r :
    post cur r ->
    (forall s v,
        (length tasks <= fuel + index v)%nat ->
        ((index v < length tasks)%nat ->
         exists s' p',
           k (s, v) = ((s', claim (store cur r v)), p')
           /\ Wp (fuel - 1) (index v) p') /\
        ((length tasks <= index v)%nat ->
         k (s, v) = ((s, store cur r v), Ret tt))) ->
    Wp fuel cur (Await k).

Definition worker_sound (v : rc_vars R) (st : wstatus)
    (w : promise (St * rc_vars R) unit) : Prop :=
  match st with
  | WDone => w = Ret tt /\ (length tasks <= index v)%nat
  | WBusy fuel _ cur =>
      Wp fuel cur w /\ (length tasks <= fuel + index v)%nat /\
      (cur < index v)%nat
  end.

(** Every task called is with a worker, or its outcome is in its slot. *)
Definition pool_sound (sts : list wstatus)
    (ws : list (promise (St * rc_vars R) unit)) (v : rc_vars R) : Prop :=
  length (results v) = length tasks /\
  (index v <= length tasks)%nat /\
  Forall2 (worker_sound v) sts ws /\
  (sts = [] -> length tasks = 0%nat) /\
  (forall cur, (cur < index v)%nat ->
     (exists i fuel b, sts !! i = Some (WBusy fuel b cur)) \/ completed v cur).

Definition loop_sound (fuel : nat) : Prop :=
  forall s v,
    (length tasks <= fuel + index v)%nat ->
    (index v < length tasks)%nat ->
    exists s' p',
      worker_loop tasks fuel (s, v) = ((s', claim v), p') /\
      Wp (fuel - 1) (index v) p'.
End RunConcurrentSpec.

(** ** Suites, tests and the world they run in *)

(** Locations of the objects the source shares by reference: context
    objects and hook arrays. *)
Definition loc : Type := nat.

(** The events of [testEmitter].  The [Test] object that [testPass] and
    [testFail] carry is represented by its title. *)
Inductive event : Type :=
| SuiteStart (title : string)
| TestStart (title : string)
| TestPass (title : string) (duration : Z)
| TestFail (title : string) (duration : Z) (error : value)
| TestSkip (title : string)
| RunEnd (totalDuration : Z).

(** The history of a run: the calls the engine makes into test code, with
    the [this] they receive, and the events it emits, in order. *)
Inductive entry : Type :=
| Called (name : string) (this : loc)
| Emitted (ev : event).

(** [error.message] *)
Definition message_of (error : value) : value :=
  match error with
  | VError msg => VStr msg
  | VObj fields => default VUndefined (snd <$> List.find (fun kv => String.eqb (fst kv) "message") fields)
  | _ => VUndefined
  end.

Record ReportLine : Type := {
  line_title : string;
  line_duration : option Z;
  line_status : string;
  line_error : option value;
}.

(** [class Reporter], attached to the emitter when the module is loaded. *)
Record Reporter : Type := {
  passed : nat;
  failed : nat;
  skipped : nat;
  reported : list ReportLine;
}.

(** The methods of the reporter: the reporter they leave, and how the
    call completes. *)
Definition onTestPass (title : string) (duration : Z) (r : Reporter)
  : Reporter * completion unit :=
  ({| passed := S (passed r); failed := failed r; skipped := skipped r;
      reported := reported r ++
        [{| line_title := title; line_duration := Some duration;
            line_status := "pass"; line_error := None |}] |},
   Normal tt).

(** [this.failed++] comes first; reading [error.message] off [undefined]
    or [null] then throws, and no line is pushed. *)
Definition onTestFail (title : string) (duration : Z) (error : value)
    (r : Reporter) : Reporter * completion unit :=
  let counted := {| passed := passed r; failed := S (failed r);
                    skipped := skipped r; reported := reported r |} in
  match error with
  | VUndefined =>
      (counted,
       Abrupt (VError "Cannot read properties of undefined (reading 'message')"))
  | VNull =>
      (counted,
       Abrupt (VError "Cannot read properties of null (reading 'message')"))
  | _ =>
      ({| passed := passed r; failed := S (failed r); skipped := skipped r;
          reported := reported r ++
            [{| line_title := title; line_duration := Some duration;
                line_status := "fail"; line_error := Some (message_of error) |}] |},
       Normal tt)
  end.

Definition onTestSkip (title : string) (r : Reporter) : Reporter * completion unit :=
  ({| passed := passed r; failed := failed r; skipped := S (skipped r);
      reported := reported r ++
        [{| line_title := title; line_duration := None;
            line_status := "skip"; line_error := None |}] |},
   Normal tt).

(** The listeners registered by the module itself, one per event. *)
Definition listeners (ev : event) (r : Reporter) : Reporter * completion unit :=
  match ev with
  | TestPass title duration => onTestPass title duration r
  | TestFail title duration error => onTestFail title duration error r
  | TestSkip title => onTestSkip title r
  | SuiteStart _ | TestStart _ | RunEnd _ => (r, Normal tt)
  end.

(** The fields of [globalConfigObj] that a run reads. *)
Record Config : Type := {
  concurrency : Z;
  grep : option string;
}.

Definition defaultConfig : Config := {| concurrency := 50; grep := None |}.

(** What [new RegExp(pattern)] gives: a [SyntaxError] with its message for
    a pattern that is not a regular expression, or the regular expression,
    of which a run uses the [test] method only. *)
Inductive regexp : Type :=
| InvalidPattern (message : string)
| Pattern (test : string -> bool).

Section Engine.
(** Whatever test code can reach besides the context objects. *)
Context {U : Type}.
(** [new RegExp(pattern)] *)
Variable RegExp : string -> regexp.

(** The part of the state that hooks and test bodies act on.  The
    properties of a context hold their values by value: an object stored
    under two keys or in two contexts is not shared in the model. *)
Record ustate : Type := UState {
  ctxs : gmap loc (gmap string value);
  user : U;
}.

(** A hook or a test body: a function called with [this] bound to a
    context object.  Its name identifies it in the history. *)
Record callable : Type := Callable {
  fn_name : string;
  fn_body : loc -> action ustate unit;
}.

(** [test.options] after [Object.assign({ timeout: null, retry: 0,
    tags: [] }, options)]. *)
Record TestOptions : Type := {
  timeout : option Z;
  retry : Z;
  tags : list string;
}.

(** The options object a caller of [it] may pass. *)
Record ItOptions : Type := {
  opt_timeout : option Z;
  opt_retry : option Z;
  opt_tags : option (list string);
  opt_only : bool;
  opt_skip : bool;
}.

Definition no_options : ItOptions :=
  {| opt_timeout := None; opt_retry := None; opt_tags := None;
     opt_only := false; opt_skip := false |}.

Record Test : Type := {
  title : string;
  testFn : callable;
  options : TestOptions;
  t_only : bool;
  t_skip : bool;
}.

(** [new Test(title, testFn, options)] *)
Definition new_Test (title : string) (testFn : callable) (o : ItOptions) : Test :=
  {| title := title;
     testFn := testFn;
     options := {| timeout := opt_timeout o;
                   retry := default 0 (opt_retry o);
                   tags := default [] (opt_tags o) |};
     t_only := opt_only o;
     t_skip := opt_skip o |}.

Record Hooks : Type := {
  beforeAll : list callable;
  afterAll : list callable;
  beforeEach : list callable;
  afterEach : list callable;
}.

(** [class Suite].  [merged] stands for the two cache fields
    [mergedBeforeEach] and [mergedAfterEach], which the constructor sets to
    [null] together and [computeMergedHooks] fills together: the locations
    of the two cached arrays. *)
Inductive Suite : Type := MkSuite {
  s_title : string;
  tests : list Test;
  suites : list Suite;
  hooks : Hooks;
  context : loc;
  s_only : bool;
  s_skip : bool;
  merged : option (loc * loc);
}.

Definition no_hooks : Hooks :=
  {| beforeAll := []; afterAll := []; beforeEach := []; afterEach := [] |}.

(** [new Suite(title)], given the location of its fresh [context]. *)
Definition new_Suite (title : string) (context : loc) : Suite :=
  {| s_title := title; tests := []; suites := []; hooks := no_hooks;
     context := context; s_only := false; s_skip := false; merged := None |}.

Definition set_tests (ts : list Test) (s : Suite) : Suite :=
  MkSuite (s_title s) ts (suites s) (hooks s) (context s) (s_only s) (s_skip s) (merged s).
Definition set_suites (ss : list Suite) (s : Suite) : Suite :=
  MkSuite (s_title s) (tests s) ss (hooks s) (context s) (s_only s) (s_skip s) (merged s).
Definition set_hooks (h : Hooks) (s : Suite) : Suite :=
  MkSuite (s_title s) (tests s) (suites s) h (context s) (s_only s) (s_skip s) (merged s).
Definition set_context (c : loc) (s : Suite) : Suite :=
  MkSuite (s_title s) (tests s) (suites s) (hooks s) c (s_only s) (s_skip s) (merged s).
Definition set_flags (only skip : bool) (s : Suite) : Suite :=
  MkSuite (s_title s) (tests s) (suites s) (hooks s) (context s) only skip (merged s).
Definition set_merged (m : option (loc * loc)) (s : Suite) : Suite :=
  MkSuite (s_title s) (tests s) (suites s) (hooks s) (context s) (s_only s) (s_skip s) m.

(** *** The registration API

    [describe], [it] and the hook functions act on [currentSuite]; the
    state of a test file being loaded is that suite and the store in which
    the [context] objects of new suites are allocated. *)
Record building : Type := Building {
  b_ctxs : gmap loc (gmap string value);
  currentSuite : Suite;
}.

Definition on_current (f : Suite -> Suite) (b : building) : building :=
  Building (b_ctxs b) (f (currentSuite b)).

(** [it(title, fn)] is [it title None fn]; [it(title, options, fn)] is
    [it title (Some options) fn]. *)
Definition it (title : string) (o : option ItOptions) (fn : callable)
  : building -> building :=
  on_current (fun s => set_tests (tests s ++ [new_Test title fn (default no_options o)]) s).

Definition it_only (title : string) (o : option ItOptions) (fn : callable)
  : building -> building :=
  let o' := default no_options o in
  it title (Some {| opt_timeout := opt_timeout o'; opt_retry := opt_retry o';
                     opt_tags := opt_tags o'; opt_only := true;
                     opt_skip := opt_skip o' |}) fn.

(** [it.skip]: "Do not register skipped tests." *)
Definition it_skip (title : string) (o : option ItOptions) (fn : callable)
  : building -> building :=
  fun b => b.

Definition add_beforeAll (fn : callable) : building -> building :=
  on_current (fun s => set_hooks
    {| beforeAll := beforeAll (hooks s) ++ [fn]; afterAll := afterAll (hooks s);
       beforeEach := beforeEach (hooks s); afterEach := afterEach (hooks s) |} s).
Definition add_afterAll (fn : callable) : building -> building :=
  on_current (fun s => set_hooks
    {| beforeAll := beforeAll (hooks s); afterAll := afterAll (hooks s) ++ [fn];
       beforeEach := beforeEach (hooks s); afterEach := afterEach (hooks s) |} s).
Definition add_beforeEach (fn : callable) : building -> building :=
  on_current (fun s => set_hooks
    {| beforeAll := beforeAll (hooks s); afterAll := afterAll (hooks s);
       beforeEach := beforeEach (hooks s) ++ [fn]; afterEach := afterEach (hooks s) |} s).
Definition add_afterEach (fn : callable) : building -> building :=
  on_current (fun s => set_hooks
    {| beforeAll := beforeAll (hooks s); afterAll := afterAll (hooks s);
       beforeEach := beforeEach (hooks s); afterEach := afterEach (hooks s) ++ [fn] |} s).

(** [describe(title, fn)], with the [only] and [skip] marks that
    [describe.only] and [describe.skip] leave on [fn]. *)
Definition describe (title : string) (only skip : bool)
    (fn : building -> building) : building -> building :=
  fun b =>
    let c := fresh (dom (b_ctxs b)) in
    let suite := set_flags only skip (new_Suite title c) in
    let prevSuite := currentSuite b in
    let b' := fn (Building (<[c := ∅]> (b_ctxs b)) suite) in
    Building (b_ctxs b')
             (set_suites (suites prevSuite ++ [currentSuite b']) prevSuite).

(** The module as loaded: [rootSuite] is [currentSuite]. *)
Definition loaded : building :=
  Building {[ 0%nat := ∅ ]} (new_Suite "Root" 0%nat).

(** *** The state of a run *)

Record world : Type := World {
  ust : ustate;
  (** the hook arrays built by [concat], by location *)
  arrays : gmap loc (list callable);
  (** history variable: calls made and events emitted so far *)
  trace : list entry;
  reporter : Reporter;
  currentTestTitle : option string;
  (** the clock read by [Date.now()], in milliseconds *)
  now : Z;
  config : Config;
  (** the scheduling decisions still to come *)
  oracle : list nat;
  (** the context objects created so far: an object is created once, even
      where test code has dropped it from the store *)
  objects : gset loc;
}.

Definition set_ust (u : ustate) (w : world) : world :=
  World u (arrays w) (trace w) (reporter w) (currentTestTitle w) (now w) (config w) (oracle w)
        (objects w).
Definition set_arrays (a : gmap loc (list callable)) (w : world) : world :=
  World (ust w) a (trace w) (reporter w) (currentTestTitle w) (now w) (config w) (oracle w)
        (objects w).
Definition set_now (t : Z) (w : world) : world :=
  World (ust w) (arrays w) (trace w) (reporter w) (currentTestTitle w) t (config w) (oracle w)
        (objects w).
Definition set_oracle (o : list nat) (w : world) : world :=
  World (ust w) (arrays w) (trace w) (reporter w) (currentTestTitle w) (now w) (config w) o
        (objects w).
Definition set_currentTestTitle (t : string) (w : world) : world :=
  World (ust w) (arrays w) (trace w) (reporter w) (Some t) (now w) (config w) (oracle w)
        (objects w).
Definition record (e : entry) (w : world) : world :=
  World (ust w) (arrays w) (trace w ++ [e]) (reporter w) (currentTestTitle w) (now w) (config w) (oracle w)
        (objects w).
(** A context object is created: the store holds it, and the location is
    taken for good. *)
Definition allocate (c : loc) (keys : gmap string value) (w : world) : world :=
  World (UState (<[c := keys]> (ctxs (ust w))) (user (ust w)))
        (arrays w) (trace w) (reporter w) (currentTestTitle w) (now w) (config w)
        (oracle w) ({[c]} ∪ objects w).

(** A location that holds no object and never did. *)
Definition new_object (w : world) : loc :=
  fresh (dom (ctxs (ust w)) ∪ objects w).

(** The listeners have run. *)
Definition notify (ev : event) (w : world) : world :=
  World (ust w) (arrays w) (trace w) (listeners ev (reporter w)).1
        (currentTestTitle w) (now w) (config w) (oracle w) (objects w).

Definition of_completion {St A} (c : completion A) : promise St A :=
  match c with
  | Normal a => Ret a
  | Abrupt e => Throw e
  end.

(** [testEmitter.emit(...)]: the listeners run before [emit] returns, and
    what a listener throws, [emit] throws.  Only the reporter listens;
    plugins registered with [onTestEvent] are not part of the model. *)
Definition emit (ev : event) : action world unit :=
  fun w => (notify ev (record (Emitted ev) w),
            of_completion (listeners ev (reporter w)).2).

(** [fn.call(this)] *)
Definition call (fn : callable) (this : loc) : action world unit :=
  fun w => zoom ust set_ust (fn_body fn this) (record (Called (fn_name fn) this) w).

Definition array_at (l : loc) (w : world) : list callable :=
  default [] (arrays w !! l).

(** [for (const hook of chain) { await hook.call(ctx); }] *)
Definition run_chain (chain : loc) (ctx : loc) : action world unit :=
  fun w => for_each (array_at chain w) (fun hook => await (call hook ctx)) w.

Definition Date_now : action world Z := gets now.

(** *** [computeMergedHooks] *)

Definition computeMergedHooks (suite : Suite) (parentBefore parentAfter : loc)
    (w : world) : world * Suite * (loc * loc) :=
  match merged suite with
  | None =>
      let before := fresh (dom (arrays w)) in
      let w1 := set_arrays
                  (<[before := array_at parentBefore w ++ beforeEach (hooks suite)]>
                     (arrays w)) w in
      let after := fresh (dom (arrays w1)) in
      let w2 := set_arrays
                  (<[after := afterEach (hooks suite) ++ array_at parentAfter w1]>
                     (arrays w1)) w1 in
      (w2, set_merged (Some (before, after)) suite, (before, after))
  | Some (before, after) => (w, suite, (before, after))
  end.

(** *** The test task *)

Definition timeout_error : value := VError "Test timed out".

(** [Promise.race([Promise.resolve(body), timer])] once the body has been
    called: the body's promise wins if it settles; where it does not
    settle in time ([Pending]), the timer fires, no earlier than
    [deadline], and rejects.  What a body does after it has lost the race
    is not followed. *)
Fixpoint race_promise (deadline : Z) (p : promise world unit) : promise world unit :=
  match p with
  | Ret a => Ret a
  | Throw e => Throw e
  | Pending =>
      Await (fun w => (set_now (Z.max (now w) deadline) w, Throw timeout_error))
  | Await k => Await (fun w => let (w', p') := k w in (w', race_promise deadline p'))
  end.

(** [TIMEOUT_MAX] of Node's timers, 2^31 - 1 *)
Definition TIMEOUT_MAX : Z := 2147483647.

(** The delay of [setTimeout(f, ms)]: [ms] milliseconds when [ms] lies
    between 1 and [TIMEOUT_MAX], one millisecond otherwise. *)
Definition timer_delay (ms : Z) : Z :=
  if (1 <=? ms) && (ms <=? TIMEOUT_MAX) then ms else 1.

Definition race_timeout (body : action world unit) (ms : Z) : action world unit :=
  fun w => let (w', p) := body w in (w', race_promise (now w' + timer_delay ms) p).

(** One pass through the [try] block. *)
Definition attempt (test : Test) (ctx : loc) : action world unit :=
  match timeout (options test) with
  | Some ms =>
      if ms =? 0 then await (call (testFn test) ctx)
      else await (race_timeout (call (testFn test) ctx) ms)
  | None => await (call (testFn test) ctx)
  end.

(** [test.options.retry || 0] *)
Definition retryLimit (test : Test) : Z :=
  if retry (options test) =? 0 then 0 else retry (options test).

(** The [do ... while (attempts <= retryLimit)] loop, which returns the
    final value of [error].  [attempts] grows by one in every round that
    does not leave the loop, so [rounds] passes are enough. *)
Fixpoint attempt_loop (test : Test) (ctx : loc) (rounds : nat)
    (error : value) (attempts : Z) : action world value :=
  match rounds with
  | O => ret error
  | S rounds' =>
      do caught <- try_catch (attempt test ctx;; ret None)
                             (fun err => ret (Some err));
      match caught with
      | None => ret VNull
      | Some err =>
          let attempts' := attempts + 1 in
          if attempts' <=? retryLimit test
          then attempt_loop test ctx rounds' err attempts'
          else ret err
      end
  end.

Definition max_rounds (test : Test) : nat := S (Z.to_nat (retryLimit test)).

(** The closure built for one test by [testsToRun.map]. *)
Definition testTask (ctx before after : loc) (test : Test) : action world unit :=
  run_chain before ctx;;
  emit (TestStart (title test));;
  modify (set_currentTestTitle (title test));;
  do tStart <- Date_now;
  do error <- attempt_loop test ctx (max_rounds test) VNull 0;
  do tEnd <- Date_now;
  let tDuration := tEnd - tStart in
  run_chain after ctx;;
  if truthy error
  then emit (TestFail (title test) tDuration error)
  else emit (TestPass (title test) tDuration).

(** *** [runSuite] *)

(** The [filter] callback: with a pattern and no [only] test it builds
    the regular expression, which throws on a pattern that is not one. *)
Definition eligible (suite : Suite) (cfg : Config) (test : Test) : completion bool :=
  if existsb t_only (tests suite) then Normal (t_only test)
  else match grep cfg with
       | Some pattern =>
           if String.eqb pattern "" then Normal true
           else match RegExp pattern with
                | InvalidPattern message => Abrupt (VError message)
                | Pattern re => Normal (re (title test))
                end
       | None => Normal true
       end.

(** [array.filter(keep)] with a callback that may throw: the callback is
    called on the elements in order, and the first throw ends the call. *)
Fixpoint filter_with {A} (keep : A -> completion bool) (l : list A)
  : completion (list A) :=
  match l with
  | [] => Normal []
  | x :: rest =>
      match keep x with
      | Abrupt e => Abrupt e
      | Normal b =>
          match filter_with keep rest with
          | Abrupt e => Abrupt e
          | Normal kept => Normal (if b then x :: kept else kept)
          end
      end
  end.

Definition testsToRun (suite : Suite) (cfg : Config) : completion (list Test) :=
  filter_with (eligible suite cfg) (tests suite).

(** [Object.assign({}, parentContext, suite.context)]: a new object, the
    keys of the parent first, then the suite's own over them. *)
Definition context_at (l : loc) (w : world) : gmap string value :=
  default ∅ (ctxs (ust w) !! l).

Definition merge_context (suite : Suite) (parentContext : loc) (w : world)
  : world * Suite :=
  let merged_keys := context_at (context suite) w ∪ context_at parentContext w in
  let c := new_object w in
  (allocate c merged_keys w, set_context c suite).

(** How an [async] function called at the top level ends. *)
Inductive settled : Type :=
| Done
| Failed (e : value)
| Hangs
| NoSchedule.

Definition settled_of {A} (o : outcome A) : settled :=
  match o with
  | Fulfilled _ => Done
  | Rejected e => Failed e
  | Unsettled => Hangs
  end.

(** [for (const hook of hooks) { await hook.call(suite.context); }] in
    [runSuite] itself, which is the only job at that point. *)
Definition run_hooks (fns : list callable) (ctx : loc) (w : world) : world * settled :=
  let (w', o) := run (for_each fns (fun hook => await (call hook ctx))) w in
  (w', settled_of o).

(** [for (const child of children) { await run_child(child); }], where a
    child that fails ends the loop. *)
Section EachChild.
Variable run_child : Suite -> world -> world * Suite * settled.

Fixpoint each_child (children : list Suite) (w : world)
  : world * list Suite * settled :=
  match children with
  | [] => (w, [], Done)
  | child :: rest =>
      match run_child child w with
      | (w, child', Done) =>
          let '(w, rest', r) := each_child rest w in
          (w, child' :: rest', r)
      | (w, child', r) => (w, child' :: rest, r)
      end
  end.
End EachChild.

(** Two fields of the suite object are assigned during its run, [context]
    and the cache: [runSuite] returns the suite as it is afterwards, with
    its children as their own runs leave them. *)
Fixpoint runSuite (suite : Suite) (parentContext parentBefore parentAfter : loc)
    (w : world) {struct suite} : world * Suite * settled :=
  if s_skip suite then (w, suite, Done) else
  let (w, suite1) := merge_context suite parentContext w in
  let ctx := context suite1 in
  match run_hooks (beforeAll (hooks suite1)) ctx w with
  | (w, Done) =>
      let '(w, suite2, (before, after)) :=
        computeMergedHooks suite1 parentBefore parentAfter w in
      match testsToRun suite2 (config w) with
      | Abrupt e => (w, suite2, Failed e)
      | Normal selected =>
          let testTasks := testTask ctx before after <$> selected in
          match runConcurrent testTasks (concurrency (config w)) (oracle w) w with
          | (sched, w, Resolved _) =>
              let w := set_oracle sched w in
              let '(w, children, r) :=
                each_child (fun child => runSuite child ctx before after)
                           (suites suite) w in
              let suite3 := set_suites children suite2 in
              match r with
              | Done =>
                  let (w, r) := run_hooks (afterAll (hooks suite3)) ctx w in
                  (w, suite3, r)
              | _ => (w, suite3, r)
              end
          | (sched, w, RcRejected e) => (set_oracle sched w, suite2, Failed e)
          | (sched, w, NeverResolves) => (set_oracle sched w, suite2, Hangs)
          | (sched, w, RcOutOfSchedule) => (set_oracle sched w, suite2, NoSchedule)
          end
      end
  | (w, r) => (w, suite1, r)
  end.

(** [runTests].  The default arguments of [runSuite], [{}], [[]] and
    [[]], are fresh objects; the global hooks are called without [this];
    [reporter.report] only prints. *)
Definition run_globals (fns : list (action ustate unit)) (w : world)
  : world * settled :=
  let (w', o) := run (for_each fns (fun fn => await (zoom ust set_ust fn))) w in
  (w', settled_of o).

Definition runTests (globalBefore globalAfter : list (action ustate unit))
    (rootSuite : Suite) (w : world) : world * Suite * settled :=
  match run_globals globalBefore w with
  | (w, Done) =>
      match run (emit (SuiteStart (s_title rootSuite))) w with
      | (w, Fulfilled _) =>
          let start := now w in
          let parentContext := new_object w in
          let w := allocate parentContext ∅ w in
          let parentBefore := fresh (dom (arrays w)) in
          let w := set_arrays (<[parentBefore := []]> (arrays w)) w in
          let parentAfter := fresh (dom (arrays w)) in
          let w := set_arrays (<[parentAfter := []]> (arrays w)) w in
          match runSuite rootSuite parentContext parentBefore parentAfter w with
          | (w, suite, Done) =>
              let total := now w - start in
              match run (emit (RunEnd total)) w with
              | (w, Fulfilled _) =>
                  let (w, r) := run_globals globalAfter w in
                  (w, suite, r)
              | (w, o) => (w, suite, settled_of o)
              end
          | (w, suite, r) => (w, suite, r)
          end
      | (w, o) => (w, rootSuite, settled_of o)
      end
  | (w, r) => (w, rootSuite, r)
  end.
End Engine.

(** ** Vocabulary of the statements about tasks *)

Section EngineSpec.
Context {U : Type}.

(** The calls of a list of hooks, in order, all on the same context. *)
Definition calls (ctx : loc) (fns : list (@callable U)) : list entry :=
  (fun fn => Called (fn_name fn) ctx) <$> fns.

Definition body_call (test : @Test U) (ctx : loc) : entry :=
  Called (fn_name (testFn test)) ctx.

(** Between [w] and [w'] test code has run: only the user state and the
    clock may differ, and the history has grown by [l]. *)
Definition advanced (w w' : @world U) (l : list entry) : Prop :=
  arrays w' = arrays w /\ trace w' = trace w ++ l /\
  reporter w' = reporter w /\ currentTestTitle w' = currentTestTitle w /\
  config w' = config w /\ oracle w' = oracle w.

Definition chain_action (fns : list (@callable U)) (ctx : loc)
  : action (@world U) unit :=
  for_each fns (fun hook => await (call hook ctx)).

(** One round of the attempt loop. *)
Definition round (test : @Test U) (ctx : loc) : action (@world U) (option value) :=
  try_catch (attempt test ctx;; ret None) (fun err => ret (Some err)).

(** The world once [testStart] has been emitted and [currentTestTitle]
    assigned. *)
Definition started (test : @Test U) (w : @world U) : @world U :=
  set_currentTestTitle (title test)
    (notify (TestStart (title test)) (record (Emitted (TestStart (title test))) w)).

(** The event that closes a task. *)
Definition verdict (test : @Test U) (duration : Z) (error : value) : event :=
  if truthy error then TestFail (title test) duration error
  else TestPass (title test) duration.

(** The task from the end of the attempt loop. *)
Definition finish (test : @Test U) (tStart : Z) (after ctx : loc)
    (r : @world U * outcome value) : @world U * outcome unit :=
  match r with
  | (w2, Fulfilled error) =>
      match run (run_chain after ctx) w2 with
      | (w3, Fulfilled _) =>
          let ev := verdict test (now w2 - tStart) error in
          (notify ev (record (Emitted ev) w3), Fulfilled tt)
      | (w3, Rejected e) => (w3, Rejected e)
      | (w3, Unsettled) => (w3, Unsettled)
      end
  | (w2, Rejected e) => (w2, Rejected e)
  | (w2, Unsettled) => (w2, Unsettled)
  end.

(** From [w], the attempts of [test] fail [r] times in a row and the next
    one succeeds, leaving [w']. *)
Fixpoint fails_then_passes (test : @Test U) (ctx : loc) (r : nat)
    (w w' : @world U) : Prop :=
  match r with
  | O => run (attempt test ctx) w = (w', Fulfilled tt)
  | S r' =>
      exists w1 e,
        run (attempt test ctx) w = (w1, Rejected e) /\
        fails_then_passes test ctx r' w1 w'
  end.

(** A body whose promise never settles, however it is called. *)
Definition never_settles (fn : @callable U) : Prop :=
  forall this u, hangs (fn_body fn this u).2.

(** An entry of the history that is not a call on another context. *)
Definition on_context (ctx : loc) (e : entry) : Prop :=
  match e with
  | Called _ this => this = ctx
  | Emitted _ => True
  end.

(** An entry that is a call is a call on an object in [P]. *)
Definition called_on (P : loc -> Prop) (e : entry) : Prop :=
  match e with
  | Called _ this => P this
  | Emitted _ => True
  end.

(** The functions of a suite: its hooks, the bodies of its tests, and the
    functions of the suites below it. *)
Fixpoint functions (suite : @Suite U) : list (@callable U) :=
  beforeAll (hooks suite) ++ afterAll (hooks suite) ++
  beforeEach (hooks suite) ++ afterEach (hooks suite) ++
  (testFn <$> tests suite) ++ flat_map functions (suites suite).
End EngineSpec.

(** ** Sample test files *)

Module Samples.

(** Test code that prints: the user state is the console. *)
Definition console : Type := list string.

Definition say (line : string) : action (@ustate console) unit :=
  modify (fun u => UState (ctxs u) (user u ++ [line])).

(** [function () { console.log(name); }] *)
Definition logger (name : string) : @callable console :=
  Callable name (fun _ => say name).

(** [function () { throw new Error(name); }] *)
Definition thrower (name : string) : @callable console :=
  Callable name (fun _ => throw (VError name)).

(** [function () { this[key] = v; }] *)
Definition setter (name key : string) (v : value) : @callable console :=
  Callable name (fun this =>
    modify (fun u =>
      UState (<[this := <[key := v]> (default ∅ (ctxs u !! this))]> (ctxs u))
             (user u))).

(** [function () { console.log(name + ":" + JSON.stringify(this[key])); }] *)
Definition reader (name key : string) : @callable console :=
  Callable name (fun this u =>
    match JSON.stringify (default VUndefined (default ∅ (ctxs u !! this) !! key)) with
    | Normal text => say (name +:+ ":" +:+ show_json text) u
    | Abrupt e => throw e u
    end).

(** A body that throws until it has been called [failures] times, like
    the retried test of [test.js]. *)
Definition flaky (name : string) (failures : nat) : @callable console :=
  Callable name (fun _ u =>
    if decide (length (List.filter (String.eqb name) (user u)) < failures)%nat
    then (say name;; throw (VError "Simulated failure, please retry!")) u
    else say name u).

(** [function () { return new Promise(() => {}); }] *)
Definition stalled (name : string) : @callable console :=
  Callable name (fun _ => never).

Definition steps (fs : list (@building console -> @building console))
  : @building console -> @building console :=
  fun b => foldl (fun b f => f b) b fs.

(** The world in which a loaded file is run: default configuration, an
    empty history, and a scheduler that always takes the first job. *)
Definition ready (b : @building console) : @world console :=
  World (UState (b_ctxs b) []) ∅ [] (Build_Reporter 0 0 0 []) None 0
        defaultConfig (repeat 0%nat 64) (dom (b_ctxs b)).

(** A regular expression engine for the samples: a pattern is valid when
    it has no parenthesis, and matches the titles that begin with it. *)
Definition sample_RegExp (pattern : string) : regexp :=
  if existsb (fun c => Ascii.eqb c "("%char) (list_ascii_of_string pattern)
  then InvalidPattern ("Invalid regular expression: /" +:+ pattern +:+
                       "/: Unterminated group")
  else Pattern (String.prefix pattern).

Definition run_file (b : @building console)
  : @world console * @Suite console * @settled :=
  runTests sample_RegExp [] [] (currentSuite b) (ready b).

(** describe("S", () => { beforeEach(boom); afterEach(cleanup);
    it("t1", body1); }) *)
Definition failing_before_hook : @building console :=
  steps [describe "S" false false
           (steps [add_beforeEach (thrower "boom");
                   add_afterEach (logger "cleanup");
                   it "t1" None (logger "body1")])] loaded.

(** describe("S", () => { beforeEach(setup); it("t1", body1); }) *)
Definition with_before_hook : @building console :=
  steps [describe "S" false false
           (steps [add_beforeEach (logger "setup");
                   it "t1" None (logger "body1")])] loaded.

Definition skip_true : @ItOptions :=
  {| opt_timeout := None; opt_retry := None; opt_tags := None;
     opt_only := false; opt_skip := true |}.

(** describe("S", () => { it.skip("t0", body0);
    it("t1", { skip: true }, body1); }) *)
Definition with_skip_option : @building console :=
  steps [describe "S" false false
           (steps [it_skip "t0" None (logger "body0");
                   it "t1" (Some skip_true) (logger "body1")])] loaded.

(** describe("P", () => { afterAll(readP);
      describe("C1", () => { beforeAll(setX); });
      describe("C2", () => { it("t2", readX); }); }) *)
Definition two_children : @building console :=
  steps [describe "P" false false
           (steps [add_afterAll (reader "readP" "x");
                   describe "C1" false false
                     (steps [add_beforeAll (setter "setX" "x" (VNum (NInt (lit 1))))]);
                   describe "C2" false false
                     (steps [it "t2" None (reader "readX" "x")])])] loaded.

(** Tasks over a console. *)
Definition print_task (line : string) : action console string :=
  (modify (fun out : console => out ++ [line]);; ret line).

Definition failing_task (line : string) : action console string :=
  (await (modify (fun out : console => out ++ [line]));; throw (VStr line)).

Definition three_tasks : list (action console string) :=
  [print_task "a"; failing_task "b"; print_task "c"].

Definition three_outcomes (i : nat) (r : slot string) : Prop :=
  [Value "a"; ErrorObj (VStr "b"); Value "c"] !! i = Some r.

(** A world with two hook arrays, at locations 0 and 1, and one context
    object, at location 0. *)
Definition bench : @world console :=
  World (UState {[ 0%nat := ∅ ]} [])
        {[ 0%nat := [logger "setup"]; 1%nat := [logger "cleanup"] ]}
        [] (Build_Reporter 0 0 0 []) None 0 defaultConfig [] {[ 0%nat ]}.

Definition bench_failing : @world console :=
  set_arrays {[ 0%nat := [logger "setup"; thrower "boom"; logger "unreached"];
                1%nat := [logger "cleanup"] ]} bench.

Definition plain_test : @Test console :=
  new_Test "t1" (logger "body1") no_options.

(** it("retried", { retry: 3 }, flaky) with a body that fails twice *)
Definition retried_test : @Test console :=
  new_Test "retried" (flaky "flaky" 2)
    {| opt_timeout := None; opt_retry := Some 3; opt_tags := None;
       opt_only := false; opt_skip := false |}.

(** it("slow", { timeout: 100, retry: 2 }, stalled) *)
Definition slow_test : @Test console :=
  new_Test "slow" (stalled "stalled")
    {| opt_timeout := Some 100; opt_retry := Some 2; opt_tags := None;
       opt_only := false; opt_skip := false |}.

(** describe("S", () => { afterEach(cleanup);
    it("retried", { retry: 3 }, flaky); }) with a hook that throws *)
Definition retried_with_failing_after : @building console :=
  steps [describe "S" false false
           (steps [add_afterEach (thrower "cleanup");
                   it "retried"
                      (Some {| opt_timeout := None; opt_retry := Some 3;
                               opt_tags := None; opt_only := false;
                               opt_skip := false |})
                      (flaky "flaky" 2)])] loaded.

(** describe("S", () => { afterEach(cleanup);
    it("slow", { timeout: 100, retry: 2 }, stalled); }) with a hook that
    throws *)
Definition slow_with_failing_after : @building console :=
  steps [describe "S" false false
           (steps [add_afterEach (thrower "cleanup");
                   it "slow"
                      (Some {| opt_timeout := Some 100; opt_retry := Some 2;
                               opt_tags := None; opt_only := false;
                               opt_skip := false |})
                      (stalled "stalled")])] loaded.

(** describe("S", () => { it("slow", { timeout: 3000000000 }, stalled); }) *)
Definition slow_with_long_timeout : @building console :=
  steps [describe "S" false false
           (steps [it "slow"
                      (Some {| opt_timeout := Some 3000000000; opt_retry := None;
                               opt_tags := None; opt_only := false;
                               opt_skip := false |})
                      (stalled "stalled")])] loaded.

(** A suite with one hook of each per-test kind, not yet run. *)
Definition hooked_suite : @Suite console :=
  set_hooks {| beforeAll := []; afterAll := [];
               beforeEach := [logger "own-before"];
               afterEach := [logger "own-after"] |}
            (new_Suite "S" 0%nat).

(** The worlds that the retried test goes through on the bench: after
    the before chain, after each of its three attempts, after the after
    chain. *)
Definition retried_w1 : @world console := (run (run_chain 0%nat 0%nat) bench).1.
Definition retried_a1 : @world console :=
  (run (attempt retried_test 0%nat) (started retried_test retried_w1)).1.
Definition retried_a2 : @world console :=
  (run (attempt retried_test 0%nat) retried_a1).1.
Definition retried_w2 : @world console :=
  (run (attempt retried_test 0%nat) retried_a2).1.
Definition retried_w3 : @world console := (run (run_chain 1%nat 0%nat) retried_w2).1.

End Samples.

(** ** The configuration object and the command line *)

Module Cli.

(** [globalConfigObj] *)
Record GlobalConfig : Type := {
  globalTimeout : option Z;
  randomizeTests : bool;
  concurrency : Z;
  snapshotDir : string;
  performanceMode : bool;
  disableSnapshots : bool;
  reporter : string;
  grep : option string;
  watch : bool;
}.

(** [defaultConfig], given the value of
    [path.join(process.cwd(), '__snapshots__')]. *)
Definition defaultConfig (snapshots : string) : GlobalConfig :=
  {| globalTimeout := None; randomizeTests := false; concurrency := 50;
     snapshotDir := snapshots; performanceMode := false;
     disableSnapshots := false; reporter := "verbose"; grep := None;
     watch := false |}.

Definition set_grep (g : option string) (c : GlobalConfig) : GlobalConfig :=
  {| globalTimeout := globalTimeout c; randomizeTests := randomizeTests c;
     concurrency := concurrency c; snapshotDir := snapshotDir c;
     performanceMode := performanceMode c;
     disableSnapshots := disableSnapshots c; reporter := reporter c;
     grep := g; watch := watch c |}.

Definition set_watch (b : bool) (c : GlobalConfig) : GlobalConfig :=
  {| globalTimeout := globalTimeout c; randomizeTests := randomizeTests c;
     concurrency := concurrency c; snapshotDir := snapshotDir c;
     performanceMode := performanceMode c;
     disableSnapshots := disableSnapshots c; reporter := reporter c;
     grep := grep c; watch := b |}.

(** [s.split(sep)] for a separator of one character. *)
Fixpoint split (sep : ascii) (s : string) : list string :=
  match s with
  | EmptyString => [""]
  | String c r =>
      if Ascii.eqb c sep then "" :: split sep r
      else match split sep r with
           | p :: ps => String c p :: ps
           | [] => [String c ""]
           end
  end.

(** The callback of [process.argv.slice(2).forEach]. *)
Definition process_arg (arg : string) (c : GlobalConfig) : GlobalConfig :=
  let c1 := if String.prefix "--grep=" arg
            then set_grep (split "=" arg !! 1%nat) c else c in
  if String.eqb arg "--watch" then set_watch true c1 else c1.

Definition process_argv (argv : list string) (c : GlobalConfig) : GlobalConfig :=
  foldl (fun c arg => process_arg arg c) c (drop 2 argv).

(** An argument of [setConfig]: the keys it has, with their values. *)
Record ConfigPatch : Type := {
  new_globalTimeout : option (option Z);
  new_randomizeTests : option bool;
  new_concurrency : option Z;
  new_snapshotDir : option string;
  new_performanceMode : option bool;
  new_disableSnapshots : option bool;
  new_reporter : option string;
  new_grep : option (option string);
  new_watch : option bool;
}.

(** [Object.assign(globalConfigObj, newConfig)] *)
Definition assign (newConfig : ConfigPatch) (c : GlobalConfig) : GlobalConfig :=
  {| globalTimeout := default (globalTimeout c) (new_globalTimeout newConfig);
     randomizeTests := default (randomizeTests c) (new_randomizeTests newConfig);
     concurrency := default (concurrency c) (new_concurrency newConfig);
     snapshotDir := default (snapshotDir c) (new_snapshotDir newConfig);
     performanceMode := default (performanceMode c) (new_performanceMode newConfig);
     disableSnapshots := default (disableSnapshots c) (new_disableSnapshots newConfig);
     reporter := default (reporter c) (new_reporter newConfig);
     grep := default (grep c) (new_grep newConfig);
     watch := default (watch c) (new_watch newConfig) |}.

Inductive reporter_class : Type := MinimalReporter | VerboseReporter.

(** The module once loaded: the configuration object, and the reporter
    that was constructed and attached to the emitter at that moment. *)
Record module_state : Type := {
  globalConfigObj : GlobalConfig;
  the_reporter : reporter_class;
}.

Definition load (snapshots : string) (argv : list string) : module_state :=
  let c := process_argv argv (defaultConfig snapshots) in
  {| globalConfigObj := c;
     the_reporter := if String.eqb (reporter c) "minimal"
                     then MinimalReporter else VerboseReporter |}.

Definition setConfig (newConfig : ConfigPatch) (m : module_state) : module_state :=
  {| globalConfigObj := assign newConfig (globalConfigObj m);
     the_reporter := the_reporter m |}.

End Cli.

(** What a run reads of the configuration. *)
Definition run_config (c : Cli.GlobalConfig) : Config :=
  {| concurrency := Cli.concurrency c; grep := Cli.grep c |}.

(** ** The reporter as a listener *)

(** [new Reporter()] *)
Definition new_Reporter : Reporter :=
  {| passed := 0; failed := 0; skipped := 0; reported := [] |}.

(** The reporter after it has heard the events [evs], in order. *)
Definition hear (r : Reporter) (evs : list event) : Reporter :=
  foldl (fun r ev => (listeners ev r).1) r evs.

Definition with_status (status : string) (lines : list ReportLine) : list ReportLine :=
  List.filter (fun l => String.eqb (line_status l) status) lines.

(** [undefined] and [null], off which no property can be read. *)
Definition nullish (v : value) : bool :=
  match v with
  | VUndefined | VNull => true
  | _ => false
  end.

(** An event that the listeners of the reporter take without throwing:
    any event but a [testFail] without an error. *)
Definition takes (ev : event) : Prop :=
  match ev with
  | TestFail _ _ error => nullish error = false
  | _ => True
  end.

(** The counters agree with the lines. *)
Definition counts_ok (r : Reporter) : Prop :=
  passed r = length (with_status "pass" (reported r)) /\
  failed r = length (with_status "fail" (reported r)) /\
  skipped r = length (with_status "skip" (reported r)) /\
  length (reported r) = (passed r + failed r + skipped r)%nat.

(** ** [each] *)

Section Each.
Context {U : Type}.

(** [`${description} [case ${index}]`] *)
Definition case_title (description : string) (index : nat) : string :=
  description +:+ " [case " +:+ pretty index +:+ "]".

(** The test that [each] registers for one item: the body calls [fn] on
    the item and passes no [this]. *)
Definition case_test {X} (description : string) (fn : X -> action (@ustate U) unit)
    (index : nat) (item : X) : @Test U :=
  new_Test (case_title description index)
           (Callable (case_title description index) (fun _ => fn item))
           no_options.

(** [each(arr)(description, fn)] *)
Definition each {X} (arr : list X) (description : string)
    (fn : X -> action (@ustate U) unit) : @building U -> @building U :=
  fun b =>
    foldl (fun b '(index, item) =>
             it (case_title description index) None
                (Callable (case_title description index) (fun _ => fn item)) b)
          b (imap pair arr).
End Each.

(** ** Properties of promises that hold at every resumption *)

(** A promise that never rejects, whatever the state at its resumptions. *)
Inductive no_throw {St A : Type} : promise St A -> Prop :=
| no_throw_ret a : no_throw (Ret a)
| no_throw_pending : no_throw Pending
| no_throw_await k : (forall s, no_throw (k s).2) -> no_throw (Await k).

(** [preserves I p]: a resumption of [p] in a state of [I] leaves a state
    of [I], at every stage of [p]. *)
Fixpoint preserves {St A : Type} (I : St -> Prop) (p : promise St A) : Prop :=
  match p with
  | Await k => forall s, I s -> I (k s).1 /\ preserves I (k s).2
  | _ => True
  end.

(** [keeps I m]: so does the part of [m] that runs at once. *)
Definition keeps {St A : Type} (I : St -> Prop) (m : action St A) : Prop :=
  forall s, I s -> I (m s).1 /\ preserves I (m s).2.

(** A function that writes to no other context object than its [this]:
    at each of its steps, every other location of the store holds what it
    held. *)
Definition writes_this_only {U : Type} (fn : @callable U) : Prop :=
  forall (this l : loc) (keys : option (gmap string value)),
    l <> this -> keeps (fun u => ctxs u !! l = keys) (fn_body fn this).

(** The tasks run one after the other, each as the only job from the
    state the one before left: the final state and the outcomes, or [None]
    where a task does not settle. *)
Fixpoint run_in_turn {St R : Type} (tasks : list (action St R)) (s : St)
  : option (St * list (slot R)) :=
  match tasks with
  | [] => Some (s, [])
  | task :: rest =>
      match run task s with
      | (s', Fulfilled a) =>
          match run_in_turn rest s' with
          | Some (s'', rs) => Some (s'', Value a :: rs)
          | None => None
          end
      | (s', Rejected e) =>
          match run_in_turn rest s' with
          | Some (s'', rs) => Some (s'', ErrorObj e :: rs)
          | None => None
          end
      | (_, Unsettled) => None
      end
  end.

(** ** The tasks in flight *)

(** The number of slots of the result array that have been written. *)
Definition filled {R : Type} (results : list (option (slot R))) : nat :=
  length (List.filter (fun o => match o with Some _ => true | None => false end)
                      results).

(** What a worker is doing: it has left its loop, or it has called task
    [cur] and not yet recorded its outcome, with [fuel] rounds of the loop
    left. *)
Inductive wstate : Type :=
| Finished
| OnTask (fuel cur : nat).

Definition in_flight (st : wstate) : nat :=
  match st with Finished => 0 | OnTask _ _ => 1 end.

Section InFlight.
Context {St R : Type}.
Variable tasks : list (action St R).

(** A worker on task [cur]: every resumption either lets the task take a
    step, which leaves the variables of the call alone, or finds the task
    settled, stores the outcome in slot [cur] and goes round the loop. *)
Inductive busy : nat -> nat -> promise (St * rc_vars R) unit -> Prop :=
| busy_pending fuel cur : busy fuel cur Pending
| busy_await fuel cur K :
    (forall s v,
        (exists s' p', K (s, v) = ((s', v), p') /\ busy fuel cur p') \/
        (exists s' r, K (s, v) = worker_loop tasks fuel (s', store cur r v))) ->
    busy fuel cur (Await K).

Definition worker_fits (v : rc_vars R) (st : wstate)
    (w : promise (St * rc_vars R) unit) : Prop :=
  match st with
  | Finished => w = Ret tt
  | OnTask fuel cur =>
      busy fuel cur w /\ (length tasks <= fuel + index v)%nat /\
      (cur < index v)%nat /\ results v !! cur = Some None
  end.

(** The invariant of the pool: the tasks called are those recorded and
    those that the workers are on, one per worker. *)
Definition in_flight_inv (sts : list wstate)
    (ws : list (promise (St * rc_vars R) unit)) (v : rc_vars R) : Prop :=
  length (results v) = length tasks /\
  (index v <= length tasks)%nat /\
  Forall2 (worker_fits v) sts ws /\
  (forall i j fi fj cur,
      sts !! i = Some (OnTask fi cur) -> sts !! j = Some (OnTask fj cur) -> i = j) /\
  (forall j, (index v <= j)%nat -> (j < length tasks)%nat ->
             results v !! j = Some None) /\
  index v = (filled (results v) + sum_list_with in_flight sts)%nat.
End InFlight.

(** ** JSON data *)

(** The values that JSON can hold: [null], booleans, integers, strings,
    and the arrays and objects made of such values. *)
Fixpoint json_data (v : value) : bool :=
  match v with
  | VNull | VBool _ | VStr _ | VNum (NInt _) => true
  | VArr items => forallb json_data items
  | VObj fields => forallb (fun '(_, x) => json_data x) fields
  | VNum _ | VUndefined | VBigInt _ | VSymbol _ | VFun _ | VError _ => false
  end.

(** Reading a number back: the digits at the front of a text. *)
Definition is_digit (c : ascii) : bool :=
  let n := N_of_ascii c in ((48 <=? n) && (n <=? 57))%N.

Fixpoint all_digits (s : string) : bool :=
  match s with
  | EmptyString => true
  | String c r => is_digit c && all_digits r
  end.

Definition digit_ahead (s : string) : bool :=
  match s with
  | String c _ => is_digit c
  | EmptyString => false
  end.

Fixpoint span_digits (s : string) : string * string :=
  match s with
  | EmptyString => ("", "")
  | String c r =>
      if is_digit c then let (d, t) := span_digits r in (String c d, t)
      else ("", s)
  end.

(** What the first character of a serialization tells of the value. *)
Definition char_kind (c : ascii) : nat :=
  let n := N_of_ascii c in
  if (n =? 110)%N then 1%nat                    (* n *)
  else if ((n =? 116) || (n =? 102))%N then 2%nat   (* t, f *)
  else if (is_digit c || (n =? 45)%N) then 3%nat
  else if (n =? 34)%N then 4%nat
  else if (n =? 91)%N then 5%nat
  else if (n =? 123)%N then 6%nat
  else 0%nat.

Definition value_kind (v : value) : nat :=
  match v with
  | VNull => 1 | VBool _ => 2 | VNum _ => 3 | VStr _ => 4
  | VArr _ => 5 | VObj _ => 6 | _ => 0
  end%nat.

(** ** The events of a run *)

(** The events that the task of a test emits. *)
Definition test_event (ev : event) : Prop :=
  match ev with
  | TestStart _ | TestPass _ _ | TestFail _ _ _ => True
  | SuiteStart _ | TestSkip _ | RunEnd _ => False
  end.

(** More precisely: the [testFail] of a task carries a truthy error. *)
Definition task_event (ev : event) : Prop :=
  match ev with
  | TestStart _ | TestPass _ _ => True
  | TestFail _ _ error => truthy error = true
  | SuiteStart _ | TestSkip _ | RunEnd _ => False
  end.

(** The events of a history, in order. *)
Definition emitted (l : list entry) : list event :=
  omap (fun e => match e with Emitted ev => Some ev | Called _ _ => None end) l.

Definition is_testPass (ev : event) : bool :=
  match ev with TestPass _ _ => true | _ => false end.
Definition is_testFail (ev : event) : bool :=
  match ev with TestFail _ _ _ => true | _ => false end.

(** [since t0 r0 w]: from a world with history [t0] and reporter [r0], the
    history has grown, by calls and events of tests only, and the reporter
    has heard those events. *)
Definition since {U : Type} (t0 : list entry) (r0 : Reporter) (w : @world U) : Prop :=
  exists l, trace w = t0 ++ l /\
            Forall test_event (emitted l) /\
            reporter w = hear r0 (emitted l).

(** From [w], the attempts of [test] fail [n] times in a row, the last
    time with [e], leaving [w']. *)
Fixpoint fails_in_a_row {U : Type} (test : @Test U) (ctx : loc) (n : nat)
    (w w' : @world U) (e : value) : Prop :=
  match n with
  | O => False
  | S n' =>
      match n' with
      | O => run (attempt test ctx) w = (w', Rejected e)
      | S _ =>
          exists w1 e1,
            run (attempt test ctx) w = (w1, Rejected e1) /\
            fails_in_a_row test ctx n' w1 w' e
      end
  end.

(** The suite with the [_only] mark removed from it and from the suites
    below it. *)
Fixpoint clear_only {U : Type} (s : @Suite U) : @Suite U :=
  match s with
  | MkSuite st ts ss hs cx so sk mg =>
      MkSuite st ts (List.map clear_only ss) hs cx false sk mg
  end.

(** ** More sample files *)

Module MoreSamples.
Import Samples.

(** Every line printed is one of the three letters. *)
Definition letters_only (out : console) : Prop :=
  Forall (fun line => line = "a" \/ line = "b" \/ line = "c") out.

(** A task that never settles, ahead of one that prints. *)
Definition stuck_first : list (action console string) :=
  [never; print_task "a"].

(** it("failing", { retry: 1 }, oops) with a body that always throws *)
Definition failing_test : @Test console :=
  new_Test "failing" (thrower "oops")
    {| opt_timeout := None; opt_retry := Some 1; opt_tags := None;
       opt_only := false; opt_skip := false |}.

(** The worlds that the failing test goes through on the bench. *)
Definition failing_w1 : @world console := (run (run_chain 0%nat 0%nat) bench).1.
Definition failing_a1 : @world console :=
  (run (attempt failing_test 0%nat) (started failing_test failing_w1)).1.
Definition failing_w2 : @world console :=
  (run (attempt failing_test 0%nat) failing_a1).1.
Definition failing_w3 : @world console := (run (run_chain 1%nat 0%nat) failing_w2).1.

(** it.only("t1", body1); it("t2", body2); *)
Definition focused : @building console :=
  steps [it_only "t1" None (logger "body1"); it "t2" None (logger "body2")] loaded.

Definition focused_test : @Test console :=
  new_Test "t1" (logger "body1")
    {| opt_timeout := None; opt_retry := None; opt_tags := None;
       opt_only := true; opt_skip := false |}.

(** beforeAll(boom); it("t1", body1); *)
Definition failing_beforeAll : @building console :=
  steps [add_beforeAll (thrower "boom"); it "t1" None (logger "body1")] loaded.

(** beforeAll(open); afterAll(close); it("t1", body1); *)
Definition framed : @building console :=
  steps [add_beforeAll (logger "open"); add_afterAll (logger "close");
         it "t1" None (logger "body1")] loaded.

(** { "a": [1, null] } *)
Definition nested_data : value :=
  VObj [("a", VArr [VNum (NInt (lit 1)); VNull])].

(** A world in which the context of the parent, at 0, holds [x] and [y],
    and the context that the suite [P] was left with, at 1, holds [x]; the
    contexts of [C1] and [C2] are at 2 and 3, the two empty hook arrays of
    a call from the top at 0 and 1. *)
Definition family_world : @world console :=
  World (UState {[ 0%nat := {[ "x" := VStr "parent"; "y" := VStr "parent" ]};
                   1%nat := {[ "x" := VStr "own" ]};
                   2%nat := ∅; 3%nat := ∅ ]} [])
        {[ 0%nat := []; 1%nat := [] ]} [] (Build_Reporter 0 0 0 []) None 0
        defaultConfig (repeat 0%nat 64) {[ 0%nat; 1%nat; 2%nat; 3%nat ]}.

(** A world whose configuration has the pattern that [--grep=(a=b)]
    leaves, [(a]. *)
Definition unbalanced_world : @world console :=
  World (UState {[ 0%nat := ∅ ]} []) {[ 0%nat := []; 1%nat := [] ]} []
        (Build_Reporter 0 0 0 []) None 0
        {| concurrency := 50; grep := Some "(a" |} (repeat 0%nat 64) {[ 0%nat ]}.

(** beforeAll(open); it("t1", body1); *)
Definition opened : @Suite console :=
  MkSuite "S" [new_Test "t1" (logger "body1") no_options] []
    {| beforeAll := [logger "open"]; afterAll := [];
       beforeEach := []; afterEach := [] |}
    0%nat false false None.

(** describe("P", () => { beforeAll(setZ); afterAll(readW); it("t", readX);
      describe("C1", () => { beforeAll(setW); it("t1", readZ); });
      describe("C2", () => { it("t2", readW); }); }) *)
Definition family : @Suite console :=
  MkSuite "P" [new_Test "t" (reader "readX" "x") no_options]
    [MkSuite "C1" [new_Test "t1" (reader "readZ" "z") no_options] []
       {| beforeAll := [setter "setW" "w" (VStr "C1")]; afterAll := [];
          beforeEach := []; afterEach := [] |}
       2%nat false false None;
     MkSuite "C2" [new_Test "t2" (reader "readW" "w") no_options] []
       no_hooks 3%nat false false None]
    {| beforeAll := [setter "setZ" "z" (VStr "P")];
       afterAll := [reader "readW" "w"];
       beforeEach := []; afterEach := [] |}
    1%nat false false None.

End MoreSamples.

(** * Proofs *)

(** ** Running one job on its own *)

Section RunLemmas.
Context {St : Type}.

Lemma promise_rect' {A} (P : promise St A -> Prop) :
  (forall a, P (Ret a)) ->
  (forall e, P (Throw e)) ->
  P Pending ->
  (forall k, (forall s, P (k s).2) -> P (Await k)) ->
  forall p, P p.
Proof.
  intros HR HT HP HA. fix IH 1. intros [a|e| |k].
  - apply HR.
  - apply HT.
  - apply HP.
  - apply HA. intros s. apply IH.
Qed.

Lemma run_bind_promise {A B} (p : promise St A) (f : A -> action St B) s :
  run (bind_promise p f) s = then_run (run_promise p s) f.
Proof.
  revert s. induction p as [a|e| |k IH] using promise_rect'; intros s; try done.
  unfold run. cbn [bind_promise run_promise].
  specialize (IH s). destruct (k s) as [s' p']. exact (IH s').
Qed.

Lemma run_bind {A B} (m : action St A) (f : A -> action St B) s :
  run (bind m f) s = then_run (run m s) f.
Proof.
  unfold bind, run at 1 2. destruct (m s) as [s' p].
  apply (run_bind_promise p f s').
Qed.

Lemma run_catch_promise {A} (p : promise St A) h s :
  run (catch_promise p h) s = catch_run (run_promise p s) h.
Proof.
  revert s. induction p as [a|e| |k IH] using promise_rect'; intros s; try done.
  unfold run. cbn [catch_promise run_promise].
  specialize (IH s). destruct (k s) as [s' p']. exact (IH s').
Qed.

Lemma run_try_catch {A} (m : action St A) h s :
  run (try_catch m h) s = catch_run (run m s) h.
Proof.
  unfold try_catch, run at 1 2. destruct (m s) as [s' p].
  apply (run_catch_promise p h s').
Qed.

Lemma run_yield_after {A} (p : promise St A) s :
  run_promise (yield_after p) s = run_promise p s.
Proof.
  revert s. induction p as [a|e| |k IH] using promise_rect'; intros s; try done.
  cbn [yield_after run_promise].
  specialize (IH s). destruct (k s) as [s' p']. exact (IH s').
Qed.

Lemma run_await {A} (m : action St A) s : run (await m) s = run m s.
Proof.
  unfold await, run. destruct (m s) as [s' p]. apply run_yield_after.
Qed.

Lemma run_ret {A} (a : A) (s : St) : run (ret a) s = (s, Fulfilled a).
Proof. done. Qed.
Lemma run_throw {A} e (s : St) : run (throw (A := A) e) s = (s, Rejected e).
Proof. done. Qed.
Lemma run_modify f (s : St) : run (modify f) s = (f s, Fulfilled tt).
Proof. done. Qed.
Lemma run_gets {A} (f : St -> A) s : run (gets f) s = (s, Fulfilled (f s)).
Proof. done. Qed.
End RunLemmas.

Section ZoomLemmas.
Context {Big St : Type} (get : Big -> St) (set : St -> Big -> Big).
Hypothesis get_set : forall s b, get (set s b) = s.
Hypothesis set_set : forall s s' b, set s' (set s b) = set s' b.

Lemma run_zoom_promise {A} (p : promise St A) s b :
  run_promise (zoom_promise get set p) (set s b) =
  (let (s', o) := run_promise p s in (set s' b, o)).
Proof.
  revert s. induction p as [a|e| |k IH] using promise_rect'; intros s; try done.
  cbn [zoom_promise run_promise]. rewrite get_set.
  specialize (IH s). destruct (k s) as [s' p']. cbn [snd] in IH.
  rewrite set_set. apply IH.
Qed.

Lemma run_zoom {A} (m : action St A) b :
  run (zoom get set m) b = (let (s', o) := run m (get b) in (set s' b, o)).
Proof.
  unfold zoom, run. destruct (m (get b)) as [s' p].
  apply run_zoom_promise.
Qed.
End ZoomLemmas.

(** ** One job in the pool *)

Section Alone.
Context {St : Type}.

(** A pool of one job is that job run on its own. *)
Lemma run_pool_alone {A} (p : promise St A) :
  forall s, exists n, forall sched,
    (n <= length sched)%nat ->
    run_pool sched [p] s =
    (drop n sched, (run_promise p s).1, pool_of (run_promise p s).2).
Proof.
  induction p as [a|e| |k IH] using promise_rect'; intros s.
  1-3: exists 0%nat; intros sched _; rewrite drop_0; by destruct sched.
  specialize (IH s). cbn [run_promise].
  destruct (k s) as [s' p'] eqn:Hk. cbn [snd] in IH.
  destruct (IH s') as [n Hn]. exists (S n). intros [|choice sched] Hlen;
    [simpl in Hlen; lia|].
  cbn [run_pool omap list_omap rejection].
  change (runnable [Await k]) with [0%nat].
  cbn zeta. cbn [length]. rewrite Nat.mod_1_r. cbn [lookup list_lookup default].
  unfold resume, id. cbn [lookup list_lookup]. rewrite Hk. cbn [insert list_insert].
  rewrite Hn by (simpl in Hlen; lia). done.
Qed.
End Alone.

Section AloneInBatch.
Context {St R : Type}.

Lemma run_worker_alone (task : action St R) (s : St) :
  run (worker [task]) (s, RcVars [None] 0) =
  (let (s', o) := run task s in
   match o with
   | Fulfilled a => ((s', RcVars [Some (Value a)] 1), Fulfilled tt)
   | Rejected e => ((s', RcVars [Some (ErrorObj e)] 1), Fulfilled tt)
   | Unsettled => ((s', RcVars [None] 1), Unsettled)
   end).
Proof.
  unfold worker. cbn [length].
  change (run (worker_loop [task] 1) (s, RcVars [None] 0))
    with (run (try_catch
                 (do r <- await (call_task [task] 0);
                  set_result 0 (Value r))
                 (fun e => set_result 0 (ErrorObj e));;
               worker_loop [task] 0) (s, RcVars [None] 1)).
  rewrite run_bind, run_try_catch, run_bind, run_await.
  unfold call_task. cbn [lookup list_lookup].
  rewrite (run_zoom fst (fun s '(_, v) => (s, v)))
    by (by intros; repeat match goal with b : _ * _ |- _ => destruct b end).
  cbn [fst]. destruct (run task s) as [s' [a|e|]]; reflexivity.
Qed.

(** A batch of one task, with a limit of at least 1: the task runs as the
    only job, and what it ends with is put in the one slot. *)
Lemma runConcurrent_alone (task : action St R) (limit : Z) (s : St) :
  1 <= limit ->
  exists n, forall sched,
    (n <= length sched)%nat ->
    runConcurrent [task] limit sched s =
    (drop n sched, (run task s).1, slot_of (run task s).2).
Proof.
  intros Hlimit.
  pose proof (run_worker_alone task s) as Hrun.
  unfold run at 1 in Hrun.
  destruct (worker [task] (s, RcVars [None] 0)) as [sv1 w] eqn:Hw.
  destruct (run_pool_alone w sv1) as [n Hn]. exists n. intros sched Hlen.
  unfold runConcurrent, runConcurrent_vars.
  replace (worker_count [task] limit) with 1%nat by (unfold worker_count; simpl; lia).
  cbn [length replicate spawn]. rewrite Hw. rewrite (Hn sched Hlen), Hrun.
  destruct (run task s) as [s' [a|e|]]; reflexivity.
Qed.
End AloneInBatch.

Section RunConcurrentProofs.
Context {St R : Type}.
Variable tasks : list (action St R).
Variable post : nat -> slot R -> Prop.
Variable B : nat.
Hypothesis Htasks :
  forall i task, tasks !! i = Some task ->
                 forall s, settles B (post i) (task s).2.

Local Abbreviation vars := (rc_vars R).
Local Abbreviation lift_task :=
  (zoom_promise (Big := St * vars) fst (fun s '(_, v) => (s, v))).
Local Abbreviation wrapped := (wrapped tasks).
Local Abbreviation loop_ok := (loop_ok tasks post B).
Local Abbreviation all_recorded := (all_recorded tasks post).
Local Abbreviation spawned := (spawned tasks B).

Lemma wrapped_await fuel cur K st :
  exists K',
    wrapped fuel cur (Await K) st = (st, Await K') /\
    forall st', K' st' = (let (st'', q') := K st' in wrapped fuel cur q' st'').
Proof.
  eexists. split; [reflexivity|].
  intros st'. cbv beta. destruct (K st') as [st'' q']. reflexivity.
Qed.

Lemma wrapped_ret fuel cur a s v :
  wrapped fuel cur (Ret a) (s, v) =
  worker_loop tasks fuel (s, store cur (Value a) v).
Proof. reflexivity. Qed.

Lemma wrapped_throw fuel cur e s v :
  wrapped fuel cur (Throw e) (s, v) =
  worker_loop tasks fuel (s, store cur (ErrorObj e) v).
Proof. reflexivity. Qed.

Lemma worker_loop_claim fuel s v (task : action St R) :
  (index v < length tasks)%nat ->
  tasks !! index v = Some task ->
  worker_loop tasks (S fuel) (s, v) =
  (let (s1, p) := task s in
   wrapped fuel (index v) (yield_after (lift_task p)) (s1, claim v)).
Proof.
  intros Hlt Htask. cbn [worker_loop].
  apply Nat.ltb_lt in Hlt. rewrite Hlt.
  unfold call_task. rewrite Htask.
  unfold wrapped, bind, try_catch, await, zoom. cbn [fst].
  destruct (task s) as [s1 p]. reflexivity.
Qed.

Lemma worker_loop_exit fuel s v :
  (length tasks <= index v)%nat ->
  worker_loop tasks fuel (s, v) = ((s, v), Ret tt).
Proof.
  intros Hge. destruct fuel; [reflexivity|]. cbn [worker_loop].
  apply Nat.ltb_ge in Hge. by rewrite Hge.
Qed.

Lemma wk_store_intro fuel cur r K :
  loop_ok fuel ->
  post cur r ->
  (forall s v, K (s, v) = worker_loop tasks fuel (s, store cur r v)) ->
  forall b, Wk tasks post B fuel (S b) cur (Await K).
Proof.
  intros Hloop Hr HK b. apply Wk_store with (r := r); [done|].
  intros s v Hfuel. rewrite HK. split.
  - intros Hlt.
    destruct (Hloop s (store cur r v) Hfuel Hlt) as (s' & p' & Heq & Hwk).
    exists s', p'. by split.
  - intros Hge. by apply worker_loop_exit.
Qed.

Lemma wrapped_ok fuel cur :
  loop_ok fuel ->
  forall b p, settles b (post cur) p ->
  forall st, exists q,
    wrapped fuel cur (yield_after (lift_task p)) st = (st, q) /\
    Wk tasks post B fuel (S b) cur q.
Proof.
  intros Hloop b. induction b as [|b IH]; intros p Hp st;
    destruct p as [a|e| |k]; cbn [settles] in Hp; try done;
    cbn [yield_after zoom_promise];
    match goal with
    | |- context [wrapped _ _ (Await ?K) _] =>
        destruct (wrapped_await fuel cur K st) as (K' & -> & HK')
    end;
    (eexists; split; [reflexivity|]).
  1,3: apply wk_store_intro with (r := Value a); [done..|];
       intros s v; by rewrite HK', wrapped_ret.
  1,2: apply wk_store_intro with (r := ErrorObj e); [done..|];
       intros s v; by rewrite HK', wrapped_throw.
  apply Wk_run. intros s v. rewrite HK'. cbn [fst].
  specialize (Hp s). destruct (k s) as [s1 p1]. cbn [snd] in Hp.
  destruct (IH p1 Hp (s1, v)) as (q & Heq & Hwk).
  exists s1, q. by split.
Qed.

Lemma worker_loop_ok fuel : loop_ok fuel.
Proof.
  induction fuel as [|fuel IH]; intros s v Hfuel Hlt; [simpl in *; lia|].
  destruct (lookup_lt_is_Some_2 tasks (index v) Hlt) as [task Htask].
  rewrite (worker_loop_claim _ _ _ _ Hlt Htask).
  pose proof (Htasks _ _ Htask s) as Hp.
  destruct (task s) as [s1 p]. cbn [snd] in Hp.
  destruct (wrapped_ok fuel (index v) IH B p Hp (s1, claim v)) as (q & Heq & Hwk).
  exists s1, q. split; [done|]. by rewrite Nat.sub_1_r.
Qed.

(** *** The pool *)

Lemma sum_list_with_insert {X} (f : X -> nat) (l : list X) i x y :
  l !! i = Some x ->
  (sum_list_with f (<[i := y]> l) + f x = sum_list_with f l + f y)%nat.
Proof.
  revert i. induction l as [|z l IH]; intros [|i] Hi; simplify_eq/=; [lia|].
  specialize (IH i Hi). lia.
Qed.

Lemma runnable_spec (ws : list (promise (St * vars) unit)) i :
  i ∈ runnable ws <-> exists k, ws !! i = Some (Await k).
Proof.
  unfold runnable. rewrite list_elem_of_In, filter_In, in_seq. split.
  - intros [_ Hs]. destruct (ws !! i) as [[| | |k]|]; try done. by exists k.
  - intros [k Hk]. rewrite Hk. split; [|done].
    apply lookup_lt_Some in Hk. lia.
Qed.

Lemma wk_suspended fuel b cur w :
  Wk tasks post B fuel b cur w -> exists k, w = Await k.
Proof. destruct 1; eauto. Qed.

Lemma pool_no_rejection sts ws v :
  Forall2 (worker_ok tasks post B v) sts ws -> omap rejection ws = [].
Proof.
  induction 1 as [|st w sts ws Hw _ IH]; [done|].
  cbn [omap list_omap]. 
  destruct st as [|fuel b cur]; simpl in Hw.
  - destruct Hw as [-> _]. done.
  - destruct Hw as (Hwk & _). apply wk_suspended in Hwk as [k ->]. done.
Qed.

Lemma pool_all_done sts ws v :
  Forall2 (worker_ok tasks post B v) sts ws ->
  runnable ws = [] ->
  Forall (fun st => st = WDone) sts /\
  length (omap fulfilment ws) = length ws.
Proof.
  intros HF Hr.
  assert (Hall : forall i st, sts !! i = Some st -> st = WDone).
  { intros i st Hst.
    destruct (Forall2_lookup_l _ _ _ _ _ HF Hst) as (w & Hw & Hok).
    destruct st as [|fuel b cur]; [done|].
    destruct Hok as (Hwk & _). apply wk_suspended in Hwk as [k ->].
    assert (i ∈ runnable ws) as Hin by (apply runnable_spec; eauto).
    rewrite Hr in Hin. by apply elem_of_nil in Hin. }
  split.
  - apply Forall_lookup. eauto.
  - clear Hr. induction HF as [|st w sts ws Hw _ IH]; [done|].
    pose proof (Hall 0%nat st eq_refl) as ->. destruct Hw as [-> _].
    cbn. f_equal. apply IH. intros i st. apply (Hall (S i)).
Qed.

Lemma worker_ok_mono v v' st w :
  (index v <= index v')%nat ->
  worker_ok tasks post B v st w -> worker_ok tasks post B v' st w.
Proof.
  intros Hle. destruct st as [|fuel b cur]; simpl.
  - intros [-> ?]. split; [done|lia].
  - intros (? & ? & ?). split_and!; [done|lia..].
Qed.

Lemma completed_store v cur r i :
  (cur < length (results v))%nat ->
  post cur r ->
  i = cur \/ completed post v i ->
  completed post (store cur r v) i.
Proof.
  intros Hlen Hr Hi. unfold completed, store. cbn [results].
  destruct (decide (i = cur)) as [->|Hne].
  - exists r. by rewrite list_lookup_insert_eq.
  - destruct Hi as [?|(r' & Hr' & ?)]; [done|].
    exists r'. by rewrite list_lookup_insert_ne.
Qed.

Lemma pool_step sts ws s v i k :
  pool_inv tasks post B sts ws v ->
  ws !! i = Some (Await k) ->
  exists sts' s' v' p',
    k (s, v) = ((s', v'), p') /\
    pool_inv tasks post B sts' (<[i := p']> ws) v' /\
    (pool_measure tasks B sts' v' < pool_measure tasks B sts v)%nat /\
    length sts' = length sts.
Proof.
  intros (Hlen & Hidx & HF & Hown & Hdone) Hw.
  destruct (Forall2_lookup_r _ _ _ _ _ HF Hw) as (st & Hst & Hok).
  destruct st as [|fuel b cur]; [by destruct Hok|].
  destruct Hok as (Hwk & Hfuel & Hcur).
  inversion Hwk as [fuel' b' cur' k' Hk | fuel' b' cur' k' r Hr Hk]; subst.
  - (* the task goes on *)
    destruct (Hk s v) as (s' & p' & Heq & Hwk').
    exists (<[i := WBusy fuel b' cur]> sts), s', v, p'.
    split; [done|]. split; [|split].
    + split_and!; try done.
      * apply Forall2_insert; [done|]. by split_and!.
      * intros i1 i2 f1 b1 f2 b2 c H1 H2.
        apply list_lookup_insert_Some in H1, H2.
        destruct H1 as [(-> & Heq1 & _)|[Hn1 H1]],
                 H2 as [(-> & Heq2 & _)|[Hn2 H2]];
          simplify_eq; eauto.
      * intros c Hc. destruct (Hdone c Hc) as [(j & f & b0 & Hj)|?]; [|by right].
        left. destruct (decide (j = i)) as [->|Hne].
        -- simplify_eq. exists i, fuel, b'.
           rewrite list_lookup_insert_eq; [done|]. by eapply lookup_lt_Some.
        -- exists j, f, b0. by rewrite list_lookup_insert_ne.
    + unfold pool_measure.
      pose proof (sum_list_with_insert budget sts i _ (WBusy fuel b' cur) Hst).
      simpl in *. lia.
    + by rewrite length_insert.
  - (* the outcome is stored *)
    destruct (Hk s v Hfuel) as [Hclaim Hexit].
    assert (Hlt : (cur < length (results v))%nat) by lia.
    destruct (decide (index v < length tasks)%nat) as [Hi|Hi].
    + destruct (Hclaim Hi) as (s' & p' & Heq & Hwk').
      exists (<[i := WBusy (fuel - 1) (S B) (index v)]> sts), s', (claim (store cur r v)), p'.
      split; [done|]. split; [|split].
      * split_and!; cbn [claim store results index].
        -- by rewrite length_insert.
        -- lia.
        -- apply Forall2_insert.
           ++ eapply Forall2_impl; [exact HF|]. intros st w.
              apply worker_ok_mono. simpl. lia.
           ++ simpl. split_and!; [done|lia..].
        -- intros i1 i2 f1 b1 f2 b2 c H1 H2.
           apply list_lookup_insert_Some in H1, H2.
           destruct H1 as [(-> & Heq1 & _)|[Hn1 H1]],
                    H2 as [(-> & Heq2 & _)|[Hn2 H2]];
             simplify_eq; eauto.
           ++ destruct (Forall2_lookup_l _ _ _ _ _ HF H2) as (? & _ & _ & _ & ?). lia.
           ++ destruct (Forall2_lookup_l _ _ _ _ _ HF H1) as (? & _ & _ & _ & ?). lia.
        -- intros c Hc.
           destruct (decide (c = index v)) as [->|Hne].
           { left. exists i, (fuel - 1)%nat, (S B).
             rewrite list_lookup_insert_eq; [done|]. by eapply lookup_lt_Some. }
           destruct (Hdone c ltac:(lia)) as [(j & f & b0 & Hj)|Hc'].
           ++ destruct (decide (j = i)) as [->|Hnj].
              ** simplify_eq. right.
                 apply completed_store; auto.
              ** left. exists j, f, b0. by rewrite list_lookup_insert_ne.
           ++ right. apply (completed_store v cur r c); auto.
      * unfold pool_measure. cbn [claim store index].
        pose proof (sum_list_with_insert budget sts i _
                      (WBusy (fuel - 1) (S B) (index v)) Hst) as Hsum.
        simpl in Hsum.
        assert ((length tasks - index v) = S (length tasks - S (index v)))%nat as -> by lia.
        lia.
      * by rewrite length_insert.
    + rewrite (Hexit ltac:(lia)).
      exists (<[i := WDone]> sts), s, (store cur r v), (Ret tt).
      split; [done|]. split; [|split].
      * split_and!; cbn [store results index]; try done.
        -- by rewrite length_insert.
        -- apply Forall2_insert; [|simpl; split; [done|lia]].
           eapply Forall2_impl; [exact HF|]. intros st w.
           apply worker_ok_mono. simpl. lia.
        -- intros i1 i2 f1 b1 f2 b2 c H1 H2.
           apply list_lookup_insert_Some in H1, H2.
           destruct H1 as [(-> & Heq1 & _)|[Hn1 H1]],
                    H2 as [(-> & Heq2 & _)|[Hn2 H2]];
             simplify_eq; eauto.
        -- intros c Hc.
           destruct (Hdone c Hc) as [(j & f & b0 & Hj)|Hc'].
           ++ destruct (decide (j = i)) as [->|Hnj].
              ** simplify_eq. right.
                 apply completed_store; auto.
              ** left. exists j, f, b0. by rewrite list_lookup_insert_ne.
           ++ right. apply (completed_store v cur r c); auto.
      * unfold pool_measure. cbn [store index].
        pose proof (sum_list_with_insert budget sts i _ WDone Hst) as Hsum.
        simpl in Hsum. lia.
      * by rewrite length_insert.
Qed.

Lemma run_pool_ok sched :
  forall sts ws s v,
    pool_inv tasks post B sts ws v ->
    (sts = [] -> length tasks = 0%nat) ->
    (pool_measure tasks B sts v <= length sched)%nat ->
    exists sched' s' v' vals,
      run_pool sched ws (s, v) = (sched', (s', v'), AllFulfilled vals) /\
      all_recorded v'.
Proof.
  induction sched as [|choice sched IH]; intros sts ws s v Hinv Hne Hm;
    pose proof Hinv as (Hlen & Hidx & HF & Hown & Hdone);
    cbn [run_pool]; rewrite (pool_no_rejection _ _ _ HF);
    destruct (runnable ws) as [|i0 live] eqn:Hr.
  1,3: destruct (pool_all_done _ _ _ HF Hr) as [Hall Hful];
       rewrite decide_True by done;
       eexists _, s, v, _; (split; [reflexivity|]);
       assert (index v = length tasks) as Hn.
  1,3: destruct sts as [|st sts]; [rewrite Hne in * by done; lia|];
       apply Forall_cons in Hall as [-> _];
       apply Forall2_cons_inv_l in HF as (w & ws' & [_ ?] & _ & _); lia.
  1,2: split_and!; [done|done|];
       intros i Hi; destruct (Hdone i ltac:(lia)) as [(j & f & b & Hj)|?]; [|done];
       by rewrite Forall_lookup in Hall; specialize (Hall _ _ Hj).
  - (* a job is runnable, so the measure is positive *)
    assert (i0 ∈ runnable ws) as Hin by (rewrite Hr; left).
    apply runnable_spec in Hin as [k Hk].
    destruct (pool_step sts ws s v i0 k Hinv Hk) as (? & ? & ? & ? & _ & _ & Hlt & _).
    simpl in Hm. lia.
  - set (i := default i0 ((i0 :: live) !! (choice mod length (i0 :: live))%nat)).
    assert (i ∈ runnable ws) as Hin.
    { rewrite Hr. subst i.
      destruct ((i0 :: live) !! (choice mod length (i0 :: live))%nat) eqn:Hl; simpl.
      - by eapply list_elem_of_lookup_2.
      - left. }
    apply runnable_spec in Hin as [k Hk].
    destruct (pool_step sts ws s v i k Hinv Hk)
      as (sts' & s' & v' & p' & Heq & Hinv' & Hlt & Hlen').
    cbv zeta. fold i. unfold resume. rewrite Hk, Heq.
    apply (IH sts'); [done| |simpl in Hm; lia].
    intros ->. destruct sts; [|done].
    apply Forall2_nil_inv_l in HF as ->. done.
Qed.

Lemma spawn_ok count :
  forall s v,
    (index v + count <= length tasks)%nat ->
    exists s' ws,
      let v' := RcVars (results v) (index v + count) in
      spawn tasks count (s, v) = ((s', v'), ws) /\
      Forall2 (worker_ok tasks post B v') (spawned (index v) count) ws.
Proof.
  induction count as [|count IH]; intros s v Hle.
  - exists s, []. cbn. rewrite Nat.add_0_r.
    destruct v. split; [done|constructor].
  - cbn [spawn]. unfold worker.
    destruct (worker_loop_ok (length tasks) s v ltac:(lia) ltac:(lia))
      as (s1 & p1 & -> & Hwk).
    destruct (IH s1 (claim v)) as (s2 & ws & Heq & HF); [simpl; lia|].
    cbn [claim results index] in Heq, HF. rewrite Heq.
    exists s2, (p1 :: ws). cbn zeta.
    replace (S (index v) + count)%nat with (index v + S count)%nat in * by lia.
    split; [done|]. unfold spawned. cbn [seq fmap list_fmap].
    constructor; [|done]. simpl. split_and!; [done|lia..].
Qed.

Lemma spawned_lookup from count i fuel b cur :
  spawned from count !! i = Some (WBusy fuel b cur) ->
  cur = (from + i)%nat /\ (i < count)%nat.
Proof.
  unfold spawned. rewrite list_lookup_fmap.
  destruct (seq from count !! i) as [x|] eqn:Hx; [|done].
  apply lookup_seq in Hx as [-> ?]. intros [= <- <- <-]. done.
Qed.

Lemma spawned_budget from count :
  sum_list_with budget (spawned from count) = (count * S B)%nat.
Proof.
  revert from. induction count as [|count IH]; intros from; [done|].
  unfold spawned in *. cbn [seq fmap list_fmap sum_list_with budget].
  rewrite IH. lia.
Qed.

Lemma runConcurrent_vars_ok (concurrency : Z) sched s :
  1 <= concurrency ->
  (length tasks * S B <= length sched)%nat ->
  exists sched' s' v vals,
    runConcurrent_vars tasks concurrency sched s =
      (sched', (s', v), AllFulfilled vals) /\
    all_recorded v.
Proof.
  intros Hc Hsched. unfold runConcurrent_vars.
  set (count := worker_count tasks concurrency).
  assert (count <= length tasks)%nat as Hcount by (unfold count, worker_count; lia).
  assert (length tasks = 0%nat \/ 1 <= count)%nat as Hpos
      by (unfold count, worker_count; lia).
  destruct (spawn_ok count s (RcVars (replicate (length tasks) None) 0))
    as (s1 & ws & Heq & HF); [simpl; lia|].
  cbn [results index] in Heq, HF. cbn zeta in Heq. rewrite Heq.
  apply (run_pool_ok sched (spawned 0 count)).
  - split_and!; cbn [results index]; try done.
    + by rewrite length_replicate.
    + intros i j fi bi fj bj cur Hi Hj.
      apply spawned_lookup in Hi as [-> _], Hj as [Hj _]. lia.
    + intros cur Hcur. left. exists cur, (length tasks - 1)%nat, (S B).
      unfold spawned. rewrite list_lookup_fmap.
      by rewrite (lookup_seq_lt _ _ _ Hcur).
  - unfold spawned. destruct count; [lia|done].
  - unfold pool_measure. rewrite spawned_budget. cbn [index].
    rewrite <- Nat.mul_add_distr_r.
    by replace (count + (length tasks - (0 + count)))%nat with (length tasks) by lia.
Qed.

End RunConcurrentProofs.

Section EngineLemmas.
Context {U : Type}.
Variable RegExp : string -> regexp.
Local Abbreviation world := (@world U).
Local Abbreviation callable := (@callable U).
Local Abbreviation Test := (@Test U).

Lemma advanced_refl (w : world) : advanced w w [].
Proof. unfold advanced. by rewrite app_nil_r. Qed.

Lemma advanced_trans (w1 w2 w3 : world) l1 l2 :
  advanced w1 w2 l1 -> advanced w2 w3 l2 -> advanced w1 w3 (l1 ++ l2).
Proof.
  intros (?&?&?&?&?&?) (?&?&?&?&?&?). unfold advanced.
  rewrite app_assoc. split_and!; congruence.
Qed.

Lemma run_call (fn : callable) this (w : world) :
  run (call fn this) w =
  (let (u', o) := run (fn_body fn this) (ust w) in
   (set_ust u' (record (Called (fn_name fn) this) w), o)).
Proof.
  change (run (call fn this) w)
    with (run (zoom ust set_ust (fn_body fn this))
              (record (Called (fn_name fn) this) w)).
  rewrite (run_zoom ust set_ust) by (by intros; destruct b).
  cbn [ust record].
  destruct (run (fn_body fn this) (ust w)) as [u' o].
  by destruct w.
Qed.

Lemma call_advanced (fn : callable) this (w w' : world) o :
  run (call fn this) w = (w', o) ->
  advanced w w' [Called (fn_name fn) this] /\ now w' = now w.
Proof.
  rewrite run_call. destruct (run (fn_body fn this) (ust w)) as [u' o'].
  intros [= <- <-]. by destruct w.
Qed.

Lemma chain_advanced (fns : list callable) ctx :
  forall (w w' : world) o,
    run (chain_action fns ctx) w = (w', o) ->
    exists n,
      advanced w w' (calls ctx (take n fns)) /\ now w' = now w /\
      (n <= length fns)%nat /\
      (o = Fulfilled tt -> n = length fns) /\
      (o <> Fulfilled tt -> (1 <= n)%nat).
Proof.
  induction fns as [|fn fns IH]; intros w w' o.
  - intros [= <- <-]. exists 0%nat. split; [apply advanced_refl|]. by split_and!.
  - unfold chain_action. cbn [for_each]. rewrite run_bind, run_await.
    destruct (run (call fn ctx) w) as [w1 o1] eqn:Hcall.
    apply call_advanced in Hcall as [Hadv Hnow].
    destruct o1 as [[]|e|]; cbn [then_run].
    + intros Hrest. apply IH in Hrest as (n & Hadv' & Hnow' & Hn & Hf & Hnf).
      exists (S n). cbn [length].
      split_and!; [|congruence|lia|intros; f_equal; auto|lia].
      apply (advanced_trans _ _ _ _ _ Hadv Hadv').
    + intros [= <- <-]. exists 1%nat. cbn [length].
      split_and!; [by rewrite firstn_cons, take_0|done|lia|done|done].
    + intros [= <- <-]. exists 1%nat. cbn [length].
      split_and!; [by rewrite firstn_cons, take_0|done|lia|done|done].
Qed.

Lemma run_chain_advanced chain ctx (w w' : world) o :
  run (run_chain chain ctx) w = (w', o) ->
  exists n,
    advanced w w' (calls ctx (take n (array_at chain w))) /\ now w' = now w /\
    (n <= length (array_at chain w))%nat /\
    (o = Fulfilled tt -> n = length (array_at chain w)) /\
    (o <> Fulfilled tt -> (1 <= n)%nat).
Proof. apply chain_advanced. Qed.

(** *** One attempt *)

Lemma run_race_promise (q : promise ustate unit) deadline u (w : world) :
  run_promise (race_promise deadline (zoom_promise ust set_ust q)) (set_ust u w) =
  (let (u', o) := run_promise q u in
   match o with
   | Unsettled =>
       (set_now (Z.max (now w) deadline) (set_ust u' w), Rejected timeout_error)
   | _ => (set_ust u' w, o)
   end).
Proof.
  revert u. induction q as [a|e| |k IH] using promise_rect'; intros u; try done.
  cbn [zoom_promise race_promise run_promise].
  replace (ust (set_ust u w)) with u by (by destruct w).
  specialize (IH u). destruct (k u) as [u' q']. cbn [snd] in IH.
  replace (set_ust u' (set_ust u w)) with (set_ust u' w) by (by destruct w).
  apply IH.
Qed.

Lemma run_race_call (fn : callable) this ms (w : world) :
  run (race_timeout (call fn this) ms) w =
  (let w1 := record (Called (fn_name fn) this) w in
   let (u', o) := run (fn_body fn this) (ust w) in
   match o with
   | Unsettled =>
       (set_now (Z.max (now w) (now w + timer_delay ms)) (set_ust u' w1),
        Rejected timeout_error)
   | _ => (set_ust u' w1, o)
   end).
Proof.
  unfold race_timeout, call, zoom, run. cbn [ust record].
  destruct (fn_body fn this (ust w)) as [u' q].
  rewrite run_race_promise. cbn [now set_ust record].
  by destruct (run_promise q u') as [u'' [a|e|]].
Qed.

(** An attempt calls the body once, whatever comes of it. *)
Lemma attempt_advanced (test : Test) ctx (w w' : world) o :
  run (attempt test ctx) w = (w', o) ->
  advanced w w' [body_call test ctx] /\ now w <= now w'.
Proof.
  unfold attempt.
  assert (Hplain : run (await (call (testFn test) ctx)) w = (w', o) ->
                   advanced w w' [body_call test ctx] /\ now w <= now w').
  { rewrite run_await. intros H. apply call_advanced in H as [? ->]. split; [done|lia]. }
  destruct (timeout (options test)) as [ms|]; [|done].
  destruct (ms =? 0); [done|].
  rewrite run_await, run_race_call. cbn zeta.
  destruct (run (fn_body (testFn test) ctx) (ust w)) as [u' [a|e|]];
    intros [= <- <-]; (split; [by destruct w|cbn; lia]).
Qed.

Lemma retryLimit_eq (test : Test) : retryLimit test = retry (options test).
Proof. unfold retryLimit. destruct (Z.eqb_spec (retry (options test)) 0); congruence. Qed.

Lemma run_round (test : Test) ctx (w : world) :
  run (round test ctx) w =
  (let (w', o) := run (attempt test ctx) w in
   match o with
   | Fulfilled _ => (w', Fulfilled None)
   | Rejected e => (w', Fulfilled (Some e))
   | Unsettled => (w', Unsettled)
   end).
Proof.
  unfold round. rewrite run_try_catch, run_bind.
  by destruct (run (attempt test ctx) w) as [w' [[]|e|]].
Qed.

Lemma attempt_loop_unfold (test : Test) ctx rounds error attempts (w : world) :
  run (attempt_loop test ctx (S rounds) error attempts) w =
  (let (w', o) := run (attempt test ctx) w in
   match o with
   | Fulfilled _ => (w', Fulfilled VNull)
   | Rejected e =>
       if attempts + 1 <=? retryLimit test
       then run (attempt_loop test ctx rounds e (attempts + 1)) w'
       else (w', Fulfilled e)
   | Unsettled => (w', Unsettled)
   end).
Proof.
  cbn [attempt_loop]. fold (round test ctx). rewrite run_bind, run_round.
  destruct (run (attempt test ctx) w) as [w' [[]|e|]]; cbn [then_run]; try done.
  by destruct (attempts + 1 <=? retryLimit test).
Qed.

(** The loop calls the body and nothing else. *)
Lemma attempt_loop_advanced (test : Test) ctx rounds :
  forall error attempts (w w' : world) o,
    run (attempt_loop test ctx rounds error attempts) w = (w', o) ->
    exists n, (n <= rounds)%nat /\ (1 <= rounds -> 1 <= n)%nat /\
              advanced w w' (repeat (body_call test ctx) n) /\ now w <= now w'.
Proof.
  induction rounds as [|rounds IH]; intros error attempts w w' o.
  - intros [= <- <-]. exists 0%nat. split; [lia|]. split; [lia|].
    split; [apply advanced_refl|lia].
  - rewrite attempt_loop_unfold.
    destruct (run (attempt test ctx) w) as [w1 o1] eqn:Hatt.
    apply attempt_advanced in Hatt as [Hadv Hnow].
    assert (Hone : forall o', (w1, o') = (w', o) ->
              exists n, (n <= S rounds)%nat /\ (1 <= S rounds -> 1 <= n)%nat /\
                advanced w w' (repeat (body_call test ctx) n) /\ now w <= now w').
    { intros o' [= <- <-]. exists 1%nat. split; [lia|]. by split. }
    destruct o1 as [[]|e|]; [by apply Hone| |by apply Hone].
    destruct (attempts + 1 <=? retryLimit test); [|by apply Hone].
    intros Hrest. apply IH in Hrest as (n & Hn & _ & Hadv' & Hnow').
    exists (S n). split; [lia|]. split; [lia|]. split; [|lia].
    apply (advanced_trans _ _ _ _ _ Hadv Hadv').
Qed.

(** *** The task as a whole *)

Lemma run_emit (ev : event) (w : world) :
  run (emit ev) w =
  (notify ev (record (Emitted ev) w),
   match (listeners ev (reporter w)).2 with
   | Normal _ => Fulfilled tt
   | Abrupt e => Rejected e
   end).
Proof.
  unfold run, emit. destruct ((listeners ev (reporter w)).2) as [[]|e]; reflexivity.
Qed.

(** The listeners take the event that closes a task: a [testFail] of the
    engine carries a truthy error. *)
Lemma listeners_verdict (test : Test) duration error r :
  (listeners (verdict test duration error) r).2 = Normal tt.
Proof.
  unfold verdict. destruct (truthy error) eqn:Ht; [|done].
  by destruct error.
Qed.

Lemma testTask_unfold ctx before after (test : Test) (w : world) :
  run (testTask ctx before after test) w =
  match run (run_chain before ctx) w with
  | (w1, Fulfilled _) =>
      finish test (now w1) after ctx
        (run (attempt_loop test ctx (max_rounds test) VNull 0) (started test w1))
  | (w1, Rejected e) => (w1, Rejected e)
  | (w1, Unsettled) => (w1, Unsettled)
  end.
Proof.
  unfold testTask. rewrite run_bind.
  destruct (run (run_chain before ctx) w) as [w1 [[]|e|]]; cbn [then_run]; try done.
  unfold Date_now.
  rewrite run_bind, run_emit. cbn [listeners snd then_run].
  rewrite run_bind, run_modify. cbn [then_run].
  rewrite run_bind, run_gets. cbn [then_run].
  rewrite run_bind. fold (started test w1).
  replace (now (started test w1)) with (now w1) by (by destruct w1).
  destruct (run (attempt_loop test ctx (max_rounds test) VNull 0) (started test w1))
    as [w2 [error|e|]]; cbn [then_run finish]; try done.
  rewrite run_bind, run_gets. cbn [then_run]. rewrite run_bind.
  destruct (run (run_chain after ctx) w2) as [w3 [[]|e|]]; cbn [then_run]; try done.
  pose proof (listeners_verdict test (now w2 - now w1) error (reporter w3)) as Hl.
  unfold verdict in *. destruct (truthy error); by rewrite run_emit, Hl.
Qed.

Lemma started_advanced (test : Test) (w : world) :
  trace (started test w) = trace w ++ [Emitted (TestStart (title test))] /\
  arrays (started test w) = arrays w /\
  reporter (started test w) = reporter w /\
  now (started test w) = now w /\
  ust (started test w) = ust w.
Proof. by destruct w. Qed.

Lemma array_at_advanced l (w w' : world) es :
  advanced w w' es -> array_at l w' = array_at l w.
Proof. intros (Ha & _). unfold array_at. by rewrite Ha. Qed.

Lemma chain_fulfilled chain ctx (w w' : world) :
  run (run_chain chain ctx) w = (w', Fulfilled tt) ->
  advanced w w' (calls ctx (array_at chain w)) /\ now w' = now w.
Proof.
  intros H. apply run_chain_advanced in H as (n & Hadv & Hnow & _ & Hn & _).
  rewrite (Hn eq_refl), firstn_all in Hadv. done.
Qed.

(** C1, as the code has it: a throwing [before] hook makes the task reject
    with the hook's error on the spot.  The world is left as the failing
    chain left it: the history has grown by the calls of the hooks up to the
    one that threw and by nothing else (no call of the body, no call of an
    [after] hook, no event), and the reporter has heard nothing.  In a batch
    of its own the error ends in the task's slot, as [{ error: e }]. *)
Theorem before_hook_failure_rejects_task ctx before after (test : Test)
    (w w1 : world) e (limit : Z) :
  run (run_chain before ctx) w = (w1, Rejected e) ->
  1 <= limit ->
  run (testTask ctx before after test) w = (w1, Rejected e) /\
  (exists n, (1 <= n <= length (array_at before w))%nat /\
             trace w1 = trace w ++ calls ctx (take n (array_at before w)) /\
             reporter w1 = reporter w) /\
  (exists n, forall sched,
      (n <= length sched)%nat ->
      runConcurrent [testTask ctx before after test] limit sched w =
      (drop n sched, w1, Resolved [Some (ErrorObj e)])).
Proof.
  intros Hchain Hlimit.
  assert (Htask : run (testTask ctx before after test) w = (w1, Rejected e))
    by (by rewrite testTask_unfold, Hchain).
  split_and!; [done| |].
  - apply run_chain_advanced in Hchain as (n & Hadv & _ & Hle & _ & Hne).
    exists n. destruct Hadv as (_ & Htr & Hrep & _).
    split_and!; [by apply Hne|done..].
  - destruct (runConcurrent_alone (testTask ctx before after test) limit w Hlimit)
      as [n Hn].
    exists n. intros sched Hlen. by rewrite (Hn sched Hlen), Htask.
Qed.

(** C2, as the code has it: the task first runs the whole merged [before]
    chain, then emits [testStart], then enters the attempt loop, whose first
    act is to call the body. *)
Theorem task_runs_before_chain_then_testStart ctx before after (test : Test)
    (w w1 : world) :
  run (run_chain before ctx) w = (w1, Fulfilled tt) ->
  trace w1 = trace w ++ calls ctx (array_at before w) /\
  exists w2 o rest,
    run (testTask ctx before after test) w = (w2, o) /\
    trace w2 = trace w1 ++
               Emitted (TestStart (title test)) :: body_call test ctx :: rest.
Proof.
  intros Hchain. rewrite testTask_unfold, Hchain.
  apply chain_fulfilled in Hchain as [(_ & Htr & _) _]. split; [done|].
  destruct (run (attempt_loop test ctx (max_rounds test) VNull 0) (started test w1))
    as [w2 o2] eqn:Hloop.
  apply attempt_loop_advanced in Hloop as (n & _ & Hn & (_ & Htr2 & _) & _).
  destruct n as [|n]; [unfold max_rounds in Hn; lia|].
  destruct (started_advanced test w1) as (Hst & _).
  rewrite Hst in Htr2. cbn [repeat] in Htr2.
  destruct o2 as [error|e|]; cbn [finish].
  2,3: eexists _, _, _; split; [reflexivity|];
       by rewrite Htr2, <- app_assoc.
  destruct (run (run_chain after ctx) w2) as [w3 o3] eqn:Hafter.
  apply run_chain_advanced in Hafter as (m & (_ & Htr3 & _) & _).
  destruct o3 as [[]|e|]; eexists _, _, _; (split; [reflexivity|]).
  2,3: by rewrite Htr3, Htr2, <- !app_assoc.
  replace (trace (notify _ (record _ w3))) with (trace w3 ++ [Emitted (verdict test (now w2 - now w1) error)])
    by (by destruct w3).
  by rewrite Htr3, Htr2, <- !app_assoc.
Qed.

(** *** Retries *)

Lemma fails_then_passes_advanced (test : Test) ctx r :
  forall w w' : world,
    fails_then_passes test ctx r w w' ->
    advanced w w' (repeat (body_call test ctx) (S r)).
Proof.
  induction r as [|r IH]; intros w w'; cbn [fails_then_passes].
  - intros H. by apply attempt_advanced in H as [? _].
  - intros (w1 & e & Hatt & Hrest).
    apply attempt_advanced in Hatt as [Hadv _].
    apply (advanced_trans _ _ _ _ _ Hadv (IH _ _ Hrest)).
Qed.

Lemma attempt_loop_passes (test : Test) ctx r :
  forall rounds error attempts (w w' : world),
    (r < rounds)%nat ->
    attempts + Z.of_nat r <= retryLimit test ->
    fails_then_passes test ctx r w w' ->
    run (attempt_loop test ctx rounds error attempts) w = (w', Fulfilled VNull).
Proof.
  induction r as [|r IH]; intros [|rounds] error attempts w w' Hlt Hle;
    try lia; cbn [fails_then_passes]; rewrite attempt_loop_unfold.
  - by intros ->.
  - intros (w1 & e & -> & Hrest).
    destruct (Z.leb_spec (attempts + 1) (retryLimit test)); [|lia].
    apply IH; [lia|lia|done].
Qed.

Lemma emit_record (ev : event) (w : world) :
  trace (notify ev (record (Emitted ev) w)) = trace w ++ [Emitted ev] /\
  reporter (notify ev (record (Emitted ev) w)) = (listeners ev (reporter w)).1 /\
  now (notify ev (record (Emitted ev) w)) = now w.
Proof. by destruct w. Qed.

(** The task from the end of its attempt loop: the after chain runs
    from there, and the task ends as that chain does, with the closing event
    if the chain completes. *)
Lemma task_closes ctx before after (test : Test) (w w1 w2 w3 : world)
    error o l :
  run (run_chain before ctx) w = (w1, Fulfilled tt) ->
  run (attempt_loop test ctx (max_rounds test) VNull 0) (started test w1) =
    (w2, Fulfilled error) ->
  advanced (started test w1) w2 l ->
  run (run_chain after ctx) w2 = (w3, o) ->
  let attempts := trace w ++ calls ctx (array_at before w) ++
                  [Emitted (TestStart (title test))] ++ l in
  let ev := verdict test (now w2 - now w1) error in
  trace w2 = attempts /\ reporter w2 = reporter w /\
  (exists n, (n <= length (array_at after w))%nat /\
     trace w3 = attempts ++ calls ctx (take n (array_at after w)) /\
     reporter w3 = reporter w /\
     (o = Fulfilled tt -> n = length (array_at after w)) /\
     (o <> Fulfilled tt -> (1 <= n)%nat)) /\
  run (testTask ctx before after test) w =
    match o with
    | Fulfilled _ => (notify ev (record (Emitted ev) w3), Fulfilled tt)
    | Rejected e => (w3, Rejected e)
    | Unsettled => (w3, Unsettled)
    end /\
  now w1 = now w /\ now w3 = now w2.
Proof.
  intros Hbefore Hloop Hbody Hafter. cbn zeta.
  assert (Htask : run (testTask ctx before after test) w =
                  match o with
                  | Fulfilled _ =>
                      (notify (verdict test (now w2 - now w1) error)
                         (record (Emitted (verdict test (now w2 - now w1) error)) w3),
                       Fulfilled tt)
                  | Rejected e => (w3, Rejected e)
                  | Unsettled => (w3, Unsettled)
                  end).
  { rewrite testTask_unfold, Hbefore, Hloop. cbn [finish]. rewrite Hafter.
    by destruct o as [[]|e|]. }
  apply chain_fulfilled in Hbefore as [Hb Hnow1].
  destruct (started_advanced test w1) as (Hs1 & Hs2 & Hs3 & _).
  pose proof (array_at_advanced after _ _ _ Hbody) as Harr.
  unfold array_at in Harr at 2. rewrite Hs2 in Harr.
  fold (array_at after w1) in Harr.
  rewrite (array_at_advanced after _ _ _ Hb) in Harr.
  apply run_chain_advanced in Hafter as (n & Ha & Hnow3 & Hn & Hfull & Hpart).
  rewrite Harr in Ha, Hn, Hfull.
  destruct Hb as (_ & Hb & Hbr & _), Ha as (_ & Ha & Har & _),
           Hbody as (_ & Hbody & Hbodyr & _).
  assert (Ht2 : trace w2 = trace w ++ calls ctx (array_at before w) ++
                           [Emitted (TestStart (title test))] ++ l)
    by (by rewrite Hbody, Hs1, Hb, <- !app_assoc).
  assert (Hr2 : reporter w2 = reporter w) by (by rewrite Hbodyr, Hs3, Hbr).
  split_and!; [done|done| |done|done|done].
  exists n. split_and!; [done|by rewrite Ha, Ht2|by rewrite Har|done|done].
Qed.

(** A task that is alone in its batch. *)
Lemma batch_of_one (task : action world unit) (limit : Z) (w wf : world) o :
  1 <= limit ->
  run task w = (wf, o) ->
  exists n, forall sched,
    (n <= length sched)%nat ->
    runConcurrent [task] limit sched w = (drop n sched, wf, slot_of o).
Proof.
  intros Hlimit Hrun.
  destruct (runConcurrent_alone task limit w Hlimit) as [n Hn].
  exists n. intros sched Hlen. by rewrite (Hn sched Hlen), Hrun.
Qed.


(** *** Timeouts *)

Lemma hangs_unsettled {St A} (p : promise St A) :
  hangs p -> forall s, (run_promise p s).2 = Unsettled.
Proof.
  induction 1 as [|k _ IH]; intros s; [done|].
  cbn [run_promise]. specialize (IH s). by destruct (k s).
Qed.

Lemma timer_delay_in_range ms : 1 <= ms <= TIMEOUT_MAX -> timer_delay ms = ms.
Proof.
  intros [H1 H2]. unfold timer_delay.
  destruct (Z.leb_spec 1 ms); [|lia]. destruct (Z.leb_spec ms TIMEOUT_MAX); [done|lia].
Qed.

Lemma timer_delay_out_of_range ms :
  ms < 1 \/ TIMEOUT_MAX < ms -> timer_delay ms = 1.
Proof.
  intros H. unfold timer_delay.
  destruct (Z.leb_spec 1 ms); [|done]. destruct (Z.leb_spec ms TIMEOUT_MAX); [lia|done].
Qed.

Lemma timer_delay_positive ms : 1 <= timer_delay ms.
Proof.
  unfold timer_delay.
  destruct (Z.leb_spec 1 ms); [|done]. destruct (Z.leb_spec ms TIMEOUT_MAX); cbn; lia.
Qed.

Lemma attempt_times_out (test : Test) ctx T (w : world) :
  timeout (options test) = Some T -> T <> 0 ->
  never_settles (testFn test) ->
  exists w',
    run (attempt test ctx) w = (w', Rejected timeout_error) /\
    advanced w w' [body_call test ctx] /\ now w' = now w + timer_delay T.
Proof.
  intros HT Hpos Hhang. unfold attempt. rewrite HT.
  destruct (Z.eqb_spec T 0); [lia|].
  rewrite run_await, run_race_call. cbn zeta.
  pose proof (hangs_unsettled _ (Hhang ctx (ust w))) as Hrun.
  unfold run.
  destruct (fn_body (testFn test) ctx (ust w)) as [u1 q]. cbn [snd] in Hrun.
  specialize (Hrun u1). destruct (run_promise q u1) as [u' o]. cbn [snd] in Hrun.
  subst o. eexists. split; [reflexivity|].
  split; [by destruct w|]. pose proof (timer_delay_positive T).
  destruct w; cbn. lia.
Qed.

(** Without a timer the attempt on a body that never settles does not
    settle either. *)
Lemma attempt_hangs (test : Test) ctx (w : world) :
  timeout (options test) = Some 0 \/ timeout (options test) = None ->
  never_settles (testFn test) ->
  exists w',
    run (attempt test ctx) w = (w', Unsettled) /\
    advanced w w' [body_call test ctx] /\ now w' = now w.
Proof.
  intros HT Hhang.
  assert (Hplain : attempt test ctx = await (call (testFn test) ctx)).
  { unfold attempt. by destruct HT as [-> | ->]. }
  rewrite Hplain, run_await, run_call.
  pose proof (hangs_unsettled _ (Hhang ctx (ust w))) as Hrun.
  unfold run.
  destruct (fn_body (testFn test) ctx (ust w)) as [u1 q]. cbn [snd] in Hrun.
  specialize (Hrun u1). destruct (run_promise q u1) as [u' o]. cbn [snd] in Hrun.
  subst o. eexists. split; [reflexivity|]. by destruct w.
Qed.

Lemma attempt_loop_times_out (test : Test) ctx T k :
  timeout (options test) = Some T -> T <> 0 ->
  never_settles (testFn test) ->
  forall error attempts (w : world),
    0 <= attempts ->
    Z.of_nat (S k) + attempts = Z.max (retryLimit test) 0 + 1 ->
    exists w',
      run (attempt_loop test ctx (S k) error attempts) w =
        (w', Fulfilled timeout_error) /\
      advanced w w' (repeat (body_call test ctx) (S k)) /\
      now w' = now w + Z.of_nat (S k) * timer_delay T.
Proof.
  intros HT Hpos Hhang.
  induction k as [|k IH]; intros error attempts w Hatt Hk;
    rewrite attempt_loop_unfold;
    destruct (attempt_times_out test ctx T w HT Hpos Hhang) as (w1 & -> & Hadv & Hnow).
  - destruct (Z.leb_spec (attempts + 1) (retryLimit test)); [lia|].
    exists w1. split; [done|]. split; [done|lia].
  - destruct (Z.leb_spec (attempts + 1) (retryLimit test)); [|lia].
    destruct (IH timeout_error (attempts + 1) w1 ltac:(lia) ltac:(lia))
      as (w' & -> & Hadv' & Hnow').
    exists w'. split; [done|]. split; [|lia].
    apply (advanced_trans _ _ _ _ _ Hadv Hadv').
Qed.

End EngineLemmas.

Section Filter.
Context {U : Type}.
Variable RegExp : string -> regexp.

(** A callback that never throws filters as [filter] does. *)
Lemma filter_with_total {A} (keep : A -> completion bool) (f : A -> bool) l :
  (forall x, x ∈ l -> keep x = Normal (f x)) ->
  filter_with keep l = Normal (List.filter f l).
Proof.
  induction l as [|x l IH]; intros Hkeep; [done|].
  cbn [filter_with List.filter]. rewrite (Hkeep x) by apply list_elem_of_here.
  rewrite IH by (intros y Hy; apply Hkeep; by apply list_elem_of_further).
  by destruct (f x).
Qed.

(** A callback that throws at the first element ends the call. *)
Lemma filter_with_throws {A} (keep : A -> completion bool) e l :
  l <> [] -> (forall x, keep x = Abrupt e) -> filter_with keep l = Abrupt e.
Proof. intros Hl Hkeep. destruct l as [|x l]; [done|]. cbn. by rewrite Hkeep. Qed.

(** The filter of [runSuite] does not look at the skip flag of a test:
    without [only] tests and without a pattern, every registered test is
    run. *)
Lemma filter_ignores_skip (suite : @Suite U) (cfg : Config) :
  existsb t_only (tests suite) = false ->
  grep cfg = None ->
  testsToRun RegExp suite cfg = Normal (tests suite).
Proof.
  intros Honly Hgrep. unfold testsToRun.
  rewrite (filter_with_total _ (fun _ => true)).
  - f_equal. apply forallb_filter_id. by apply forallb_forall.
  - intros t _. unfold eligible. by rewrite Honly, Hgrep.
Qed.
End Filter.

Section HookCache.
Context {U : Type}.
Variable RegExp : string -> regexp.
Local Abbreviation world := (@world U).
Local Abbreviation Suite := (@Suite U).

(** C9: on a suite whose cache is empty, [computeMergedHooks] builds two
    new arrays, the inherited [before] hooks followed by the suite's own
    [beforeEach] and the suite's own [afterEach] followed by the inherited
    [after] hooks, and stores them in the suite; every later call on that
    suite returns these same two arrays, whatever its arguments and
    whatever the state, and changes nothing. *)
Theorem computeMergedHooks_cached (suite : Suite) parentBefore parentAfter (w : world) :
  merged suite = None ->
  parentAfter ∈ dom (arrays w) ->
  exists w1 before after,
    let suite1 := set_merged (Some (before, after)) suite in
    computeMergedHooks suite parentBefore parentAfter w = (w1, suite1, (before, after)) /\
    array_at before w1 = array_at parentBefore w ++ beforeEach (hooks suite) /\
    array_at after w1 = afterEach (hooks suite) ++ array_at parentAfter w /\
    (before ∉ dom (arrays w)) /\ (after ∉ dom (arrays w)) /\ before <> after /\
    (forall l, l ∈ dom (arrays w) -> arrays w1 !! l = arrays w !! l) /\
    forall parentBefore' parentAfter' (w' : world),
      computeMergedHooks suite1 parentBefore' parentAfter' w' =
      (w', suite1, (before, after)).
Proof.
  intros Hnone Hpa. unfold computeMergedHooks. rewrite Hnone.
  set (before := fresh (dom (arrays w))).
  set (chain := array_at parentBefore w ++ beforeEach (hooks suite)).
  set (w1 := set_arrays (<[before := chain]> (arrays w)) w).
  set (after := fresh (dom (arrays w1))).
  assert (Hb : before ∉ dom (arrays w)) by apply is_fresh.
  assert (Ha : after ∉ dom (arrays w1)) by apply is_fresh.
  assert (Harr1 : arrays w1 = <[before := chain]> (arrays w)) by (by destruct w).
  rewrite Harr1, dom_insert_L in Ha.
  assert (Hne : before <> after) by set_solver.
  assert (Hpab : parentAfter <> before) by set_solver.
  assert (Hpaa : parentAfter <> after) by set_solver.
  eexists _, before, after. cbn zeta. split; [reflexivity|].
  unfold array_at. destruct w; cbn in *.
  rewrite lookup_insert_ne by done.
  rewrite !lookup_insert_eq. rewrite lookup_insert_ne by done.
  split_and!; try done; [set_solver|].
  intros l Hl. rewrite !lookup_insert_ne; [done|set_solver..].
Qed.

End HookCache.


Section Limits.
Context {St R : Type}.

(** C4, as the code has it: with a limit of 0 or less [runConcurrent]
    starts no worker.  No task is called, the state is untouched, no
    scheduling decision is used, and the call resolves with an array of
    [tasks.length] empty slots. *)
Theorem runConcurrent_no_workers (tasks : list (action St R)) (limit : Z)
    (sched : list nat) (s : St) :
  limit <= 0 ->
  runConcurrent_vars tasks limit sched s =
    (sched, (s, RcVars (replicate (length tasks) None) 0), AllFulfilled []) /\
  runConcurrent tasks limit sched s =
    (sched, s, Resolved (replicate (length tasks) None)).
Proof.
  intros Hle. unfold runConcurrent, runConcurrent_vars.
  replace (worker_count tasks limit) with 0%nat by (unfold worker_count; lia).
  by destruct sched.
Qed.
End Limits.

Lemma members_cons str k v rest :
  JSON.members str ((k, v) :: rest) =
  match str v with
  | Some s => (JSON.quote k +:+ ":" +:+ s) :: JSON.members str rest
  | None => JSON.members str rest
  end.
Proof. reflexivity. Qed.

Lemma members_skip_undefined l1 k l2 :
  JSON.members JSON.serialize (l1 ++ (k, VUndefined) :: l2) =
  JSON.members JSON.serialize (l1 ++ l2).
Proof.
  induction l1 as [|[k1 v1] l1 IH]; [done|].
  cbn [app]. by rewrite !members_cons, IH.
Qed.

Lemma stringify_skips_undefined l1 k l2 :
  JSON.serialize (VObj (l1 ++ (k, VUndefined) :: l2)) = JSON.serialize (VObj (l1 ++ l2)).
Proof. cbn [JSON.serialize]. by rewrite members_skip_undefined. Qed.

Lemma unquote_quote_char c rest :
  unquote_char (JSON.quote_char c +:+ rest) = Some (c, rest).
Proof. destruct c as [[] [] [] [] [] [] [] []]; reflexivity. Qed.

Lemma unquote_closing rest : unquote_char (JSON.dquote +:+ rest) = None.
Proof. reflexivity. Qed.

Lemma append_assoc' (a b c : string) : (a +:+ b) +:+ c = a +:+ (b +:+ c).
Proof.
  induction a as [|x a IH]; [done|].
  change (String x ((a +:+ b) +:+ c) = String x (a +:+ (b +:+ c))).
  by rewrite IH.
Qed.

(** A quoted string can be read back from the front of any text. *)
Lemma quote_body_prefix k1 : forall k2 r1 r2,
  JSON.quote_body k1 +:+ JSON.dquote +:+ r1 =
  JSON.quote_body k2 +:+ JSON.dquote +:+ r2 ->
  k1 = k2 /\ r1 = r2.
Proof.
  induction k1 as [|c1 k1 IH]; intros [|c2 k2] r1 r2; cbn [JSON.quote_body].
  - change (String (ascii_of_N 34) r1 = String (ascii_of_N 34) r2 -> "" = "" /\ r1 = r2).
    by intros [= ->].
  - rewrite append_assoc'. intros H. apply (f_equal unquote_char) in H.
    by rewrite unquote_quote_char in H.
  - rewrite append_assoc'. intros H. apply (f_equal unquote_char) in H.
    by rewrite unquote_quote_char in H.
  - rewrite !append_assoc'. intros H. apply (f_equal unquote_char) in H.
    rewrite !unquote_quote_char in H. injection H as -> H.
    apply IH in H as [-> ->]. done.
Qed.

Lemma quote_prefix k1 k2 r1 r2 :
  JSON.quote k1 +:+ r1 = JSON.quote k2 +:+ r2 -> k1 = k2.
Proof.
  unfold JSON.quote. rewrite !append_assoc'.
  change (String (ascii_of_N 34) (JSON.quote_body k1 +:+ JSON.dquote +:+ r1) =
          String (ascii_of_N 34) (JSON.quote_body k2 +:+ JSON.dquote +:+ r2) ->
          k1 = k2).
  intros [= H]. by apply quote_body_prefix in H as [-> _].
Qed.

Lemma join_cons sep m ms : exists tail, JSON.join sep (m :: ms) = m +:+ tail.
Proof.
  destruct ms as [|m' ms].
  - exists "". cbn [JSON.join]. induction m as [|x m IH]; [done|].
    change (String x m = String x (m +:+ "")). by rewrite <- IH.
  - by eexists.
Qed.

Lemma open_brace_inj (x y : string) : Some ("{" +:+ x) = Some ("{" +:+ y) -> x = y.
Proof. by intros [= ?]. Qed.

Lemma append_inj_l (a x y : string) : a +:+ x = a +:+ y -> x = y.
Proof.
  induction a as [|c a IH]; [done|].
  change (String c (a +:+ x) = String c (a +:+ y) -> x = y).
  intros [= H]. by apply IH.
Qed.

Lemma join_cons_cons sep p q rest :
  JSON.join sep (p :: q :: rest) = p +:+ sep +:+ JSON.join sep (q :: rest).
Proof. done. Qed.

(** What [join] writes before a part depends only on the parts ahead of it. *)
Lemma join_app_cons sep mp :
  exists P, forall m ms, exists t, JSON.join sep (mp ++ m :: ms) = P +:+ m +:+ t.
Proof.
  induction mp as [|p mp [P IH]].
  - exists "". intros m ms. destruct (join_cons sep m ms) as [t Ht]. by exists t.
  - exists (p +:+ sep +:+ P). intros m ms. destruct (IH m ms) as [t Ht].
    exists t. cbn [app]. destruct (mp ++ m :: ms) as [|q rest] eqn:E.
    { by destruct mp. }
    by rewrite join_cons_cons, Ht, !append_assoc'.
Qed.

Lemma members_app str l1 l2 :
  JSON.members str (l1 ++ l2) = JSON.members str l1 ++ JSON.members str l2.
Proof.
  induction l1 as [|[k v] l1 IH]; [done|].
  cbn [app]. rewrite !members_cons, IH. by destruct (str v).
Qed.

(** Two objects that print the same properties up to some point, and there
    a property of another name, have different serializations. *)
Lemma stringify_key_order pre k1 v1 r1 k2 v2 r2 :
  k1 <> k2 ->
  is_Some (JSON.serialize v1) -> is_Some (JSON.serialize v2) ->
  JSON.serialize (VObj (pre ++ (k1, v1) :: r1)) <>
  JSON.serialize (VObj (pre ++ (k2, v2) :: r2)).
Proof.
  intros Hne [s1 Hs1] [s2 Hs2]. cbn [JSON.serialize].
  rewrite !members_app, !members_cons, Hs1, Hs2.
  destruct (join_app_cons "," (JSON.members JSON.serialize pre)) as [P HP].
  destruct (HP (JSON.quote k1 +:+ ":" +:+ s1) (JSON.members JSON.serialize r1))
    as [t1 ->].
  destruct (HP (JSON.quote k2 +:+ ":" +:+ s2) (JSON.members JSON.serialize r2))
    as [t2 ->].
  rewrite !append_assoc'. intros H.
  apply open_brace_inj, append_inj_l, quote_prefix in H. done.
Qed.

(** Two different orders of the same properties part at a first place, and
    the names there are different. *)
Lemma first_reordered {B} (fs1 : list (string * B)) : forall fs2,
  fs1 ≡ₚ fs2 -> NoDup fs1.*1 -> fs1 <> fs2 ->
  exists pre k1 v1 r1 k2 v2 r2,
    fs1 = pre ++ (k1, v1) :: r1 /\ fs2 = pre ++ (k2, v2) :: r2 /\ k1 <> k2.
Proof.
  induction fs1 as [|[k1 v1] l1 IH]; intros fs2 Hperm Hnd Hne.
  { apply Permutation_nil_l in Hperm. by subst. }
  destruct fs2 as [|[k2 v2] l2].
  { by apply Permutation_nil_r in Hperm. }
  destruct (decide (k1 = k2)) as [<-|Hk].
  - assert (v1 = v2) as <-.
    { assert ((k1, v2) ∈ (k1, v1) :: l1) as Hin
        by (rewrite Hperm; apply list_elem_of_here).
      apply elem_of_cons in Hin as [[= ->]|Hin]; [done|].
      apply NoDup_cons in Hnd as [Hk _]. destruct Hk.
      apply list_elem_of_fmap. by exists (k1, v2). }
    apply Permutation_cons_inv in Hperm.
    apply NoDup_cons in Hnd as [_ Hnd].
    destruct (IH l2 Hperm Hnd) as (pre & a1 & b1 & r1 & a2 & b2 & r2 & -> & -> & Ha).
    { by intros ->. }
    by exists ((k1, v1) :: pre), a1, b1, r1, a2, b2, r2.
  - by exists [], k1, v1, l1, k2, v2, l2.
Qed.

Lemma stringify_reordered fs1 fs2 :
  fs1 ≡ₚ fs2 -> NoDup fs1.*1 ->
  Forall (fun kv => is_Some (JSON.serialize kv.2)) fs1 ->
  fs1 <> fs2 ->
  JSON.serialize (VObj fs1) <> JSON.serialize (VObj fs2).
Proof.
  intros Hperm Hnd Hall Hne.
  assert (Hall2 : Forall (fun kv => is_Some (JSON.serialize kv.2)) fs2)
    by (by rewrite <- Hperm).
  destruct (first_reordered fs1 fs2 Hperm Hnd Hne)
    as (pre & k1 & v1 & r1 & k2 & v2 & r2 & -> & -> & Hk).
  apply stringify_key_order; [done| |].
  - rewrite Forall_forall in Hall. apply (Hall (k1, v1)). set_solver.
  - rewrite Forall_forall in Hall2. apply (Hall2 (k2, v2)). set_solver.
Qed.

(** *** [toEqual] through [expect] *)

Lemma stringify_plain v :
  JSON.has_bigint v = false -> JSON.stringify v = Normal (JSON.serialize v).
Proof. intros H. unfold JSON.stringify. by rewrite H. Qed.

Lemma stringify_bigint v :
  JSON.has_bigint v = true -> JSON.stringify v = Abrupt JSON.bigint_error.
Proof. intros H. unfold JSON.stringify. by rewrite H. Qed.

Lemma has_bigint_skip_undefined l1 k l2 :
  JSON.has_bigint (VObj (l1 ++ (k, VUndefined) :: l2)) =
  JSON.has_bigint (VObj (l1 ++ l2)).
Proof. cbn [JSON.has_bigint]. by rewrite !existsb_app. Qed.

Lemma stringify_obj_skips_undefined l1 k l2 :
  JSON.stringify (VObj (l1 ++ (k, VUndefined) :: l2)) =
  JSON.stringify (VObj (l1 ++ l2)).
Proof.
  unfold JSON.stringify.
  by rewrite has_bigint_skip_undefined, stringify_skips_undefined.
Qed.

Lemma toEqual_succeeds a b :
  succeeds (toEqual a b) <->
  exists r, JSON.stringify a = Normal r /\ JSON.stringify b = Normal r.
Proof.
  unfold toEqual.
  destruct (JSON.stringify a) as [r|e]; [|split; [done|by intros (? & ? & ?)]].
  destruct (JSON.stringify b) as [x|e]; [|split; [done|by intros (? & ? & ?)]].
  case_decide as Heq; cbn.
  - subst x. split; [by exists r|done].
  - split; [done|]. intros (? & [= <-] & [= <-]). done.
Qed.

Lemma toEqual_throws a b : ~ succeeds (toEqual a b) -> exists e, toEqual a b = Abrupt e.
Proof. destruct (toEqual a b) as [[]|e]; [by intros []|by exists e]. Qed.

Lemma expect_toEqual off a b :
  expect (customMatchers off) a "toEqual" [b] = Some (toEqual a b).
Proof. reflexivity. Qed.

Lemma passes_toEqual off a b :
  passes (expect (customMatchers off) a "toEqual" [b]) <-> succeeds (toEqual a b).
Proof.
  rewrite expect_toEqual. unfold passes.
  destruct (toEqual a b) as [[]|e]; cbn; split; done.
Qed.

Lemma printed_serialized v t :
  JSON.stringify v = Normal (Some t) -> JSON.serialize v = Some t.
Proof. unfold JSON.stringify. destruct (JSON.has_bigint v); by intros [= ->]. Qed.

Lemma printed_plain v t :
  JSON.stringify v = Normal (Some t) -> JSON.has_bigint v = false.
Proof. unfold JSON.stringify. by destruct (JSON.has_bigint v). Qed.

(** C10, as the code has it: [expect(a).toEqual(b)] returns exactly when
    the two calls of [JSON.stringify] return, and return the same: the same
    text, or [undefined] for both; otherwise it throws.  A property whose
    value is [undefined] counts for nothing, wherever it stands.  Two
    objects that enumerate the same properties, under different names and
    all of them printed, in two different orders are found unequal. *)
Theorem toEqual_is_serialization_equality (disableSnapshots : bool) :
  (forall a b,
      expect (customMatchers disableSnapshots) a "toEqual" [b] = Some (toEqual a b) /\
      (passes (expect (customMatchers disableSnapshots) a "toEqual" [b]) <->
       exists r, JSON.stringify a = Normal r /\ JSON.stringify b = Normal r) /\
      (passes (expect (customMatchers disableSnapshots) a "toEqual" [b]) \/
       exists e, expect (customMatchers disableSnapshots) a "toEqual" [b] =
                 Some (Abrupt e))) /\
  (forall l1 k l2 b,
      passes (expect (customMatchers disableSnapshots)
                (VObj (l1 ++ (k, VUndefined) :: l2)) "toEqual" [b]) <->
      passes (expect (customMatchers disableSnapshots)
                (VObj (l1 ++ l2)) "toEqual" [b])) /\
  (forall fs1 fs2,
      fs1 ≡ₚ fs2 -> NoDup fs1.*1 ->
      Forall (fun kv => exists t, JSON.stringify kv.2 = Normal (Some t)) fs1 ->
      fs1 <> fs2 ->
      exists e, expect (customMatchers disableSnapshots) (VObj fs1) "toEqual" [VObj fs2] =
                Some (Abrupt e)).
Proof.
  assert (Hcases : forall a b,
            passes (expect (customMatchers disableSnapshots) a "toEqual" [b]) \/
            exists e, expect (customMatchers disableSnapshots) a "toEqual" [b] =
                      Some (Abrupt e)).
  { intros a b. rewrite expect_toEqual. unfold passes.
    destruct (toEqual a b) as [[]|e]; [by left|right; by exists e]. }
  split_and!.
  - intros a b. split_and!; [done| |done].
    by rewrite passes_toEqual, toEqual_succeeds.
  - intros l1 k l2 b.
    by rewrite !passes_toEqual, !toEqual_succeeds, stringify_obj_skips_undefined.
  - intros fs1 fs2 Hperm Hnd Hall Hne.
    destruct (Hcases (VObj fs1) (VObj fs2)) as [Hpass|Hthrow]; [|done].
    apply passes_toEqual, toEqual_succeeds in Hpass as (r & H1 & H2).
    assert (Hser : Forall (fun kv => is_Some (JSON.serialize kv.2)) fs1).
    { eapply Forall_impl; [exact Hall|]. intros kv [t Ht].
      exists t. by apply printed_serialized. }
    assert (Hplain : forall fs : list (string * value),
              Forall (fun kv => exists t, JSON.stringify kv.2 = Normal (Some t)) fs ->
              JSON.has_bigint (VObj fs) = false).
    { intros fs Hfs. cbn [JSON.has_bigint]. apply not_true_is_false.
      intros Hex. apply existsb_exists in Hex as (kv & Hin & Hbig).
      rewrite Forall_forall in Hfs. apply list_elem_of_In in Hin.
      destruct (Hfs kv Hin) as [t Ht]. apply printed_plain in Ht. congruence. }
    rewrite stringify_plain in H1 by by apply Hplain.
    rewrite stringify_plain in H2 by (apply Hplain; by rewrite <- Hperm).
    destruct (stringify_reordered fs1 fs2 Hperm Hnd Hser Hne). congruence.
Qed.

(** ** The claims on the sample files *)

Section OnSamples.
Import Samples.

(** C1 as stated fails: with a [beforeEach] hook that throws, the run of
    the file calls the hook and nothing else of the test, and ends without
    a [testFail] event: the reporter counts no failure. *)
Lemma failing_before_hook_emits_no_testFail :
  let w := (run_file failing_before_hook).1.1 in
  trace w = [Emitted (SuiteStart "Root"); Called "boom" 4%nat; Emitted (RunEnd 0)] /\
  failed (reporter w) = 0%nat /\
  forall d e, Emitted (TestFail "t1" d e) ∉ trace w.
Proof.
  cbn zeta.
  assert (Htr : trace (run_file failing_before_hook).1.1 =
                [Emitted (SuiteStart "Root"); Called "boom" 4%nat; Emitted (RunEnd 0)])
    by (vm_compute; reflexivity).
  split_and!; [done|vm_compute; reflexivity|].
  intros d e Hin. rewrite Htr in Hin.
  repeat (apply elem_of_cons in Hin as [Hin|Hin]; [discriminate|]).
  by apply elem_of_nil in Hin.
Qed.

(** C2 as stated fails: the [beforeEach] hook of the sample is called
    before [testStart] is emitted. *)
Lemma before_hook_runs_ahead_of_testStart :
  trace (run_file with_before_hook).1.1 =
    [Emitted (SuiteStart "Root")] ++
    [Called "setup" 4%nat] ++
    [Emitted (TestStart "t1"); Called "body1" 4%nat; Emitted (TestPass "t1" 0);
     Emitted (RunEnd 0)] /\
  Emitted (TestStart "t1") ∉ [Emitted (SuiteStart "Root")].
Proof.
  split; [vm_compute; reflexivity|].
  intros Hin. apply elem_of_cons in Hin as [Hin|Hin]; [discriminate|].
  by apply elem_of_nil in Hin.
Qed.

(** C3 on the code: a test registered with [{ skip: true }] carries the
    flag, yet its body is called and [testStart] and [testPass] are emitted
    for it; the test written with [it.skip] is not registered at all. *)
Theorem skip_option_test_is_executed :
  (fun s => (fun t => (title t, t_skip t)) <$> tests s) <$>
    suites (currentSuite with_skip_option) = [[("t1", true)]] /\
  let w := (run_file with_skip_option).1.1 in
  trace w = [Emitted (SuiteStart "Root"); Emitted (TestStart "t1");
             Called "body1" 4%nat; Emitted (TestPass "t1" 0); Emitted (RunEnd 0)] /\
  user (ust w) = ["body1"] /\
  passed (reporter w) = 1%nat /\ skipped (reporter w) = 0%nat.
Proof. cbn zeta. split_and!; vm_compute; reflexivity. Qed.

(** C4 as stated fails: a limit of 0 is not treated as 1.  The one task of
    the sample is not called and its slot stays empty, where a limit of 1
    runs it. *)
Lemma limit_zero_runs_nothing :
  runConcurrent [print_task "a"] 0 [0%nat; 0%nat] [] =
    ([0%nat; 0%nat], [], Resolved [None]) /\
  runConcurrent [print_task "a"] 1 [0%nat; 0%nat] [] =
    ([0%nat], ["a"], Resolved [Some (Value "a")]).
Proof. split; vm_compute; reflexivity. Qed.



(** C10 as stated fails: the two objects of the sample have the same keys,
    [a] and [b], in different orders, and [toEqual] finds them equal,
    because the value of [a] is [undefined] in both. *)
Lemma reordered_undefined_fields_compare_equal :
  let x := [("a", VUndefined); ("b", VNum (NInt (lit 1)))] in
  let y := [("b", VNum (NInt (lit 1))); ("a", VUndefined)] in
  x.*1 = ["a"; "b"] /\ y.*1 = ["b"; "a"] /\
  passes (expect (customMatchers false) (VObj x) "toEqual" [VObj y]) /\
  JSON.stringify (VObj x) = Normal (Some ("{" +:+ JSON.quote "b" +:+ ":1}")) /\
  JSON.stringify (VObj y) = Normal (Some ("{" +:+ JSON.quote "b" +:+ ":1}")).
Proof. cbn zeta. split_and!; vm_compute; reflexivity. Qed.
End OnSamples.

(** ** The theorems at work on the samples *)

Section Witnesses.
Import Samples.

Lemma before_hook_failure_witness :
  let w1 := (run (run_chain 0%nat 0%nat) bench_failing).1 in
  run (run_chain 0%nat 0%nat) bench_failing = (w1, Rejected (VError "boom")) /\
  1 <= 50 /\
  (run (testTask 0%nat 0%nat 1%nat plain_test) bench_failing =
     (w1, Rejected (VError "boom")) /\
   (exists n, (1 <= n <= length (array_at 0%nat bench_failing))%nat /\
              trace w1 = trace bench_failing ++
                         calls 0%nat (take n (array_at 0%nat bench_failing)) /\
              reporter w1 = reporter bench_failing) /\
   (exists n, forall sched,
       (n <= length sched)%nat ->
       runConcurrent [testTask 0%nat 0%nat 1%nat plain_test] 50 sched bench_failing =
       (drop n sched, w1, Resolved [Some (ErrorObj (VError "boom"))]))).
Proof.
  cbn zeta. split; [vm_compute; reflexivity|]. split; [lia|].
  apply (before_hook_failure_rejects_task 0%nat 0%nat 1%nat plain_test bench_failing).
  - vm_compute; reflexivity.
  - lia.
Defined.

Lemma task_order_witness :
  let w1 := (run (run_chain 0%nat 0%nat) bench).1 in
  run (run_chain 0%nat 0%nat) bench = (w1, Fulfilled tt) /\
  (trace w1 = trace bench ++ calls 0%nat (array_at 0%nat bench) /\
   exists w2 o rest,
     run (testTask 0%nat 0%nat 1%nat plain_test) bench = (w2, o) /\
     trace w2 = trace w1 ++
                Emitted (TestStart (title plain_test)) ::
                body_call plain_test 0%nat :: rest).
Proof.
  cbn zeta. split; [vm_compute; reflexivity|].
  apply (task_runs_before_chain_then_testStart 0%nat 0%nat 1%nat plain_test bench).
  vm_compute; reflexivity.
Defined.

Lemma no_workers_witness :
  0 <= 0 /\
  (runConcurrent_vars three_tasks 0 [0%nat] [] =
     ([0%nat], ([], RcVars (replicate (length three_tasks) None) 0), AllFulfilled []) /\
   runConcurrent three_tasks 0 [0%nat] [] =
     ([0%nat], [], Resolved (replicate (length three_tasks) None))).
Proof.
  split; [lia|]. apply (runConcurrent_no_workers three_tasks 0 [0%nat] []). lia.
Defined.

Lemma three_tasks_settle :
  forall i task, three_tasks !! i = Some task ->
                 forall s, settles 1 (three_outcomes i) (task s).2.
Proof.
  intros [|[|[|i]]] task; intros [= <-] s; vm_compute; reflexivity.
Defined.


Lemma slow_test_hangs : never_settles (testFn slow_test).
Proof. intros this u. apply hangs_pending. Defined.


Lemma computeMergedHooks_witness :
  exists w1 before after,
    let suite1 := set_merged (Some (before, after)) hooked_suite in
    computeMergedHooks hooked_suite 0%nat 1%nat bench = (w1, suite1, (before, after)) /\
    array_at before w1 = array_at 0%nat bench ++ beforeEach (hooks hooked_suite) /\
    array_at after w1 = afterEach (hooks hooked_suite) ++ array_at 1%nat bench /\
    (before ∉ dom (arrays bench)) /\ (after ∉ dom (arrays bench)) /\ before <> after /\
    (forall l, l ∈ dom (arrays bench) -> arrays w1 !! l = arrays bench !! l) /\
    forall parentBefore' parentAfter' (w' : @world console),
      computeMergedHooks suite1 parentBefore' parentAfter' w' =
      (w', suite1, (before, after)).
Proof.
  apply (computeMergedHooks_cached hooked_suite 0%nat 1%nat bench).
  - reflexivity.
  - apply elem_of_dom. eexists. vm_compute. reflexivity.
Defined.

Lemma toEqual_reordered_witness :
  let fs1 := [("a", VNum (NInt (lit 1))); ("b", VNum (NInt (lit 2)))] in
  let fs2 := [("b", VNum (NInt (lit 2))); ("a", VNum (NInt (lit 1)))] in
  fs1 ≡ₚ fs2 /\ NoDup fs1.*1 /\
  Forall (fun kv => exists t, JSON.stringify kv.2 = Normal (Some t)) fs1 /\
  fs1 <> fs2 /\
  exists e, expect (customMatchers false) (VObj fs1) "toEqual" [VObj fs2] =
            Some (Abrupt e).
Proof.
  assert (Hperm : [("a", VNum (NInt (lit 1))); ("b", VNum (NInt (lit 2)))] ≡ₚ
                  [("b", VNum (NInt (lit 2))); ("a", VNum (NInt (lit 1)))])
    by apply perm_swap.
  assert (Hnd : NoDup [("a", VNum (NInt (lit 1))); ("b", VNum (NInt (lit 2)))].*1).
  { cbn. apply NoDup_cons. split; [|apply NoDup_singleton].
    intros Hin. apply list_elem_of_singleton in Hin. discriminate Hin. }
  assert (Hall : Forall (fun kv => exists t, JSON.stringify kv.2 = Normal (Some t))
                   [("a", VNum (NInt (lit 1))); ("b", VNum (NInt (lit 2)))]).
  { repeat constructor; eexists; reflexivity. }
  assert (Hne : [("a", VNum (NInt (lit 1))); ("b", VNum (NInt (lit 2)))] <>
                [("b", VNum (NInt (lit 2))); ("a", VNum (NInt (lit 1)))])
    by discriminate.
  split_and!; [done..|].
  exact (proj2 (proj2 (toEqual_is_serialization_equality false)) _ _ Hperm Hnd Hall Hne).
Defined.
End Witnesses.

(** ** The command line, the reporter, matchers and [each] *)


(** *** The command line *)

Lemma process_arg_reporter arg c :
  Cli.reporter (Cli.process_arg arg c) = Cli.reporter c.
Proof.
  unfold Cli.process_arg.
  destruct (String.prefix _ arg), (String.eqb arg _); reflexivity.
Qed.

Lemma process_argv_reporter argv c :
  Cli.reporter (Cli.process_argv argv c) = Cli.reporter c.
Proof.
  unfold Cli.process_argv. generalize (drop 2 argv) as args. intros args.
  revert c. induction args as [|arg args IH]; intros c; [done|].
  cbn [foldl]. by rewrite IH, process_arg_reporter.
Qed.

(** X1: The reporter in use is the verbose one, whatever the command line and
    whatever is passed to [setConfig] afterwards. *)
Theorem reporter_is_always_verbose snapshots argv patches :
  Cli.the_reporter
    (foldl (fun m p => Cli.setConfig p m) (Cli.load snapshots argv) patches)
  = Cli.VerboseReporter.
Proof.
  assert (H0 : Cli.the_reporter (Cli.load snapshots argv) = Cli.VerboseReporter).
  { unfold Cli.load. cbn [Cli.the_reporter]. by rewrite process_argv_reporter. }
  revert H0. generalize (Cli.load snapshots argv) as m.
  induction patches as [|p patches IH]; intros m Hm; [done|].
  cbn [foldl]. by apply IH.
Qed.

Lemma split_cons sep c r :
  Cli.split sep (String c r) =
  if Ascii.eqb c sep then "" :: Cli.split sep r
  else match Cli.split sep r with
       | p :: ps => String c p :: ps
       | [] => [String c ""]
       end.
Proof. done. Qed.

(** [split] cuts at the first separator: the first piece is the longest
    prefix without one. *)
Lemma split_first sep s :
  exists q rest pieces,
    Cli.split sep s = q :: pieces /\
    s = q +:+ rest /\
    (sep ∉ list_ascii_of_string q) /\
    (rest = "" \/ exists r, rest = String sep r).
Proof.
  induction s as [|c r (q & rest & pieces & Hsplit & -> & Hq & Hrest)].
  - exists "", "", []. split_and!; [done|done|apply not_elem_of_nil|by left].
  - rewrite split_cons. destruct (Ascii.eqb_spec c sep) as [->|Hne].
    + exists "", (String sep (q +:+ rest)), (Cli.split sep (q +:+ rest)).
      split_and!; [done|done|apply not_elem_of_nil|right; by eexists].
    + rewrite Hsplit. exists (String c q), rest, pieces.
      split_and!; [done|done| |done].
      cbn [list_ascii_of_string]. rewrite not_elem_of_cons. by split.
Qed.

Lemma split_without_sep sep s :
  sep ∉ list_ascii_of_string s -> Cli.split sep s = [s].
Proof.
  induction s as [|c r IH]; [done|]. cbn [list_ascii_of_string]. intros Hs.
  rewrite split_cons. destruct (Ascii.eqb_spec c sep) as [->|Hne]; [set_solver|].
  rewrite IH by set_solver. done.
Qed.

Lemma prefix_append s p : String.prefix s (s +:+ p) = true.
Proof.
  induction s as [|a s IH]; [by destruct p|].
  change (String a s +:+ p) with (String a (s +:+ p)). cbn [String.prefix].
  by destruct (ascii_dec a a).
Qed.

Lemma process_arg_grep p c :
  Cli.process_arg ("--grep=" +:+ p) c = Cli.set_grep (head (Cli.split "=" p)) c.
Proof.
  unfold Cli.process_arg.
  rewrite prefix_append.
  change ("--grep=" +:+ p)
    with (String "-" (String "-" (String "g" (String "r" (String "e"
            (String "p" (String "=" p))))))).
  set (arg := String "-" _).
  assert (String.eqb arg "--watch" = false) as -> by reflexivity.
  assert (Cli.split "=" arg !! 1%nat = head (Cli.split "=" p)) as ->; [|done].
  unfold arg. rewrite !split_cons. cbn [Ascii.eqb Bool.eqb].
  destruct (split_first "=" p) as (q & rest & pieces & -> & _). done.
Qed.

(** X2: [--grep=p] sets the pattern to the part of [p] before its first [=]:
    what follows an [=] in [p] is dropped, and nothing else of the
    configuration changes. *)
Theorem grep_argument_is_cut_at_equals (p : string) (c : Cli.GlobalConfig) :
  exists q rest,
    p = q +:+ rest /\
    ("="%char ∉ list_ascii_of_string q) /\
    (rest = "" \/ exists r, rest = String "=" r) /\
    Cli.process_arg ("--grep=" +:+ p) c = Cli.set_grep (Some q) c.
Proof.
  destruct (split_first "=" p) as (q & rest & pieces & Hsplit & Hp & Hq & Hrest).
  exists q, rest. rewrite process_arg_grep, Hsplit. split_and!; try done.
Qed.

(** *** The reporter *)

Lemma with_status_snoc status lines l :
  with_status status (lines ++ [l]) =
  with_status status lines ++
  (if String.eqb (line_status l) status then [l] else []).
Proof. unfold with_status. by rewrite List.filter_app. Qed.

Lemma listeners_counts ev r : takes ev -> counts_ok r -> counts_ok (listeners ev r).1.
Proof.
  intros Hev (Hp & Hf & Hs & Hlen).
  destruct ev as [t|t|t d|t d e|t|d]; try done; unfold counts_ok.
  - cbn [listeners onTestPass fst passed failed skipped reported].
    rewrite !with_status_snoc, !length_app; cbn; lia.
  - cbn in Hev.
    destruct e; try discriminate Hev;
      cbn [listeners onTestFail fst passed failed skipped reported];
      rewrite !with_status_snoc, !length_app; cbn; lia.
  - cbn [listeners onTestSkip fst passed failed skipped reported].
    rewrite !with_status_snoc, !length_app; cbn; lia.
Qed.

Lemma hear_counts evs : forall r,
  Forall takes evs -> counts_ok r -> counts_ok (hear r evs).
Proof.
  unfold hear. induction evs as [|ev evs IH]; intros r Hall Hr; [done|].
  apply Forall_cons in Hall as [Hev Hall].
  cbn [foldl]. by apply IH, listeners_counts.
Qed.

(** *** Matchers *)

Lemma safe_integer_eq (x y : safe_integer) : integer x = integer y -> x = y.
Proof.
  destruct x as [x Hx], y as [y Hy]. cbn. intros ->. f_equal. apply proof_irrel.
Qed.

Lemma number_equals_spec a b :
  number_equals a b = true <-> a = b /\ a <> NNaN.
Proof.
  destruct a as [x| |[]], b as [y| |[]]; cbn; rewrite ?Z.eqb_eq;
    split; try done; try (intros [? ?]; congruence); try (by intros ->).
  - intros H%safe_integer_eq. by subst.
Qed.

Lemma strict_equals_spec a b :
  strict_equals a b = true <-> a = b /\ a <> PNum NNaN.
Proof.
  destruct a as [| |x|x|x|x|x], b as [| |y|y|y|y|y]; cbn;
    rewrite ?number_equals_spec, ?String.eqb_eq, ?Bool.eqb_true_iff, ?Z.eqb_eq,
            ?Nat.eqb_eq;
    split; try done; try (intros [? ?]; congruence); try (by intros ->).
  - intros [-> ?]. split; congruence.
  - intros [[= ->] ?]. split; congruence.
Qed.

Lemma primitive_of_value_of p : primitive_of (value_of p) = Some p.
Proof. by destruct p. Qed.

Lemma toBe_succeeds a b : succeeds (toBe a b) <-> a = b /\ a <> PNum NNaN.
Proof.
  unfold toBe. rewrite <- strict_equals_spec.
  destruct (strict_equals a b); cbn; [split; done|].
  destruct (to_string a) as [r|e]; [|split; done].
  destruct (to_string b) as [x|e]; split; done.
Qed.

(** X4: [toBe] on primitives is equality of values, except that [NaN] is not
    itself: a [BigInt] is compared by its value and a symbol by its
    identity.  It is the matcher that [expect] calls on primitives.  What
    [toBe] accepts, [toEqual] accepts, a [BigInt] apart, on which [toEqual]
    throws; and [toEqual] accepts any two symbols, where [toBe] throws a
    [TypeError] on two different ones. *)
Theorem toBe_is_equality_except_NaN (a b : primitive) (disableSnapshots : bool) :
  (succeeds (toBe a b) <-> a = b /\ a <> PNum NNaN) /\
  expect (customMatchers disableSnapshots) (value_of a) "toBe" [value_of b] =
    Some (toBe a b) /\
  (succeeds (toBe a b) -> (forall z, a <> PBigInt z) ->
   succeeds (toEqual (value_of a) (value_of b))) /\
  (forall z, a = PBigInt z -> b = PBigInt z ->
     toBe a b = Normal tt /\
     toEqual (value_of a) (value_of b) = Abrupt JSON.bigint_error) /\
  (forall i j, a = PSymbol i -> b = PSymbol j -> i <> j ->
     toBe a b = Abrupt (VError "Cannot convert a Symbol value to a string") /\
     toEqual (value_of a) (value_of b) = Normal tt).
Proof.
  split_and!.
  - apply toBe_succeeds.
  - change (toBe_matcher (value_of a) [value_of b] = Some (toBe a b)).
    unfold toBe_matcher. cbn [first_arg head default]. unfold id.
    by rewrite !primitive_of_value_of.
  - intros [-> _]%toBe_succeeds Hbig. apply toEqual_succeeds.
    destruct b; try (by eexists); by destruct (Hbig z).
  - intros z -> ->. split; [|done]. unfold toBe. cbn. by rewrite Z.eqb_refl.
  - intros i j -> -> Hij. split; [|done]. unfold toBe. cbn.
    by destruct (Nat.eqb_spec i j).
Qed.

(** X5: [toBeGreaterThan] on numbers passes when one of the two is [NaN], and
    otherwise exactly when the first is greater. *)
Theorem toBeGreaterThan_passes_on_NaN :
  (forall n, succeeds (toBeGreaterThan NNaN n) /\ succeeds (toBeGreaterThan n NNaN)) /\
  (forall x y, succeeds (toBeGreaterThan (NInt x) (NInt y)) <-> y < x) /\
  (forall n, n <> NNaN -> ~ succeeds (toBeGreaterThan n n)) /\
  (forall n, succeeds (toBeGreaterThan (NInfinity false) n) <-> n <> NInfinity false) /\
  (forall n, succeeds (toBeGreaterThan n (NInfinity true)) <->
             n <> NInfinity true).
Proof.
  split_and!.
  - by intros [x| |[]].
  - intros x y. unfold toBeGreaterThan. cbn [number_le].
    destruct (Z.leb_spec x y); cbn; split; (done || lia).
  - intros [x| |[]] Hn; unfold toBeGreaterThan; cbn [number_le];
      rewrite ?Z.leb_refl; cbn; tauto.
  - intros [x| |[]]; cbn; split; (done || tauto).
  - intros [x| |[]]; cbn; split; (done || tauto).
Qed.

Lemma pretty_Z_not_null (z : Z) : pretty z <> "null".
Proof.
  destruct z as [|x|x]; [done| |done].
  unfold pretty, pretty_Z, pretty, pretty_positive, pretty, pretty_N.
  case_decide; [done|].
  generalize (N.pos x) as n. intros n.
  assert (forall s, s <> "null" -> pretty_N_go n s <> "null") as Hgo.
  { induction (N.lt_wf_0 n) as [n _ IH]; intros s Hs.
    assert (n = 0 \/ 0 < n)%N as [->|Hpos] by lia.
    - by rewrite pretty_N_go_0.
    - rewrite pretty_N_go_step by done. apply IH.
      + by apply N.div_lt.
      + unfold pretty_N_char. by repeat case_match. }
  by apply Hgo.
Qed.

(** X6: What [toEqual] does not tell apart: [NaN], the infinities and [null];
    any two [Error] objects, and an [Error] and the empty object;
    [undefined] and a function.  An integer is never taken for [null]. *)
Theorem toEqual_conflates :
  (forall n, succeeds (toEqual (VNum n) VNull) <-> forall z, n <> NInt z) /\
  (forall m1 m2, succeeds (toEqual (VError m1) (VError m2))) /\
  (forall m, succeeds (toEqual (VError m) (VObj []))) /\
  (forall f, succeeds (toEqual VUndefined (VFun f))).
Proof.
  split_and!.
  - intros n. rewrite toEqual_succeeds.
    destruct n as [z| |b].
    + split; [|intros H; by destruct (H z)].
      intros (r & [= <-] & [= H]). symmetry in H. by apply pretty_Z_not_null in H.
    + split; [congruence|]. intros _. by eexists.
    + split; [congruence|]. intros _. by eexists.
  - intros m1 m2. apply toEqual_succeeds. by eexists.
  - intros m. apply toEqual_succeeds. by eexists.
  - intros f. apply toEqual_succeeds. by eexists.
Qed.

(** *** [each] *)

Section EachProofs.
Context {U : Type}.

Lemma append_inj_r (s t : string) (c : ascii) :
  s +:+ String c "" = t +:+ String c "" -> s = t.
Proof.
  revert t. induction s as [|x s IH]; intros [|y t].
  - done.
  - change (String c "" = String y (t +:+ String c "") -> "" = String y t).
    intros [= -> H]. by destruct t.
  - change (String x (s +:+ String c "") = String c "" -> String x s = "").
    intros [= -> H]. by destruct s.
  - change (String x (s +:+ String c "") = String y (t +:+ String c "") ->
            String x s = String y t).
    intros [= -> H]. by rewrite (IH t H).
Qed.

Lemma case_title_inj description : Inj (=) (=) (case_title description).
Proof.
  intros i j. unfold case_title. intros H.
  apply (inj (String.app _)), (inj (String.app _)), append_inj_r in H.
  by apply (inj pretty).
Qed.

Lemma each_tests_from {X} (arr : list X) description
    (fn : X -> action (@ustate U) unit) (from : nat) (b : @building U) :
  foldl (fun b '(index, item) =>
           it (case_title description index) None
              (Callable (case_title description index) (fun _ => fn item)) b)
        b (imap (fun i => pair (from + i)%nat) arr) =
  on_current
    (fun s => set_tests
                (tests s ++ imap (fun i => case_test description fn (from + i)) arr) s)
    b.
Proof.
  revert from b. induction arr as [|item arr IH]; intros from b.
  - cbn. destruct b as [cs [? ? ? ? ? ? ? ?]]. unfold on_current, set_tests. cbn.
    by rewrite app_nil_r.
  - cbn [imap foldl].
    rewrite (imap_ext _ (fun i => pair (S from + i)%nat) arr)
      by (intros; cbn; f_equal; lia).
    rewrite IH.
    rewrite (imap_ext (_ ∘ S) (fun i => case_test description fn (S from + i)) arr)
      by (intros; cbn; f_equal; lia).
    destruct b as [cs [? ? ? ? ? ? ? ?]].
    unfold it, on_current, set_tests. cbn.
    rewrite Nat.add_0_r, <- app_assoc. done.
Qed.

(** X8: [each(arr)(description, fn)] adds one test per item, after the tests
    already registered and in the order of the items; the test of item [i]
    is titled after [i], has the default options and no marks, and its body
    is [fn] applied to the item.  The titles of the cases are all
    different.  Nothing else of the suite changes. *)
Theorem each_registers_one_test_per_item {X} (arr : list X) description
    (fn : X -> action (@ustate U) unit) (b : @building U) :
  let b' := each arr description fn b in
  let cases := imap (case_test description fn) arr in
  tests (currentSuite b') = tests (currentSuite b) ++ cases /\
  length cases = length arr /\
  (forall i item, arr !! i = Some item ->
     exists t, cases !! i = Some t /\
       title t = description +:+ " [case " +:+ pretty i +:+ "]" /\
       options t = {| timeout := None; retry := 0; tags := [] |} /\
       t_only t = false /\ t_skip t = false /\
       forall this, fn_body (testFn t) this = fn item) /\
  NoDup (title <$> cases) /\
  suites (currentSuite b') = suites (currentSuite b) /\
  hooks (currentSuite b') = hooks (currentSuite b) /\
  b_ctxs b' = b_ctxs b.
Proof.
  cbn zeta.
  assert (each arr description fn b =
          on_current (fun s => set_tests
                        (tests s ++ imap (case_test description fn) arr) s) b)
    as -> by exact (each_tests_from arr description fn 0 b).
  destruct b as [cs [? ? ? ? ? ? ? ?]]. cbn.
  split_and!; try done.
  - by rewrite length_imap.
  - intros i item Hi. exists (case_test description fn i item).
    split; [by rewrite list_lookup_imap, Hi|]. done.
  - rewrite fmap_imap. 
    rewrite (imap_ext _ (fun i _ => case_title description i) arr) by done.
    rewrite imap_seq_0.
    pose proof (case_title_inj description) as Hinj.
    apply (NoDup_fmap_2 _). apply NoDup_seq.
Qed.
End EachProofs.

(** ** Batches of arbitrary tasks *)

(** ** The pool under an invariant *)

Section PoolInvariant.
Context {St A : Type}.

Lemma omap_length_le {X Y} (f : X -> option Y) (l : list X) :
  (length (omap f l) <= length l)%nat.
Proof.
  induction l as [|x l IH]; [done|]. cbn. destruct (f x); cbn; lia.
Qed.

Lemma fulfilment_full (ws : list (promise St A)) :
  length (omap fulfilment ws) = length ws ->
  Forall (fun p => exists a, p = Ret a) ws.
Proof.
  induction ws as [|p ws IH]; [done|]. cbn.
  pose proof (omap_length_le fulfilment ws) as Hle.
  destruct p as [a|e| |k]; cbn; intros Hlen; try lia.
  constructor; [by eexists|]. apply IH. lia.
Qed.

Variable Inv : list (promise St A) -> St -> Prop.
Hypothesis Inv_resume :
  forall ws s i k, Inv ws s -> ws !! i = Some (Await k) ->
                   Inv (<[i := (k s).2]> ws) (k s).1.

Lemma resume_inv i ws s :
  Inv ws s -> Inv (resume i ws s).2 (resume i ws s).1.
Proof.
  intros H. unfold resume. destruct (ws !! i) as [[a|e| |k]|] eqn:Hi; try done.
  specialize (Inv_resume ws s i k H Hi). by destruct (k s).
Qed.

(** When the pool stops, the jobs are in a state of the invariant; they
    are all fulfilled if the pool is, and one of them is rejected if the
    pool is. *)
Lemma run_pool_inv sched : forall ws s,
  Inv ws s ->
  exists ws',
    Inv ws' (run_pool sched ws s).1.2 /\
    match (run_pool sched ws s).2 with
    | AllFulfilled vs => Forall (fun p => exists a, p = Ret a) ws'
    | FirstRejected e => exists p, p ∈ ws' /\ rejection p = Some e
    | _ => True
    end.
Proof.
  assert (Hstop : forall sched ws s, Inv ws s ->
            runnable ws = [] \/ sched = [] \/ omap rejection ws <> [] ->
            exists ws',
              Inv ws' (run_pool sched ws s).1.2 /\
              match (run_pool sched ws s).2 with
              | AllFulfilled vs => Forall (fun p => exists a, p = Ret a) ws'
              | FirstRejected e => exists p, p ∈ ws' /\ rejection p = Some e
              | _ => True
              end).
  { intros sched0 ws s H Hcase. exists ws.
    destruct sched0 as [|c sched0]; cbn [run_pool];
      destruct (omap rejection ws) as [|e es] eqn:Hrej.
    1,3: destruct (runnable ws) as [|i0 others] eqn:Hrun;
         [case_decide as Hlen; cbn; (split; [done|]);
          [by apply fulfilment_full|done]
         |try (by cbn); destruct Hcase as [?|[?|?]]; done].
    all: cbn; split; [done|];
      assert (e ∈ omap rejection ws) as Hin by (rewrite Hrej; left);
      apply list_elem_of_omap in Hin as (p & Hp & Hpe); by exists p. }
  induction sched as [|choice sched IH]; intros ws s H.
  { apply Hstop; auto. }
  destruct (omap rejection ws) as [|e es] eqn:Hrej;
    [|apply Hstop; [done|right; right; by rewrite Hrej]].
  destruct (runnable ws) as [|i0 others] eqn:Hrun; [apply Hstop; auto|].
  cbn [run_pool]. rewrite Hrej, Hrun. cbn zeta.
  set (i := default i0 _).
  pose proof (resume_inv i ws s H) as Hres.
  destruct (resume i ws s) as [s' ws'']. by apply IH.
Qed.
End PoolInvariant.

(** ** The workers of [runConcurrent], whatever the tasks do *)

Section Workers.
Context {St R : Type}.
Variable tasks : list (action St R).

Local Abbreviation vars := (rc_vars R).
Local Abbreviation lift_task :=
  (zoom_promise (Big := St * vars) fst (fun s '(_, v) => (s, v))).
Local Abbreviation wrapped := (wrapped tasks).

Lemma wrapped_pending fuel cur st : wrapped fuel cur Pending st = (st, Pending).
Proof. reflexivity. Qed.

(** A worker is suspended on its task as soon as it has called it. *)
Lemma wrapped_yield_state fuel cur (q : promise (St * vars) R) st :
  (wrapped fuel cur (yield_after q) st).1 = st.
Proof. by destruct q. Qed.

Lemma worker_loop_claimed fuel s v :
  (index v < length tasks)%nat ->
  (worker_loop tasks (S fuel) (s, v)).1.2 = claim v.
Proof.
  intros Hlt. destruct (lookup_lt_is_Some_2 tasks (index v) Hlt) as [task Htask].
  rewrite (worker_loop_claim tasks fuel s v task Hlt Htask).
  destruct (task s) as [s1 p]. by rewrite wrapped_yield_state.
Qed.

(** *** No worker rejects *)

Lemma wrapped_no_throw fuel cur :
  (forall sv, no_throw (worker_loop tasks fuel sv).2) ->
  forall q st, no_throw (wrapped fuel cur q st).2.
Proof.
  intros Hloop q. induction q as [a|e| |K IH] using promise_rect'; intros [s v].
  - rewrite wrapped_ret. apply Hloop.
  - rewrite wrapped_throw. apply Hloop.
  - constructor.
  - destruct (wrapped_await tasks fuel cur K (s, v)) as (K' & -> & HK').
    constructor. intros st'. rewrite HK'. specialize (IH st').
    destruct (K st') as [st'' q']. apply IH.
Qed.

Lemma worker_loop_no_throw fuel : forall sv, no_throw (worker_loop tasks fuel sv).2.
Proof.
  induction fuel as [|fuel IH]; intros [s v]; [constructor|].
  destruct (decide (index v < length tasks)%nat) as [Hlt|Hge].
  - destruct (lookup_lt_is_Some_2 tasks (index v) Hlt) as [task Htask].
    rewrite (worker_loop_claim tasks fuel s v task Hlt Htask).
    destruct (task s) as [s1 p]. by apply wrapped_no_throw.
  - rewrite worker_loop_exit by lia. constructor.
Qed.

Lemma spawn_Forall (P : promise (St * vars) unit -> Prop) :
  (forall sv, P (worker tasks sv).2) ->
  forall count sv, Forall P (spawn tasks count sv).2.
Proof.
  intros HP count. induction count as [|count IH]; intros sv; [constructor|].
  cbn [spawn]. specialize (HP sv). destruct (worker tasks sv) as [sv1 w].
  specialize (IH sv1). destruct (spawn tasks count sv1) as [sv2 ws].
  by constructor.
Qed.

Lemma run_pool_no_throw (ws : list (promise (St * vars) unit)) sched sv :
  Forall no_throw ws ->
  match (run_pool sched ws sv).2 with
  | FirstRejected _ => False
  | _ => True
  end.
Proof.
  intros Hws.
  destruct (run_pool_inv
              (fun (ws : list (promise (St * vars) unit)) (_ : St * vars) =>
                 Forall no_throw ws)) with (sched := sched)
    (ws := ws) (s := sv) as (ws' & Hinv & Hout); [|done|].
  { intros ws0 s0 i k H0 Hi. apply Forall_insert; [done|].
    rewrite Forall_lookup in H0. specialize (H0 i _ Hi). by inversion H0. }
  destruct ((run_pool sched ws sv).2) as [vs|e'| |]; try done.
  destruct Hout as (p & Hp & Hrej).
  rewrite Forall_forall in Hinv. specialize (Hinv p Hp).
  destruct Hinv; done.
Qed.

(** X9: [runConcurrent] never rejects, whatever the tasks do, whatever the
    limit and however the workers are scheduled: a task that throws or
    rejects is recorded, not propagated.  The call resolves, or it never
    does. *)
Theorem runConcurrent_never_rejects (concurrency : Z) (sched : list nat) (s : St) :
  let o := (runConcurrent tasks concurrency sched s).2 in
  (exists rs, o = Resolved rs) \/ o = NeverResolves \/ o = RcOutOfSchedule.
Proof.
  cbn zeta. unfold runConcurrent, runConcurrent_vars.
  set (vars0 := RcVars _ _).
  pose proof (spawn_Forall no_throw (fun sv => worker_loop_no_throw _ sv)
                (worker_count tasks concurrency) (s, vars0)) as Hws.
  destruct (spawn tasks _ (s, vars0)) as [sv ws]. cbn [snd] in Hws.
  pose proof (run_pool_no_throw ws sched sv Hws) as Hout.
  destruct (run_pool sched ws sv) as [[sched' [s' v']] o]. cbn [fst snd] in *.
  destruct o as [vs|e'| |]; [left; by eexists|done|by right; left|by right; right].
Qed.

(** X10: An empty batch resolves at once with an empty array, whatever the
    limit. *)
Theorem runConcurrent_empty (concurrency : Z) (sched : list nat) (s : St) :
  runConcurrent (@nil (action St R)) concurrency sched s = (sched, s, Resolved []).
Proof.
  unfold runConcurrent, runConcurrent_vars.
  replace (worker_count [] concurrency) with 0%nat
    by (unfold worker_count; cbn; lia).
  by destruct sched.
Qed.
End Workers.

(** ** Invariants of actions *)

Section Keeps.
Context {St : Type}.
Variable I : St -> Prop.

Lemma keeps_ret {A} (a : A) : keeps I (ret a).
Proof. by intros s Hs. Qed.
Lemma keeps_throw {A} e : keeps I (throw (A := A) e).
Proof. by intros s Hs. Qed.
Lemma keeps_never {A} : keeps I (never (A := A)).
Proof. by intros s Hs. Qed.
Lemma keeps_gets {A} (f : St -> A) : keeps I (gets f).
Proof. by intros s Hs. Qed.
Lemma keeps_modify f : (forall s, I s -> I (f s)) -> keeps I (modify f).
Proof. intros Hf s Hs. split; [by apply Hf|done]. Qed.

Lemma keeps_bind_promise {A B} (p : promise St A) (f : A -> action St B) :
  preserves I p -> (forall a, keeps I (f a)) -> keeps I (bind_promise p f).
Proof.
  intros Hp Hf. induction p as [a|e| |k IH] using promise_rect'; try by intros s Hs.
  - apply Hf.
  - intros s Hs. split; [done|]. cbn [bind_promise snd preserves].
    intros s' Hs'. destruct (Hp s' Hs') as [H1 H2].
    specialize (IH s'). destruct (k s') as [s'' p']. by apply IH.
Qed.

Lemma keeps_bind {A B} (m : action St A) (f : A -> action St B) :
  keeps I m -> (forall a, keeps I (f a)) -> keeps I (bind m f).
Proof.
  intros Hm Hf s Hs. unfold bind. destruct (Hm s Hs) as [H1 H2].
  destruct (m s) as [s' p]. by apply keeps_bind_promise.
Qed.

Lemma keeps_catch_promise {A} (p : promise St A) h :
  preserves I p -> (forall e, keeps I (h e)) -> keeps I (catch_promise p h).
Proof.
  intros Hp Hh. induction p as [a|e| |k IH] using promise_rect'; try by intros s Hs.
  - apply Hh.
  - intros s Hs. split; [done|]. cbn [catch_promise snd preserves].
    intros s' Hs'. destruct (Hp s' Hs') as [H1 H2].
    specialize (IH s'). destruct (k s') as [s'' p']. by apply IH.
Qed.

Lemma keeps_try_catch {A} (m : action St A) h :
  keeps I m -> (forall e, keeps I (h e)) -> keeps I (try_catch m h).
Proof.
  intros Hm Hh s Hs. unfold try_catch. destruct (Hm s Hs) as [H1 H2].
  destruct (m s) as [s' p]. by apply keeps_catch_promise.
Qed.

Lemma preserves_yield_after {A} (p : promise St A) :
  preserves I p -> preserves I (yield_after p).
Proof.
  induction p as [a|e| |k IH] using promise_rect'.
  1,2: by intros _ s Hs.
  { done. }
  intros Hp s Hs. cbn [preserves] in Hp. destruct (Hp s Hs) as [H1 H2].
  specialize (IH s). destruct (k s) as [s' p']. split; [done|]. by apply IH.
Qed.

Lemma keeps_await {A} (m : action St A) : keeps I m -> keeps I (await m).
Proof.
  intros Hm s Hs. unfold await. destruct (Hm s Hs) as [H1 H2].
  destruct (m s) as [s' p]. split; [done|]. by apply preserves_yield_after.
Qed.

Lemma keeps_for_each {X} (xs : list X) (f : X -> action St unit) :
  (forall x, keeps I (f x)) -> keeps I (for_each xs f).
Proof.
  intros Hf. induction xs as [|x xs IH]; [apply keeps_ret|].
  cbn [for_each]. by apply keeps_bind.
Qed.

Lemma run_promise_keeps {A} (p : promise St A) s :
  preserves I p -> I s -> I (run_promise p s).1.
Proof.
  revert s. induction p as [a|e| |k IH] using promise_rect'; try by intros s _ Hs.
  intros s Hp Hs. cbn [run_promise]. destruct (Hp s Hs) as [H1 H2].
  specialize (IH s). destruct (k s) as [s' p']. by apply IH.
Qed.

Lemma run_keeps {A} (m : action St A) s : keeps I m -> I s -> I (run m s).1.
Proof.
  intros Hm Hs. unfold run. destruct (Hm s Hs) as [H1 H2].
  destruct (m s) as [s' p]. by apply run_promise_keeps.
Qed.
End Keeps.

Section KeepsZoom.
Context {Big St : Type} (get : Big -> St) (set : St -> Big -> Big).
Variable I : St -> Prop.
Variable J : Big -> Prop.
Hypothesis J_get : forall b, J b -> I (get b).
Hypothesis J_set : forall b s, J b -> I s -> J (set s b).

Lemma preserves_zoom {A} (p : promise St A) :
  preserves I p -> preserves J (zoom_promise get set p).
Proof.
  induction p as [a|e| |k IH] using promise_rect'; try done.
  intros Hp b Hb. cbn [preserves] in Hp.
  destruct (Hp (get b) (J_get b Hb)) as [H1 H2].
  specialize (IH (get b)). destruct (k (get b)) as [s' p'].
  split; [by apply J_set|by apply IH].
Qed.

Lemma keeps_zoom {A} (m : action St A) : keeps I m -> keeps J (zoom get set m).
Proof.
  intros Hm b Hb. unfold zoom. destruct (Hm (get b) (J_get b Hb)) as [H1 H2].
  destruct (m (get b)) as [s' p]. split; [by apply J_set|by apply preserves_zoom].
Qed.
End KeepsZoom.

(** ** What a batch keeps *)

(** An invariant [J] of the caller's state together with the shared
    variables: it is enough that storing a result keeps it, and that
    calling the next task and taking its index keeps it and leaves a task
    that keeps it at each of its steps. *)
Section WorkersInvariant.
Context {St R : Type}.
Variable tasks : list (action St R).
Variable J : St * rc_vars R -> Prop.

Local Abbreviation vars := (rc_vars R).
Local Abbreviation lift_task :=
  (zoom_promise (Big := St * vars) fst (fun s '(_, v) => (s, v))).
Local Abbreviation wrapped := (wrapped tasks).

Hypothesis J_store : forall s v cur r, J (s, v) -> J (s, store cur r v).
Hypothesis J_call :
  forall s v task,
    tasks !! index v = Some task -> J (s, v) ->
    J ((task s).1, claim v) /\ preserves J (lift_task (task s).2).

Lemma wrapped_keeps fuel cur :
  keeps J (worker_loop tasks fuel) ->
  forall q, preserves J q -> keeps J (wrapped fuel cur q).
Proof.
  intros Hloop q. induction q as [a|e| |K IH] using promise_rect'; intros Hq [s v] Hsv.
  - rewrite wrapped_ret. apply Hloop. by apply J_store.
  - rewrite wrapped_throw. apply Hloop. by apply J_store.
  - done.
  - destruct (wrapped_await tasks fuel cur K (s, v)) as (K' & -> & HK').
    split; [done|]. intros st' Hst'. rewrite HK'.
    destruct (Hq st' Hst') as [H1 H2]. specialize (IH st').
    destruct (K st') as [st'' q']. by apply IH.
Qed.

Lemma worker_loop_keeps fuel : keeps J (worker_loop tasks fuel).
Proof.
  induction fuel as [|fuel IH]; intros [s v] Hsv; [done|].
  destruct (decide (index v < length tasks)%nat) as [Hlt|Hge].
  - destruct (lookup_lt_is_Some_2 tasks (index v) Hlt) as [task Htask].
    rewrite (worker_loop_claim tasks fuel s v task Hlt Htask).
    destruct (J_call s v task Htask Hsv) as [H1 H2].
    destruct (task s) as [s1 p]. cbn [fst snd] in H1, H2.
    apply wrapped_keeps; [done|by apply preserves_yield_after|done].
  - by rewrite worker_loop_exit by lia.
Qed.

Lemma spawn_keeps count : forall sv,
  J sv -> J (spawn tasks count sv).1 /\
          Forall (preserves J) (spawn tasks count sv).2.
Proof.
  induction count as [|count IH]; intros sv Hsv; [done|].
  cbn [spawn]. destruct (worker_loop_keeps (length tasks) sv Hsv) as [H1 H2].
  change (worker_loop tasks (length tasks) sv) with (worker tasks sv) in *.
  destruct (worker tasks sv) as [sv1 w].
  destruct (IH sv1 H1) as [H3 H4]. destruct (spawn tasks count sv1) as [sv2 ws].
  split; [done|by constructor].
Qed.

Lemma runConcurrent_vars_keeps (concurrency : Z) (sched : list nat) (s : St) :
  J (s, RcVars (replicate (length tasks) None) 0) ->
  J (runConcurrent_vars tasks concurrency sched s).1.2.
Proof.
  intros H0. unfold runConcurrent_vars.
  destruct (spawn_keeps (worker_count tasks concurrency) _ H0) as [H1 H2].
  destruct (spawn tasks _ _) as [sv ws]. cbn [fst snd] in H1, H2.
  destruct (run_pool_inv
              (fun (ws : list (promise (St * vars) unit)) (sv : St * vars) =>
                 Forall (preserves J) ws /\ J sv)) with (sched := sched)
    (ws := ws) (s := sv) as (ws' & [_ Hinv] & _); [|done|].
  { intros ws0 s0 i k [Hall H0'] Hi.
    rewrite Forall_lookup in Hall. pose proof (Hall i _ Hi s0 H0') as [H3 H4].
    split; [|done]. apply Forall_insert; [by apply Forall_lookup|done]. }
  done.
Qed.
End WorkersInvariant.

Section BatchInvariant.
Context {St R : Type}.
Variable tasks : list (action St R).
Variable I : St -> Prop.
Hypothesis Htasks : Forall (keeps I) tasks.

Local Abbreviation vars := (rc_vars R).

(** The invariant on the state of a call: the caller's state is in [I],
    the result array has a slot per task, and the counter is within the
    array or at its end. *)
Local Abbreviation I' :=
  (fun sv : St * vars =>
     I sv.1 /\ length (results sv.2) = length tasks /\
     (index sv.2 <= length tasks)%nat).

Lemma runConcurrent_vars_inv (concurrency : Z) (sched : list nat) (s : St) :
  I s -> I' (runConcurrent_vars tasks concurrency sched s).1.2.
Proof.
  intros Hs. apply (runConcurrent_vars_keeps tasks I').
  - intros s0 v cur r (? & Hlen & ?). split_and!; try done.
    cbn. by rewrite length_insert.
  - intros s0 v task Htask (Hs0 & Hlen & Hidx).
    rewrite Forall_lookup in Htasks. destruct (Htasks _ _ Htask s0 Hs0) as [H1 H2].
    apply lookup_lt_Some in Htask. split.
    + split_and!; [done|done|]. cbn. unfold action in *. lia.
    + apply (preserves_zoom fst (fun s '(_, v) => (s, v)) I I');
        [by intros b [? ?]| |done].
      intros [s1 v1] s2 [_ Hrest] Hs2. done.
  - split_and!; [done|apply length_replicate|cbn; lia].
Qed.

Lemma runConcurrent_keeps (concurrency : Z) (sched : list nat) (s : St) :
  I s -> I (runConcurrent tasks concurrency sched s).1.2.
Proof.
  intros Hs. pose proof (runConcurrent_vars_inv concurrency sched s Hs) as Hinv.
  unfold runConcurrent.
  destruct (runConcurrent_vars tasks concurrency sched s) as [[sched' [s' v']] o].
  by destruct Hinv.
Qed.

(** X11: A property of the state that every task keeps, at each of its steps,
    holds when the batch stops, whatever the limit and the schedule and
    however the batch ends; and the array that a batch resolves with has
    one slot per task. *)
Theorem runConcurrent_keeps_invariant (concurrency : Z) (sched : list nat) (s : St) :
  I s ->
  I (runConcurrent tasks concurrency sched s).1.2 /\
  forall rs, (runConcurrent tasks concurrency sched s).2 = Resolved rs ->
             length rs = length tasks.
Proof.
  intros Hs. pose proof (runConcurrent_vars_inv concurrency sched s Hs) as Hinv.
  unfold runConcurrent.
  destruct (runConcurrent_vars tasks concurrency sched s) as [[sched' [s' v']] o].
  cbn [fst snd] in *. destruct Hinv as (Hs' & Hlen & _). split; [done|].
  intros rs. destruct o; intros [= <-]. done.
Qed.
End BatchInvariant.

(** ** The calls of the tasks of a batch *)

Section CallsOfTasks.
Context {St R : Type}.
Variable tasks : list (action St R).

Local Abbreviation vars := (rc_vars R).

Lemma logged_lookup i (task' : action (St * list nat) R) :
  logged tasks !! i = Some task' ->
  exists task, tasks !! i = Some task /\ task' = logged_task i task.
Proof.
  unfold logged. rewrite list_lookup_imap.
  destruct (tasks !! i) as [task|]; [|done]. intros [= <-]. by exists task.
Qed.

Lemma length_logged : length (logged tasks) = length tasks.
Proof. apply length_imap. Qed.

(** A logged task settles as the task does. *)
Lemma settles_logged b Q (p : promise St R) :
  settles b Q p ->
  settles b Q (zoom_promise (Big := St * list nat) fst (fun s' '(_, l) => (s', l)) p).
Proof.
  revert p. induction b as [|b IH]; intros [a|e| |k]; cbn; try done.
  intros Hk [s l]. specialize (Hk s). cbn [fst]. destruct (k s) as [s' p']. by apply IH.
Qed.

Section Log.
Variable log : list nat.

(** The log holds, after what it held before the call, the indices below
    the counter, in order. *)
Local Abbreviation in_step :=
  (fun sv : St * list nat * vars =>
     sv.1.2 = log ++ seq 0 (index sv.2) /\
     length (results sv.2) = length tasks /\
     (index sv.2 <= length tasks)%nat).

Lemma preserves_log (p : promise St R) :
  preserves in_step
    (zoom_promise (Big := St * list nat * vars) fst (fun s '(_, v) => (s, v))
       (zoom_promise (Big := St * list nat) fst (fun s' '(_, l) => (s', l)) p)).
Proof.
  induction p as [a|e| |k IH] using promise_rect'; try done.
  intros [[s l] v] Hsv. cbn [zoom_promise fst]. specialize (IH s).
  destruct (k s) as [s' p']. split; [done|apply IH].
Qed.

Lemma runConcurrent_vars_log (concurrency : Z) (sched : list nat) (s : St) :
  in_step (runConcurrent_vars (logged tasks) concurrency sched (s, log)).1.2.
Proof.
  apply (runConcurrent_vars_keeps (logged tasks) in_step).
  - intros s0 v cur r (? & Hlen & ?). split_and!; try done.
    cbn. by rewrite length_insert.
  - intros [s0 l] v task' Htask' (Hl & Hlen & Hidx). cbn [fst snd] in Hl.
    destruct (logged_lookup _ _ Htask') as (task & Htask & ->).
    apply lookup_lt_Some in Htask. unfold logged_task, zoom. cbn [fst].
    destruct (task s0) as [s1 p]. cbn [fst snd]. split; [|apply preserves_log].
    split_and!; cbn [claim index results fst snd].
    + by rewrite seq_S, app_assoc, Hl.
    + done.
    + unfold action in *. lia.
  - split_and!; cbn; [by rewrite app_nil_r|by rewrite length_replicate, length_logged|lia].
Qed.
End Log.

(** X12: At whatever point a batch stops or is cut short, whatever the limit
    and the order in which the workers are resumed, the tasks called so far
    are the first [k] tasks of the array for some [k], each called once and
    in the order of the array; no call is made beyond the end of the
    array. *)
Theorem runConcurrent_calls_tasks_once_in_order
    (concurrency : Z) (sched : list nat) (s : St) (log : list nat) :
  exists k, (k <= length tasks)%nat /\
    (runConcurrent (logged tasks) concurrency sched (s, log)).1.2.2 =
      log ++ seq 0 k.
Proof.
  pose proof (runConcurrent_vars_log log concurrency sched s) as (Hlog & _ & Hk).
  unfold runConcurrent.
  destruct (runConcurrent_vars (logged tasks) concurrency sched (s, log))
    as [[sched' [[s' l'] v]] o]. cbn [fst snd] in *.
  by exists (index v).
Qed.

Variable post : nat -> slot R -> Prop.
Variable B : nat.

(** C6: with a limit of at least 1 and [n] tasks that all settle, whatever
    the order in which the scheduler resumes the workers, [runConcurrent]
    resolves with an array of [n] slots in which slot [i] holds the outcome
    of [tasks[i]], the value it returned or [{ error: e }] for what it
    threw; and with tasks that each note their call in a log, the log
    shows every task called exactly once, in the order of the array. *)
Theorem runConcurrent_index_aligned (concurrency : Z) (sched : list nat)
    (s : St) (log : list nat) :
  (forall i task, tasks !! i = Some task ->
                  forall s, settles B (post i) (task s).2) ->
  1 <= concurrency ->
  (length tasks * S B <= length sched)%nat ->
  (exists sched' s' rs,
      runConcurrent tasks concurrency sched s = (sched', s', Resolved rs) /\
      length rs = length tasks /\
      forall i, (i < length tasks)%nat ->
                exists r, rs !! i = Some (Some r) /\ post i r) /\
  (exists sched' s' rs,
      runConcurrent (logged tasks) concurrency sched (s, log) =
        (sched', (s', log ++ seq 0 (length tasks)), Resolved rs) /\
      length rs = length tasks /\
      forall i, (i < length tasks)%nat ->
                exists r, rs !! i = Some (Some r) /\ post i r).
Proof.
  intros Htasks Hc Hsched. split.
  - destruct (runConcurrent_vars_ok tasks post B Htasks concurrency sched s Hc Hsched)
      as (sched' & s' & v & vals & Heq & Hlen & _ & Hall).
    exists sched', s', (results v). unfold runConcurrent. by rewrite Heq.
  - assert (Hlogged : forall i task', logged tasks !! i = Some task' ->
                        forall sl, settles B (post i) (task' sl).2).
    { intros i task' Htask' [s0 l].
      destruct (logged_lookup _ _ Htask') as (task & Htask & ->).
      pose proof (Htasks i task Htask s0) as Hp.
      unfold logged_task, zoom. cbn [fst]. destruct (task s0) as [s1 p].
      by apply settles_logged. }
    pose proof (runConcurrent_vars_log log concurrency sched s) as (Hlog & _ & _).
    destruct (runConcurrent_vars_ok (logged tasks) post B Hlogged concurrency sched
                (s, log) Hc ltac:(by rewrite length_logged))
      as (sched' & [s' l'] & v & vals & Heq & Hlen & Hidx & Hall).
    rewrite Heq in Hlog. cbn [fst snd] in Hlog.
    rewrite length_logged in *. rewrite Hidx in Hlog. subst l'.
    exists sched', s', (results v). unfold runConcurrent. by rewrite Heq.
Qed.
End CallsOfTasks.

(** ** A batch that resolves, whatever its tasks *)

Section Resolved.
Context {St R : Type}.
Variable tasks : list (action St R).
Variable post : nat -> slot R -> Prop.
Hypothesis Htasks :
  forall i task, tasks !! i = Some task ->
                 forall s, ends_in (post i) (task s).2.

Local Abbreviation vars := (rc_vars R).
Local Abbreviation lift_task :=
  (zoom_promise (Big := St * vars) fst (fun s '(_, v) => (s, v))).
Local Abbreviation wrapped := (wrapped tasks).
Local Abbreviation Wp := (Wp tasks post).
Local Abbreviation loop_sound := (loop_sound tasks post).
Local Abbreviation pool_sound := (pool_sound tasks post).

Lemma wp_store_intro fuel cur r K :
  loop_sound fuel ->
  post cur r ->
  (forall s v, K (s, v) = worker_loop tasks fuel (s, store cur r v)) ->
  Wp fuel cur (Await K).
Proof.
  intros Hloop Hr HK. apply Wp_store with (r := r); [done|].
  intros s v Hfuel. rewrite HK. split.
  - intros Hlt.
    destruct (Hloop s (store cur r v) Hfuel Hlt) as (s' & p' & Heq & Hwp).
    exists s', p'. by split.
  - intros Hge. by apply worker_loop_exit.
Qed.

Lemma wrapped_sound fuel cur :
  loop_sound fuel ->
  forall p, ends_in (post cur) p ->
  forall st, exists q,
    wrapped fuel cur (yield_after (lift_task p)) st = (st, q) /\ Wp fuel cur q.
Proof.
  intros Hloop p.
  induction p as [a|e| |k IH] using promise_rect'; intros Hp st;
    cbn [ends_in] in Hp; cbn [yield_after zoom_promise].
  3: { eexists. split; [reflexivity|apply Wp_hang]. }
  all: match goal with
       | |- context [wrapped _ _ (Await ?K) _] =>
           destruct (wrapped_await tasks fuel cur K st) as (K' & -> & HK')
       end;
       (eexists; split; [reflexivity|]).
  - apply wp_store_intro with (r := Value a); [done..|].
    intros s v. by rewrite HK', wrapped_ret.
  - apply wp_store_intro with (r := ErrorObj e); [done..|].
    intros s v. by rewrite HK', wrapped_throw.
  - apply Wp_run. intros s v. rewrite HK'. cbn [fst].
    specialize (Hp s). specialize (IH s). destruct (k s) as [s1 p1]. cbn [snd] in Hp, IH.
    destruct (IH Hp (s1, v)) as (q & Heq & Hwp).
    exists s1, q. by split.
Qed.

Lemma worker_loop_sound fuel : loop_sound fuel.
Proof.
  induction fuel as [|fuel IH]; intros s v Hfuel Hlt; [simpl in *; lia|].
  destruct (lookup_lt_is_Some_2 tasks (index v) Hlt) as [task Htask].
  rewrite (worker_loop_claim _ _ _ _ _ Hlt Htask).
  pose proof (Htasks _ _ Htask s) as Hp.
  destruct (task s) as [s1 p]. cbn [snd] in Hp.
  destruct (wrapped_sound fuel (index v) IH p Hp (s1, claim v)) as (q & Heq & Hwp).
  exists s1, q. split; [done|]. by rewrite Nat.sub_1_r.
Qed.

Lemma wp_suspended fuel cur w a : ~ Wp fuel cur (Ret a) /\ (Wp fuel cur w -> w <> Ret a).
Proof. split; [inversion 1|]. intros Hw ->. inversion Hw. Qed.

Lemma worker_sound_mono v v' st w :
  (index v <= index v')%nat ->
  worker_sound tasks post v st w -> worker_sound tasks post v' st w.
Proof.
  intros Hle. destruct st as [|fuel b cur]; simpl.
  - intros [-> ?]. split; [done|lia].
  - intros (? & ? & ?). split_and!; [done|lia..].
Qed.

Lemma completed_stored (v : vars) cur r i :
  (cur < length (results v))%nat ->
  post cur r ->
  i = cur \/ completed post v i ->
  completed post (store cur r v) i.
Proof.
  intros Hlen Hr Hi. unfold completed, store. cbn [results].
  destruct (decide (i = cur)) as [->|Hne].
  - exists r. by rewrite list_lookup_insert_eq.
  - destruct Hi as [?|(r' & Hr' & ?)]; [done|].
    exists r'. by rewrite list_lookup_insert_ne.
Qed.

(** A resumption keeps the pool sound. *)
Lemma pool_sound_step sts ws s v i k :
  pool_sound sts ws v ->
  ws !! i = Some (Await k) ->
  exists sts', pool_sound sts' (<[i := (k (s, v)).2]> ws) (k (s, v)).1.2.
Proof.
  intros (Hlen & Hidx & HF & Hne & Hdone) Hw.
  destruct (Forall2_lookup_r _ _ _ _ _ HF Hw) as (st & Hst & Hok).
  destruct st as [|fuel b cur]; [by destruct Hok|].
  destruct Hok as (Hwp & Hfuel & Hcur).
  assert (Hnonempty : forall st', <[i := st']> sts = [] -> length tasks = 0%nat).
  { intros st' Hnil. apply Hne. destruct sts; [done|]. by destruct i. }
  inversion Hwp as [|fuel' cur' k' Hk|fuel' cur' k' r Hr Hk]; subst.
  - (* the task goes on *)
    destruct (Hk s v) as (s' & p' & -> & Hwp'). cbn [fst snd].
    exists (<[i := WBusy fuel b cur]> sts). split_and!; try done.
    + apply Forall2_insert; [done|]. by split_and!.
    + apply Hnonempty.
    + intros c Hc. destruct (Hdone c Hc) as [(j & f & b0 & Hj)|?]; [|by right].
      left. destruct (decide (j = i)) as [->|Hnj].
      * simplify_eq. exists i, fuel, b.
        rewrite list_lookup_insert_eq; [done|]. by eapply lookup_lt_Some.
      * exists j, f, b0. by rewrite list_lookup_insert_ne.
  - (* the outcome is stored *)
    destruct (Hk s v Hfuel) as [Hclaim Hexit].
    assert (Hlt : (cur < length (results v))%nat) by lia.
    destruct (decide (index v < length tasks)%nat) as [Hi|Hi].
    + destruct (Hclaim Hi) as (s' & p' & -> & Hwp'). cbn [fst snd].
      exists (<[i := WBusy (fuel - 1) 0 (index v)]> sts).
      split_and!; cbn [claim store results index].
      * by rewrite length_insert.
      * lia.
      * apply Forall2_insert.
        -- eapply Forall2_impl; [exact HF|]. intros st w.
           apply worker_sound_mono. simpl. lia.
        -- simpl. split_and!; [done|lia..].
      * apply Hnonempty.
      * intros c Hc.
        destruct (decide (c = index v)) as [->|Hnc].
        { left. exists i, (fuel - 1)%nat, 0%nat.
          rewrite list_lookup_insert_eq; [done|]. by eapply lookup_lt_Some. }
        destruct (Hdone c ltac:(lia)) as [(j & f & b0 & Hj)|Hc'].
        -- destruct (decide (j = i)) as [->|Hnj].
           ++ simplify_eq. right.
              apply (completed_stored v cur r cur); auto.
           ++ left. exists j, f, b0. by rewrite list_lookup_insert_ne.
        -- right. apply (completed_stored v cur r c); auto.
    + rewrite (Hexit ltac:(lia)). cbn [fst snd].
      exists (<[i := WDone]> sts).
      split_and!; cbn [store results index].
      * by rewrite length_insert.
      * done.
      * apply Forall2_insert; [|simpl; split; [done|lia]].
        eapply Forall2_impl; [exact HF|]. intros st w.
        apply worker_sound_mono. simpl. lia.
      * apply Hnonempty.
      * intros c Hc.
        destruct (Hdone c Hc) as [(j & f & b0 & Hj)|Hc'].
        -- destruct (decide (j = i)) as [->|Hnj].
           ++ simplify_eq. right.
              apply (completed_stored v cur r cur); auto.
           ++ left. exists j, f, b0. by rewrite list_lookup_insert_ne.
        -- right. apply (completed_stored v cur r c); auto.
Qed.

Lemma spawn_sound count :
  forall s v,
    (index v + count <= length tasks)%nat ->
    exists s' ws,
      let v' := RcVars (results v) (index v + count) in
      spawn tasks count (s, v) = ((s', v'), ws) /\
      Forall2 (worker_sound tasks post v')
              ((fun cur => WBusy (length tasks - 1) 0 cur) <$> seq (index v) count) ws.
Proof.
  induction count as [|count IH]; intros s v Hle.
  - exists s, []. cbn. rewrite Nat.add_0_r.
    destruct v. split; [done|constructor].
  - cbn [spawn]. unfold worker.
    destruct (worker_loop_sound (length tasks) s v ltac:(lia) ltac:(lia))
      as (s1 & p1 & -> & Hwp).
    destruct (IH s1 (claim v)) as (s2 & ws & Heq & HF); [simpl; lia|].
    cbn [claim results index] in Heq, HF. rewrite Heq.
    exists s2, (p1 :: ws). cbn zeta.
    replace (S (index v) + count)%nat with (index v + S count)%nat in * by lia.
    split; [done|]. cbn [seq fmap list_fmap].
    constructor; [|done]. simpl. split_and!; [done|lia..].
Qed.

(** When the batch resolves, every slot holds the outcome of its task. *)
Lemma runConcurrent_vars_sound (concurrency : Z) sched s :
  1 <= concurrency ->
  forall vals,
    (runConcurrent_vars tasks concurrency sched s).2 = AllFulfilled vals ->
    all_recorded tasks post (runConcurrent_vars tasks concurrency sched s).1.2.2.
Proof.
  intros Hc. unfold runConcurrent_vars.
  set (count := worker_count tasks concurrency).
  assert (count <= length tasks)%nat as Hcount by (unfold count, worker_count; lia).
  assert (length tasks = 0%nat \/ 1 <= count)%nat as Hpos
      by (unfold count, worker_count; lia).
  destruct (spawn_sound count s (RcVars (replicate (length tasks) None) 0))
    as (s1 & ws & Heq & HF); [simpl; lia|].
  cbn [results index] in Heq, HF. cbn zeta in Heq. rewrite Heq.
  destruct (run_pool_inv
              (fun (ws : list (promise (St * vars) unit)) (sv : St * vars) =>
                 exists sts, pool_sound sts ws sv.2)) with (sched := sched)
    (ws := ws) (s := (s1, RcVars (R := R) (replicate (length tasks) None) (0 + count)))
    as (ws' & (sts & Hlen & Hidx & HF' & Hne & Hdone) & Hend).
  { intros ws0 [s0 v0] i k [sts Hsts] Hi.
    destruct (pool_sound_step sts ws0 s0 v0 i k Hsts Hi) as [sts' Hsts'].
    by exists sts'. }
  { eexists. split_and!; cbn [results index snd]; [by rewrite length_replicate|lia|exact HF| |].
    - destruct count; [lia|done].
    - intros cur Hcur. left. exists cur, (length tasks - 1)%nat, 0%nat.
      rewrite list_lookup_fmap. by rewrite (lookup_seq_lt _ _ _ Hcur). }
  intros vals Hvals. rewrite Hvals in Hend.
  assert (Hall : forall i st, sts !! i = Some st -> st = WDone).
  { intros i st Hst.
    destruct (Forall2_lookup_l _ _ _ _ _ HF' Hst) as (w & Hw & Hok).
    destruct st as [|fuel b cur]; [done|].
    destruct Hok as (Hwp & _).
    rewrite Forall_lookup in Hend. destruct (Hend _ _ Hw) as [[] ->].
    inversion Hwp. }
  assert (Hn : index (run_pool sched ws
                        (s1, RcVars (replicate (length tasks) None) (0 + count))).1.2.2
               = length tasks).
  { destruct sts as [|st sts]; [rewrite Hne in * by done; lia|].
    pose proof (Hall 0%nat st eq_refl) as ->.
    apply Forall2_cons_inv_l in HF' as (w & ws'' & [_ ?] & _ & _). lia. }
  split_and!; [done|done|].
  intros i Hi. destruct (Hdone i ltac:(lia)) as [(j & f & b & Hj)|?]; [|done].
  by specialize (Hall _ _ Hj).
Qed.
End Resolved.

Section ResolvedBatch.
Context {St R : Type}.
Variable tasks : list (action St R).
Variable post : nat -> slot R -> Prop.

Lemma ends_in_logged Q (p : promise St R) :
  ends_in Q p ->
  ends_in Q (zoom_promise (Big := St * list nat) fst (fun s' '(_, l) => (s', l)) p).
Proof.
  induction p as [a|e| |k IH] using promise_rect'; cbn; try done.
  intros Hk [s l]. specialize (Hk s). specialize (IH s). cbn [fst].
  destruct (k s) as [s' p']. by apply IH.
Qed.

(** X25: With a limit of at least 1, whatever the tasks do and whether or
    not they all settle, and whatever the order in which the workers are
    resumed: if [runConcurrent] resolves, its array has [tasks.length]
    slots, slot [i] holds what [tasks[i]] settled with, and, with tasks that
    note their calls in a log, every task has been called exactly once, in
    the order of the array. *)
Theorem runConcurrent_resolves_complete (concurrency : Z) (sched : list nat)
    (s : St) (log : list nat) :
  (forall i task, tasks !! i = Some task ->
                  forall s, ends_in (post i) (task s).2) ->
  1 <= concurrency ->
  (forall sched' s' rs,
      runConcurrent tasks concurrency sched s = (sched', s', Resolved rs) ->
      length rs = length tasks /\
      forall i, (i < length tasks)%nat ->
                exists r, rs !! i = Some (Some r) /\ post i r) /\
  (forall sched' s' log' rs,
      runConcurrent (logged tasks) concurrency sched (s, log) =
        (sched', (s', log'), Resolved rs) ->
      log' = log ++ seq 0 (length tasks) /\
      length rs = length tasks /\
      forall i, (i < length tasks)%nat ->
                exists r, rs !! i = Some (Some r) /\ post i r).
Proof.
  intros Htasks Hc. split.
  - intros sched' s' rs. unfold runConcurrent.
    pose proof (runConcurrent_vars_sound tasks post Htasks concurrency sched s Hc)
      as Hsound.
    destruct (runConcurrent_vars tasks concurrency sched s) as [[sched0 [s0 v]] o].
    cbn [fst snd] in Hsound. destruct o as [vals| | |]; intros [= <- <- <-].
    destruct (Hsound vals eq_refl) as (Hlen & _ & Hall). done.
  - assert (Hlogged : forall i task', logged tasks !! i = Some task' ->
                        forall sl, ends_in (post i) (task' sl).2).
    { intros i task' Htask' [s0 l].
      destruct (logged_lookup tasks _ _ Htask') as (task & Htask & ->).
      pose proof (Htasks i task Htask s0) as Hp.
      unfold logged_task, zoom. cbn [fst]. destruct (task s0) as [s1 p].
      by apply ends_in_logged. }
    intros sched' s' log' rs. unfold runConcurrent.
    pose proof (runConcurrent_vars_log tasks log concurrency sched s) as (Hlog & _ & _).
    pose proof (runConcurrent_vars_sound (logged tasks) post Hlogged concurrency sched
                  (s, log) Hc) as Hsound.
    destruct (runConcurrent_vars (logged tasks) concurrency sched (s, log))
      as [[sched0 [[s0 l0] v]] o].
    cbn [fst snd] in Hsound, Hlog. destruct o as [vals| | |]; intros [= <- <- <- <-].
    destruct (Hsound vals eq_refl) as (Hlen & Hidx & Hall).
    rewrite length_logged in *. rewrite Hidx in Hlog. done.
Qed.
End ResolvedBatch.

(** ** A task that never settles *)

Section Hanging.
Context {St R : Type}.
Variable tasks : list (action St R).

Local Abbreviation vars := (rc_vars R).
Local Abbreviation lift_task :=
  (zoom_promise (Big := St * vars) fst (fun s '(_, v) => (s, v))).
Local Abbreviation wrapped := (wrapped tasks).

Lemma hangs_lift (p : promise St R) :
  hangs p -> hangs (yield_after (lift_task p)).
Proof.
  induction 1 as [|k _ IH]; [constructor|].
  cbn [zoom_promise yield_after]. constructor. intros [s v]. cbn [fst].
  specialize (IH s). by destruct (k s).
Qed.

Lemma wrapped_hangs fuel cur q :
  hangs q -> forall st, hangs (wrapped fuel cur q st).2.
Proof.
  induction 1 as [|K _ IH]; intros st; [constructor|].
  destruct (wrapped_await tasks fuel cur K st) as (K' & -> & HK').
  constructor. intros st'. rewrite HK'. specialize (IH st').
  destruct (K st') as [st'' q']. apply IH.
Qed.

Lemma spawn_hanging count : forall s v i task,
  (i < count)%nat ->
  tasks !! (index v + i)%nat = Some task ->
  (forall s, hangs (task s).2) ->
  exists p, (spawn tasks count (s, v)).2 !! i = Some p /\ hangs p.
Proof.
  induction count as [|count IH]; intros s v i task Hi Htask Hhang; [lia|].
  assert (Hlt : (index v < length tasks)%nat).
  { apply lookup_lt_Some in Htask. unfold action in *. lia. }
  assert (Hlen : length tasks = S (length tasks - 1)) by lia.
  cbn [spawn]. unfold worker. rewrite Hlen.
  pose proof (worker_loop_claimed tasks (length tasks - 1) s v Hlt) as Hclaim.
  destruct i as [|i].
  - rewrite Nat.add_0_r in Htask.
    rewrite (worker_loop_claim tasks _ s v task Hlt Htask) in *.
    specialize (Hhang s). destruct (task s) as [s1 p]. cbn [snd] in Hhang.
    pose proof (wrapped_hangs (length tasks - 1) (index v) _ (hangs_lift p Hhang)
                  (s1, claim v)) as Hw.
    destruct (wrapped _ _ _ _) as [sv1 w].
    destruct (spawn tasks count sv1) as [sv2 ws]. by exists w.
  - destruct (worker_loop tasks _ (s, v)) as [[s1 v1] w]. cbn [fst snd] in Hclaim.
    subst v1. 
    destruct (IH s1 (claim v) i task) as (p & Hp & Hh); [lia| |done|].
    { cbn [claim index]. by rewrite Nat.add_succ_comm. }
    destruct (spawn tasks count (s1, claim v)) as [sv2 ws]. by exists p.
Qed.

(** X13: A batch in which one of the tasks that the workers start with never
    settles does not resolve, and does not reject either: the caller waits
    for ever. *)
Theorem runConcurrent_hanging_task_blocks (i : nat) (task : action St R)
    (concurrency : Z) (sched : list nat) (s : St) :
  tasks !! i = Some task ->
  (forall s, hangs (task s).2) ->
  Z.of_nat i < concurrency ->
  let o := (runConcurrent tasks concurrency sched s).2 in
  o = NeverResolves \/ o = RcOutOfSchedule.
Proof.
  intros Htask Hhang Hi. cbn zeta.
  unfold runConcurrent, runConcurrent_vars.
  set (vars0 := RcVars _ _).
  destruct (spawn_hanging (worker_count tasks concurrency) s vars0 i task)
    as (p & Hp & Hh); [|done|done|].
  { apply lookup_lt_Some in Htask. unfold worker_count, action in *. lia. }
  pose proof (spawn_Forall tasks no_throw (fun sv => worker_loop_no_throw tasks _ sv)
                (worker_count tasks concurrency) (s, vars0)) as Hws.
  destruct (spawn tasks _ (s, vars0)) as [sv ws]. cbn [snd] in Hp, Hws.
  pose proof (run_pool_no_throw ws sched sv Hws) as Hnt.
  destruct (run_pool_inv
              (fun (ws : list (promise (St * vars) unit)) (_ : St * vars) =>
                 exists p, ws !! i = Some p /\ hangs p)) with (sched := sched)
    (ws := ws) (s := sv) as (ws' & (p' & Hp' & Hh') & Hout); [|by exists p|].
  { intros ws0 s0 j k (p0 & Hp0 & Hh0) Hj.
    destruct (decide (i = j)) as [<-|Hne].
    - rewrite Hp0 in Hj. injection Hj as ->. inversion Hh0 as [|k' Hk]; subst.
      exists (k s0).2. split; [|done].
      apply list_lookup_insert_eq. by apply lookup_lt_Some in Hp0.
    - exists p0. split; [|done]. by rewrite list_lookup_insert_ne. }
  destruct (run_pool sched ws sv) as [[sched' [s' v']] o]. cbn [fst snd] in *.
  destruct o as [vs|e'| |]; [exfalso|done|by left|by right].
  rewrite Forall_lookup in Hout. destruct (Hout i p' Hp') as [a ->].
  inversion Hh'.
Qed.
End Hanging.

(** ** One worker *)

Section OneWorker.
Context {St R : Type}.
Variable tasks : list (action St R).

Local Abbreviation vars := (rc_vars R).

Lemma run_worker_task (task : action St R) fuel s (v : vars) :
  (index v < length tasks)%nat ->
  tasks !! index v = Some task ->
  run (worker_loop tasks (S fuel)) (s, v) =
  match run task s with
  | (s1, Fulfilled a) =>
      run (worker_loop tasks fuel) (s1, store (index v) (Value a) (claim v))
  | (s1, Rejected e) =>
      run (worker_loop tasks fuel) (s1, store (index v) (ErrorObj e) (claim v))
  | (s1, Unsettled) => ((s1, claim v), Unsettled)
  end.
Proof.
  intros Hlt Htask.
  assert (worker_loop tasks (S fuel) (s, v) =
          (try_catch
             (do r <- await (call_task tasks (index v));
              set_result (index v) (Value r))
             (fun e => set_result (index v) (ErrorObj e));;
           worker_loop tasks fuel) (s, claim v)) as Hstep.
  { cbn [worker_loop]. apply Nat.ltb_lt in Hlt. by rewrite Hlt. }
  unfold run at 1. rewrite Hstep.
  match goal with
  | |- (let (s', p) := ?X ?st in run_promise p s') = _ =>
      change (run X st = (match run task s with
                          | (s1, Fulfilled a) =>
                              run (worker_loop tasks fuel)
                                  (s1, store (index v) (Value a) (claim v))
                          | (s1, Rejected e) =>
                              run (worker_loop tasks fuel)
                                  (s1, store (index v) (ErrorObj e) (claim v))
                          | (s1, Unsettled) => ((s1, claim v), Unsettled)
                          end))
  end.
  rewrite run_bind, run_try_catch, run_bind, run_await.
  unfold call_task. rewrite Htask.
  rewrite (run_zoom fst (fun s '(_, v) => (s, v)))
    by (by intros; repeat match goal with b : _ * _ |- _ => destruct b end).
  cbn [fst]. destruct (run task s) as [s1 [a|e|]]; reflexivity.
Qed.

Lemma take_S_insert {X} (l : list X) i x :
  (i < length l)%nat -> take (S i) (<[i := x]> l) = take i l ++ [x].
Proof.
  intros Hi. rewrite (take_S_r _ _ x) by (by apply list_lookup_insert_eq).
  by rewrite take_insert_ge by lia.
Qed.

Lemma run_worker_in_turn fuel : forall s (v : vars) s' rs,
  (length tasks <= fuel + index v)%nat ->
  length (results v) = length tasks ->
  run_in_turn (drop (index v) tasks) s = Some (s', rs) ->
  exists v',
    run (worker_loop tasks fuel) (s, v) = ((s', v'), Fulfilled tt) /\
    results v' = take (index v) (results v) ++ (Some <$> rs).
Proof.
  induction fuel as [|fuel IH]; intros s v s' rs Hfuel Hlen Hrun.
  - rewrite drop_ge in Hrun by (unfold action in *; lia).
    injection Hrun as <- <-. exists v. split; [done|].
    rewrite take_ge by (unfold action in *; lia). by rewrite app_nil_r.
  - destruct (decide (index v < length tasks)%nat) as [Hlt|Hge].
    + destruct (lookup_lt_is_Some_2 tasks (index v) Hlt) as [task Htask].
      rewrite (drop_S _ _ _ Htask) in Hrun. cbn [run_in_turn] in Hrun.
      rewrite (run_worker_task task fuel s v Hlt Htask).
      destruct (run task s) as [s1 [a|e|]]; [| |done].
      * destruct (run_in_turn _ s1) as [[s'' rs']|] eqn:Hrest; [|done].
        injection Hrun as <- <-.
        destruct (IH s1 (store (index v) (Value a) (claim v)) s'' rs')
          as (v' & Hv' & Hres); [cbn; lia|cbn; by rewrite length_insert|done|].
        exists v'. split; [done|]. rewrite Hres. cbn [store claim results index].
        rewrite take_S_insert by (unfold action in *; lia).
        by rewrite <- app_assoc.
      * destruct (run_in_turn _ s1) as [[s'' rs']|] eqn:Hrest; [|done].
        injection Hrun as <- <-.
        destruct (IH s1 (store (index v) (ErrorObj e) (claim v)) s'' rs')
          as (v' & Hv' & Hres); [cbn; lia|cbn; by rewrite length_insert|done|].
        exists v'. split; [done|]. rewrite Hres. cbn [store claim results index].
        rewrite take_S_insert by (unfold action in *; lia).
        by rewrite <- app_assoc.
    + rewrite drop_ge in Hrun by (unfold action in *; lia).
      injection Hrun as <- <-. exists v.
      unfold run. rewrite worker_loop_exit by lia. split; [done|].
      rewrite take_ge by (unfold action in *; lia). by rewrite app_nil_r.
Qed.

(** X14: With a limit of 1 the tasks run one after the other, in the order of
    the array: every task starts in the state that the task before it left
    when it settled, and the batch resolves with their outcomes in that
    order. *)
Theorem runConcurrent_one_at_a_time (s s' : St) (rs : list (slot R)) :
  run_in_turn tasks s = Some (s', rs) ->
  exists n, forall sched,
    (n <= length sched)%nat ->
    runConcurrent tasks 1 sched s = (drop n sched, s', Resolved (Some <$> rs)).
Proof.
  intros Hrun. destruct tasks as [|task0 rest] eqn:Htasks.
  { injection Hrun as <- <-. exists 0%nat. intros sched _.
    unfold runConcurrent, runConcurrent_vars.
    replace (worker_count [] 1) with 0%nat by (unfold worker_count; cbn; lia).
    rewrite drop_0. by destruct sched. }
  rewrite <- Htasks in *.
  set (vars0 := RcVars (R := R) (replicate (length tasks) None) 0).
  destruct (run_worker_in_turn (length tasks) s vars0 s' rs)
    as (v' & Hv' & Hres); [cbn; lia|apply length_replicate|done|].
  cbn [index take app] in Hres.
  unfold run in Hv'.
  change (worker_loop tasks (length tasks)) with (worker tasks) in Hv'.
  destruct (worker tasks (s, vars0)) as [sv1 w] eqn:Hw.
  destruct (run_pool_alone w sv1) as [n Hn]. exists n. intros sched Hlen.
  unfold runConcurrent, runConcurrent_vars.
  replace (worker_count tasks 1) with 1%nat
    by (unfold worker_count; rewrite Htasks; cbn [length]; lia).
  fold vars0. cbn [spawn]. rewrite Hw, (Hn sched Hlen), Hv'. cbn. by rewrite Hres.
Qed.
End OneWorker.

(** ** The limit of a batch *)

Section InFlightProofs.
Context {St R : Type}.
Variable tasks : list (action St R).

Local Abbreviation vars := (rc_vars R).
Local Abbreviation lift_task :=
  (zoom_promise (Big := St * vars) fst (fun s '(_, v) => (s, v))).
Local Abbreviation wrapped := (wrapped tasks).
Local Abbreviation busy := (busy tasks).
Local Abbreviation worker_fits := (worker_fits tasks).
Local Abbreviation in_flight_inv := (in_flight_inv tasks).

Lemma filled_insert (l : list (option (slot R))) i r :
  l !! i = Some None -> filled (<[i := Some r]> l) = S (filled l).
Proof.
  unfold filled. revert i. induction l as [|o l IH]; intros [|i] Hi;
    simplify_eq/=; [done|].
  specialize (IH i Hi). destruct o; cbn; by rewrite IH.
Qed.

Lemma filled_replicate n : filled (replicate n (@None (slot R))) = 0%nat.
Proof. unfold filled. by induction n. Qed.

Lemma in_flight_le sts : (sum_list_with in_flight sts <= length sts)%nat.
Proof.
  induction sts as [|[|fuel cur] sts IH]; cbn; lia.
Qed.

Lemma busy_wrapped fuel cur (q : promise St R) : forall st,
  busy fuel cur (wrapped fuel cur (yield_after (lift_task q)) st).2.
Proof.
  induction q as [a|e| |k IH] using promise_rect'; intros st.
  - cbn [zoom_promise yield_after].
    match goal with |- context [wrapped _ _ (Await ?K0) _] =>
      destruct (wrapped_await tasks fuel cur K0 st) as (K' & -> & HK') end.
    constructor. intros s v. right. exists s, (Value a).
    by rewrite HK', wrapped_ret.
  - cbn [zoom_promise yield_after].
    match goal with |- context [wrapped _ _ (Await ?K0) _] =>
      destruct (wrapped_await tasks fuel cur K0 st) as (K' & -> & HK') end.
    constructor. intros s v. right. exists s, (ErrorObj e).
    by rewrite HK', wrapped_throw.
  - constructor.
  - cbn [zoom_promise yield_after].
    match goal with |- context [wrapped _ _ (Await ?K0) _] =>
      destruct (wrapped_await tasks fuel cur K0 st) as (K' & -> & HK') end.
    constructor. intros s v. left. rewrite HK'. cbn [fst].
    specialize (IH s). destruct (k s) as [s' p']. cbn [snd] in IH.
    exists s', (wrapped fuel cur (yield_after (lift_task p')) (s', v)).2.
    split; [|apply IH].
    pose proof (wrapped_yield_state tasks fuel cur (lift_task p') (s', v)) as Hst.
    destruct (wrapped fuel cur (yield_after (lift_task p')) (s', v)) as [st1 p1].
    cbn [fst snd] in *. by rewrite Hst.
Qed.

(** What a round of the loop does to a worker and to the variables. *)
Lemma worker_loop_round fuel s (v : vars) :
  (length tasks <= fuel + index v)%nat ->
  (index v < length tasks /\
   exists s' p fuel',
     fuel = S fuel' /\
     worker_loop tasks fuel (s, v) = ((s', claim v), p) /\ busy fuel' (index v) p)%nat \/
  ((length tasks <= index v)%nat /\
   worker_loop tasks fuel (s, v) = ((s, v), Ret tt)).
Proof.
  intros Hfuel. destruct (decide (index v < length tasks)%nat) as [Hlt|Hge].
  - left. split; [done|]. destruct fuel as [|fuel']; [lia|].
    destruct (lookup_lt_is_Some_2 tasks (index v) Hlt) as [task Htask].
    rewrite (worker_loop_claim tasks fuel' s v task Hlt Htask).
    destruct (task s) as [s1 p].
    pose proof (busy_wrapped fuel' (index v) p (s1, claim v)) as Hb.
    pose proof (wrapped_yield_state tasks fuel' (index v) (lift_task p) (s1, claim v))
      as Hst.
    destruct (wrapped fuel' (index v) (yield_after (lift_task p)) (s1, claim v))
      as [st1 p1]. cbn [fst snd] in *. subst st1.
    by exists s1, p1, fuel'.
  - right. split; [lia|]. apply worker_loop_exit. lia.
Qed.

Lemma in_flight_step sts ws s (v : vars) i K :
  in_flight_inv sts ws v ->
  ws !! i = Some (Await K) ->
  exists sts', in_flight_inv sts' (<[i := (K (s, v)).2]> ws) (K (s, v)).1.2.
Proof.
  intros (Hlen & Hidx & HF & Hdist & Hfree & Hnum) Hi.
  destruct (Forall2_lookup_r _ _ _ _ _ HF Hi) as (st & Hst & Hfit).
  destruct st as [|fuel cur]; [done|].
  destruct Hfit as (Hb & Hfuel & Hcur & Hslot).
  pose proof (proj1 (Forall2_same_length_lookup _ _ _) HF) as [Hlens Hall].
  assert (Hilt : (i < length sts)%nat) by (by apply lookup_lt_Some in Hst).
  assert (Hother : forall j fj curj, j <> i -> sts !! j = Some (OnTask fj curj) ->
                                     curj <> cur).
  { intros j fj curj Hne Hj ->. by apply Hne, (Hdist j i fj fuel cur). }
  inversion Hb as [|? ? ? HK]; subst.
  destruct (HK s v) as [(s' & p' & -> & Hb')|(s' & r & ->)].
  - exists sts. cbn [fst snd]. split_and!; try done.
    apply Forall2_same_length_lookup. split; [by rewrite length_insert|].
    intros j st w Hj Hw.
    apply list_lookup_insert_Some in Hw as [(<- & <- & _)|[Hne Hw]].
    + rewrite Hst in Hj. injection Hj as <-. by split_and!.
    + by apply (Hall j).
  - assert (Hfuel1 : (length tasks <= fuel + index (store cur r v))%nat) by done.
    destruct (worker_loop_round fuel s' (store cur r v) Hfuel1)
      as [(Hlt & s'' & p & fuel' & -> & -> & Hbp)|(Hge & ->)]; cbn [fst snd].
    + exists (<[i := OnTask fuel' (index v)]> sts).
      unfold claim, store in *. cbn [results index] in *.
      split_and!; cbn [results index].
      * by rewrite length_insert.
      * lia.
      * apply Forall2_same_length_lookup. split; [by rewrite !length_insert|].
        intros j st w Hj Hw.
        apply list_lookup_insert_Some in Hw as [(<- & <- & _)|[Hne Hw]].
        -- rewrite list_lookup_insert_eq in Hj by done. injection Hj as <-.
           cbn [worker_fits results index]. split_and!; [done|lia|lia|].
           rewrite list_lookup_insert_ne by lia. apply Hfree; lia.
        -- rewrite list_lookup_insert_ne in Hj by done.
           pose proof (Hall j st w Hj Hw) as Hfit. destruct st as [|fj curj]; [done|].
           destruct Hfit as (? & ? & ? & ?).
           cbn [worker_fits results index]. split_and!; [done|lia|lia|].
           rewrite list_lookup_insert_ne; [done|].
           intros <-. by apply (Hother j fj cur).
      * intros j1 j2 f1 f2 c H1 H2.
        apply list_lookup_insert_Some in H1 as [(<- & Heq1 & _)|[Hne1 H1]];
          apply list_lookup_insert_Some in H2 as [(<- & Heq2 & _)|[Hne2 H2]];
          try done.
        -- injection Heq1 as <- <-.
           destruct (Forall2_lookup_l _ _ _ _ _ HF H2) as (w & _ & (_ & _ & ? & _)).
           lia.
        -- injection Heq2 as <- <-.
           destruct (Forall2_lookup_l _ _ _ _ _ HF H1) as (w & _ & (_ & _ & ? & _)).
           lia.
        -- by apply (Hdist j1 j2 f1 f2 c).
      * intros j Hj1 Hj2. rewrite list_lookup_insert_ne by lia. apply Hfree; lia.
      * rewrite (filled_insert _ _ _ Hslot).
        pose proof (sum_list_with_insert in_flight sts i _ (OnTask fuel' (index v)) Hst)
          as Hsum. cbn [in_flight] in Hsum. lia.
    + exists (<[i := Finished]> sts).
      unfold store in *. cbn [results index] in *.
      split_and!; cbn [results index].
      * by rewrite length_insert.
      * lia.
      * apply Forall2_same_length_lookup. split; [by rewrite !length_insert|].
        intros j st w Hj Hw.
        apply list_lookup_insert_Some in Hw as [(<- & <- & _)|[Hne Hw]].
        -- rewrite list_lookup_insert_eq in Hj by done. by injection Hj as <-.
        -- rewrite list_lookup_insert_ne in Hj by done.
           pose proof (Hall j st w Hj Hw) as Hfit. destruct st as [|fj curj]; [done|].
           destruct Hfit as (? & ? & ? & ?).
           cbn [worker_fits results index]. split_and!; [done|lia|lia|].
           rewrite list_lookup_insert_ne; [done|].
           intros <-. by apply (Hother j fj cur).
      * intros j1 j2 f1 f2 c H1 H2.
        apply list_lookup_insert_Some in H1 as [(_ & [=] & _)|[Hne1 H1]].
        apply list_lookup_insert_Some in H2 as [(_ & [=] & _)|[Hne2 H2]].
        by apply (Hdist j1 j2 f1 f2 c).
      * intros j Hj1 Hj2. rewrite list_lookup_insert_ne by lia. apply Hfree; lia.
      * rewrite (filled_insert _ _ _ Hslot).
        pose proof (sum_list_with_insert in_flight sts i _ Finished Hst) as Hsum.
        cbn [in_flight] in Hsum. lia.
Qed.

Lemma spawn_in_flight count : forall s (v : vars),
  length (results v) = length tasks ->
  (forall j, (index v <= j)%nat -> (j < length tasks)%nat ->
             results v !! j = Some None) ->
  exists sts,
    let v' := (spawn tasks count (s, v)).1.2 in
    let ws := (spawn tasks count (s, v)).2 in
    length ws = count /\
    results v' = results v /\
    (index v <= index v')%nat /\
    (index v <= length tasks -> index v' <= length tasks)%nat /\
    Forall2 (worker_fits v') sts ws /\
    (forall i f cur, sts !! i = Some (OnTask f cur) -> (index v <= cur)%nat) /\
    (forall i j fi fj cur,
        sts !! i = Some (OnTask fi cur) -> sts !! j = Some (OnTask fj cur) -> i = j) /\
    index v' = (index v + sum_list_with in_flight sts)%nat.
Proof.
  induction count as [|count IH]; intros s v Hlen Hfree.
  { exists []. cbn. split_and!; try done; try constructor; lia. }
  cbn [spawn]. unfold worker.
  destruct (worker_loop_round (length tasks) s v)
    as [(Hlt & s' & p & fuel' & Hfuel & Hw & Hbp)|(Hge & Hw)]; [lia| |];
    rewrite Hw.
  - destruct (IH s' (claim v)) as (sts & Hspec); [done| |].
    { intros j Hj1 Hj2. cbn in *. apply Hfree; lia. }
    cbn zeta in Hspec. destruct (spawn tasks count (s', claim v)) as [[s2 v2] ws].
    cbn [fst snd] in *.
    destruct Hspec as (Hcount & Hres & Hidx & Hidx' & HF & Hcurs & Hdist & Hnum).
    cbn [claim index results] in *.
    exists (OnTask fuel' (index v) :: sts). cbn [length sum_list_with in_flight].
    split_and!; [by rewrite Hcount|done|lia|lia| | | |lia].
    + constructor; [|done]. cbn [worker_fits]. split_and!; [done|lia|lia|].
      rewrite Hres. apply Hfree; lia.
    + intros [|i] f cur; cbn [lookup list_lookup].
      * intros [= _ <-]. lia.
      * intros Hi. apply Hcurs in Hi. lia.
    + intros [|i] [|j] fi fj cur; cbn [lookup list_lookup]; try done.
      * intros [= _ <-] Hj. apply Hcurs in Hj. lia.
      * intros Hi [= _ <-]. apply Hcurs in Hi. lia.
      * intros Hi Hj. f_equal. by apply (Hdist i j fi fj cur).
  - destruct (IH s v) as (sts & Hspec); [done|done|].
    cbn zeta in Hspec. destruct (spawn tasks count (s, v)) as [[s2 v2] ws].
    cbn [fst snd] in *.
    destruct Hspec as (Hcount & Hres & Hidx & Hidx' & HF & Hcurs & Hdist & Hnum).
    exists (Finished :: sts). cbn [length sum_list_with in_flight].
    split_and!; [by rewrite Hcount|done|lia|lia| | | |lia].
    + by constructor.
    + intros [|i] f cur; cbn [lookup list_lookup]; [done|]. apply Hcurs.
    + intros [|i] [|j] fi fj cur; cbn [lookup list_lookup]; try done.
      intros Hi Hj. f_equal. by apply (Hdist i j fi fj cur).
Qed.

(** X15: At whatever point a batch stops or is cut short, the number of tasks
    that have been called and whose outcome is not yet in the result array
    is at most the number of workers, [Math.min(concurrency,
    tasks.length)]: the limit is respected, whatever the tasks do and
    however the workers are scheduled. *)
Theorem runConcurrent_respects_limit (concurrency : Z) (sched : list nat) (s : St) :
  let v := (runConcurrent_vars tasks concurrency sched s).1.2.2 in
  (index v <= filled (results v) + worker_count tasks concurrency)%nat /\
  (index v <= filled (results v) + Z.to_nat concurrency)%nat.
Proof.
  cbn zeta. unfold runConcurrent_vars.
  set (vars0 := RcVars _ _).
  assert (Hfree0 : forall j, (index vars0 <= j)%nat -> (j < length tasks)%nat ->
                             results vars0 !! j = Some None).
  { intros j _ Hj. cbn. by apply lookup_replicate_2. }
  destruct (spawn_in_flight (worker_count tasks concurrency) s vars0)
    as (sts & Hspec); [apply length_replicate|done|].
  cbn zeta in Hspec.
  destruct (spawn tasks _ (s, vars0)) as [[s1 v1] ws]. cbn [fst snd] in Hspec.
  destruct Hspec as (Hcount & Hres & Hidx & Hidx' & HF & Hcurs & Hdist & Hnum).
  destruct (run_pool_inv
              (fun (ws : list (promise (St * vars) unit)) (sv : St * vars) =>
                 length ws = worker_count tasks concurrency /\
                 exists sts, in_flight_inv sts ws sv.2)) with (sched := sched)
    (ws := ws) (s := (s1, v1)) as (ws' & [Hlen' (sts' & Hinv)] & _).
  { intros ws0 [s0 v0] i k [Hl0 (sts0 & Hinv0)] Hi. split.
    - by rewrite length_insert.
    - by apply (in_flight_step sts0). }
  { split; [done|]. exists sts. cbn [snd]. split_and!; try done.
    - rewrite Hres. apply length_replicate.
    - apply Hidx'. cbn. lia.
    - intros j Hj1 Hj2. rewrite Hres. by apply Hfree0; cbn; lia.
    - rewrite Hres. cbn [vars0 results]. rewrite filled_replicate. cbn in Hnum. lia. }
  destruct (run_pool sched ws (s1, v1)) as [[sched' [s' v']] o].
  cbn [fst snd] in *.
  destruct Hinv as (_ & _ & HF' & _ & _ & Hnum').
  pose proof (in_flight_le sts') as Hle.
  apply Forall2_length in HF'.
  assert (index v' <= filled (results v') + worker_count tasks concurrency)%nat
    by lia.
  split; [done|]. unfold worker_count in *. lia.
Qed.
End InFlightProofs.

(** ** [toEqual] on JSON data *)

Lemma append_cons c s r : String c s +:+ r = String c (s +:+ r).
Proof. reflexivity. Qed.

Lemma append_nil_r s : s +:+ "" = s.
Proof. induction s as [|c s IH]; [done|]. by rewrite append_cons, IH. Qed.

Lemma span_digits_app d r :
  all_digits d = true -> digit_ahead r = false -> span_digits (d +:+ r) = (d, r).
Proof.
  intros Hd Hr. induction d as [|c d IH].
  - change ("" +:+ r) with r. destruct r as [|c r]; [done|].
    cbn in *. by rewrite Hr.
  - cbn in Hd. apply andb_true_iff in Hd as [Hc Hd].
    rewrite append_cons. cbn [span_digits]. by rewrite Hc, IH.
Qed.

Lemma pretty_N_char_digit x : is_digit (pretty_N_char x) = true.
Proof. unfold pretty_N_char. by repeat case_match. Qed.

Lemma pretty_N_go_digits x : forall s,
  all_digits s = true -> all_digits (pretty_N_go x s) = true.
Proof.
  induction (N.lt_wf_0 x) as [x _ IH]; intros s Hs.
  assert (x = 0 \/ 0 < x)%N as [->|Hpos] by lia.
  - by rewrite pretty_N_go_0.
  - rewrite pretty_N_go_step by done. apply IH; [by apply N.div_lt|].
    cbn. by rewrite pretty_N_char_digit.
Qed.

Lemma pretty_N_go_nonempty x : forall s, s <> "" -> pretty_N_go x s <> "".
Proof.
  induction (N.lt_wf_0 x) as [x _ IH]; intros s Hs.
  assert (x = 0 \/ 0 < x)%N as [->|Hpos] by lia.
  - by rewrite pretty_N_go_0.
  - rewrite pretty_N_go_step by done. apply IH; [by apply N.div_lt|done].
Qed.

Lemma pretty_N_digits (n : N) : all_digits (pretty n) = true /\ pretty n <> "".
Proof.
  unfold pretty, pretty_N. case_decide as Hn; [done|]. split.
  - by apply pretty_N_go_digits.
  - rewrite pretty_N_go_step by lia. by apply pretty_N_go_nonempty.
Qed.

Lemma pretty_N_prefix (a b : N) r1 r2 :
  digit_ahead r1 = false -> digit_ahead r2 = false ->
  pretty a +:+ r1 = pretty b +:+ r2 -> a = b /\ r1 = r2.
Proof.
  intros H1 H2 Heq. apply (f_equal span_digits) in Heq.
  rewrite !span_digits_app in Heq by (done || apply pretty_N_digits).
  injection Heq as Ha Hr. split; [by apply (inj pretty)|done].
Qed.

Lemma pretty_N_head (n : N) :
  exists c s, pretty n = String c s /\ is_digit c = true.
Proof.
  destruct (pretty_N_digits n) as [Hd Hne].
  destruct (pretty n) as [|c s]; [done|]. exists c, s. split; [done|].
  cbn in Hd. by apply andb_true_iff in Hd as [? _].
Qed.

Lemma pretty_Z_unfold (z : Z) :
  pretty z = match z with
             | Z0 => pretty 0%N
             | Zpos p => pretty (Npos p)
             | Zneg p => "-" +:+ pretty (Npos p)
             end.
Proof. by destruct z. Qed.

Lemma pretty_Z_prefix (a b : Z) r1 r2 :
  digit_ahead r1 = false -> digit_ahead r2 = false ->
  pretty a +:+ r1 = pretty b +:+ r2 -> a = b /\ r1 = r2.
Proof.
  intros H1 H2. rewrite !pretty_Z_unfold.
  assert (Hneg : forall (n : N) p r r', pretty n +:+ r <> ("-" +:+ pretty (Npos p)) +:+ r').
  { intros n p r r' Heq. destruct (pretty_N_head n) as (c & s & Hc & Hdig).
    rewrite Hc in Heq. injection Heq as -> _. done. }
  destruct a as [|p|p], b as [|q|q]; intros Heq.
  - apply pretty_N_prefix in Heq as [_ ?]; done.
  - apply pretty_N_prefix in Heq as [[= ?] ?]; done.
  - by apply Hneg in Heq.
  - apply pretty_N_prefix in Heq as [[= ?] ?]; done.
  - apply pretty_N_prefix in Heq as [[= ?] ?]; [by subst|done..].
  - by apply Hneg in Heq.
  - symmetry in Heq. by apply Hneg in Heq.
  - symmetry in Heq. by apply Hneg in Heq.
  - rewrite !append_assoc' in Heq. apply (inj (String.app _)) in Heq.
    apply pretty_N_prefix in Heq as [[= ?] ?]; [by subst|done..].
Qed.

Lemma pretty_Z_head (z : Z) :
  exists c s, pretty z = String c s /\ char_kind c = 3%nat.
Proof.
  rewrite pretty_Z_unfold. destruct z as [|p|p].
  - exists "0"%char, "". split; reflexivity.
  - destruct (pretty_N_head (Npos p)) as (c & s & -> & Hdig).
    exists c, s. split; [done|]. unfold char_kind. rewrite Hdig.
    unfold is_digit in Hdig. apply andb_true_iff in Hdig as [?%N.leb_le ?%N.leb_le].
    cbn zeta.
    destruct (N.eqb_spec (N_of_ascii c) 110); [lia|].
    destruct (N.eqb_spec (N_of_ascii c) 116); [lia|].
    destruct (N.eqb_spec (N_of_ascii c) 102); [lia|]. done.
  - exists "-"%char, (pretty (Npos p)). split; reflexivity.
Qed.

Lemma value_ind' (P : value -> Prop) :
  P VUndefined -> P VNull -> (forall b, P (VBool b)) -> (forall n, P (VNum n)) ->
  (forall s, P (VStr s)) -> (forall z, P (VBigInt z)) -> (forall id, P (VSymbol id)) ->
  (forall items, Forall P items -> P (VArr items)) ->
  (forall fields, Forall (fun kv => P kv.2) fields -> P (VObj fields)) ->
  (forall f, P (VFun f)) -> (forall m, P (VError m)) ->
  forall v, P v.
Proof.
  intros HU HN HB HNum HS HBig HSym HA HO HF HE. fix IH 1.
  intros [| |b|n|s|z|id|items|fields|f|m].
  - exact HU.
  - exact HN.
  - apply HB.
  - apply HNum.
  - apply HS.
  - apply HBig.
  - apply HSym.
  - apply HA. induction items as [|x items IHi]; [constructor|].
    constructor; [apply IH|apply IHi].
  - apply HO. induction fields as [|[k x] fields IHf]; [constructor|].
    constructor; [apply IH|apply IHf].
  - apply HF.
  - apply HE.
Qed.

(** The text that an array prints for an element. *)
Local Abbreviation enc := (fun v : value => default "null" (JSON.serialize v)).

Lemma quote_prefix_full k1 k2 r1 r2 :
  JSON.quote k1 +:+ r1 = JSON.quote k2 +:+ r2 -> k1 = k2 /\ r1 = r2.
Proof.
  unfold JSON.quote. rewrite !append_assoc'.
  change (String (ascii_of_N 34) (JSON.quote_body k1 +:+ JSON.dquote +:+ r1) =
          String (ascii_of_N 34) (JSON.quote_body k2 +:+ JSON.dquote +:+ r2) ->
          k1 = k2 /\ r1 = r2).
  intros [= H]. by apply quote_body_prefix in H.
Qed.

Lemma join_cons_app sep e es t :
  JSON.join sep (e :: es) +:+ t =
  e +:+ match es with
        | [] => t
        | _ :: _ => sep +:+ JSON.join sep es +:+ t
        end.
Proof.
  destruct es as [|e' es]; [done|].
  rewrite join_cons_cons. by rewrite !append_assoc'.
Qed.

Section JoinPrefix.
Context {X : Type}.
Variable encode : X -> string.
Variable Q : X -> Prop.
Variable close : ascii.
Hypothesis close_no_digit : is_digit close = false.
Hypothesis close_not_comma : close <> ","%char.
Hypothesis encode_head :
  forall x, Q x -> exists c s, encode x = String c s /\ c <> close.

Lemma join_prefix_inj (l1 : list X) : forall l2 r1 r2,
  Forall (fun x => forall y t1 t2, Q y ->
            digit_ahead t1 = false -> digit_ahead t2 = false ->
            encode x +:+ t1 = encode y +:+ t2 -> x = y /\ t1 = t2) l1 ->
  Forall Q l1 -> Forall Q l2 ->
  JSON.join "," (encode <$> l1) +:+ String close r1 =
  JSON.join "," (encode <$> l2) +:+ String close r2 ->
  l1 = l2 /\ r1 = r2.
Proof.
  induction l1 as [|x xs IH]; intros [|y ys] r1 r2 HP HQ1 HQ2.
  - cbn. by intros [= ->].
  - apply Forall_cons in HQ2 as [Hy _]. cbn [fmap list_fmap].
    rewrite join_cons_app. destruct (encode_head y Hy) as (c & s & -> & Hc).
    cbn. by intros [= <-].
  - apply Forall_cons in HQ1 as [Hx _]. cbn [fmap list_fmap].
    rewrite join_cons_app. destruct (encode_head x Hx) as (c & s & -> & Hc).
    cbn. by intros [= ->].
  - apply Forall_cons in HP as [Hx HP], HQ1 as [Hqx HQ1], HQ2 as [Hqy HQ2].
    cbn [fmap list_fmap]. rewrite !join_cons_app. intros Heq.
    apply Hx in Heq as [-> Hrest];
      [|done|destruct xs; [exact close_no_digit|reflexivity]
       |destruct ys; [exact close_no_digit|reflexivity]].
    destruct xs as [|x' xs], ys as [|y' ys]; cbn [fmap list_fmap] in Hrest.
    + by injection Hrest as ->.
    + by injection Hrest as Hc.
    + by injection Hrest as Hc.
    + change (String "," (JSON.join "," (encode <$> x' :: xs) +:+ String close r1) =
              String "," (JSON.join "," (encode <$> y' :: ys) +:+ String close r2))
        in Hrest.
      injection Hrest as Hrest.
      destruct (IH (y' :: ys) r1 r2 HP HQ1 HQ2 Hrest) as [-> ->]. done.
Qed.
End JoinPrefix.

Lemma json_data_arr items :
  json_data (VArr items) = true -> Forall (fun x => json_data x = true) items.
Proof.
  cbn [json_data]. rewrite forallb_forall. intros H. apply Forall_forall.
  intros x Hx. apply H. by apply list_elem_of_In.
Qed.

Lemma json_data_obj fields :
  json_data (VObj fields) = true ->
  Forall (fun kv => json_data kv.2 = true) fields.
Proof.
  cbn [json_data]. rewrite forallb_forall. intros H. apply Forall_forall.
  intros [k x] Hx. apply (H (k, x)). by apply list_elem_of_In.
Qed.

(** The serialization of JSON data starts with a character that tells
    its kind. *)
Lemma stringify_head v :
  json_data v = true ->
  exists c s, JSON.serialize v = Some (String c s) /\ char_kind c = value_kind v.
Proof.
  destruct v as [| |[]|[z| |]|s|z|id|items|fields|f|m]; try done; intros _.
  - by exists "n"%char, "ull".
  - by exists "t"%char, "rue".
  - by exists "f"%char, "alse".
  - destruct (pretty_Z_head (integer z)) as (c & s & Hc & Hk). exists c, s.
    cbn [JSON.serialize JSON.number_to_json]. by rewrite Hc.
  - by eexists (ascii_of_N 34), _.
  - by eexists "["%char, _.
  - by eexists "{"%char, _.
Qed.

Lemma members_data fields :
  Forall (fun kv => json_data kv.2 = true) fields ->
  JSON.members JSON.serialize fields =
  (fun kv => JSON.quote kv.1 +:+ ":" +:+ enc kv.2) <$> fields.
Proof.
  induction 1 as [|[k x] fields Hx _ IH]; [done|].
  rewrite members_cons. cbn [fmap list_fmap fst snd].
  destruct (stringify_head x Hx) as (c & s & -> & _). cbn [default]. 
  by rewrite IH.
Qed.

Lemma json_data_plain v : json_data v = true -> JSON.has_bigint v = false.
Proof.
  induction v as [| |b|n|s|z|id|items IH|fields IH|f|m] using value_ind'; try done.
  - intros Hd%json_data_arr. cbn [JSON.has_bigint].
    apply not_true_is_false. intros (x & Hx & Hbig)%existsb_exists.
    apply list_elem_of_In in Hx. rewrite Forall_forall in IH, Hd.
    specialize (IH x Hx (Hd x Hx)). congruence.
  - intros Hd%json_data_obj. cbn [JSON.has_bigint].
    apply not_true_is_false. intros (x & Hx & Hbig)%existsb_exists.
    apply list_elem_of_In in Hx. rewrite Forall_forall in IH, Hd.
    specialize (IH x Hx (Hd x Hx)). congruence.
Qed.

(** JSON data can be read back from the front of a text, when what follows
    the serialization does not start with a digit. *)
Lemma stringify_data_prefix (v1 : value) :
  json_data v1 = true ->
  forall v2 r1 r2,
    json_data v2 = true ->
    digit_ahead r1 = false -> digit_ahead r2 = false ->
    enc v1 +:+ r1 = enc v2 +:+ r2 -> v1 = v2 /\ r1 = r2.
Proof.
  induction v1 as [| |b1|n1|s1|z1|id1|items1 IH|fields1 IH|f1|m1] using value_ind';
    intros Hd1 v2 r1 r2 Hd2 Hr1 Hr2 Heq; try done.
  all: assert (Hkind : value_kind v2 = value_kind _)
    by (destruct (stringify_head _ Hd1) as (c1 & t1 & Ht1 & <-);
        destruct (stringify_head _ Hd2) as (c2 & t2 & Ht2 & <-);
        cbv beta in Heq; rewrite Ht1, Ht2 in Heq; cbn [default] in Heq;
        by injection Heq as -> _).
  all: destruct v2 as [| |b2|n2|s2|z2|id2|items2|fields2|f2|m2]; try done;
       clear Hkind.
  - cbn [JSON.serialize default] in Heq. by apply (inj (String.app _)) in Heq as ->.
  - destruct b1, b2; cbn [JSON.serialize default] in Heq;
      try (by apply (inj (String.app _)) in Heq as ->);
      compute in Heq; discriminate Heq.
  - destruct n1 as [z1| |], n2 as [z2| |]; try done.
    cbn [JSON.serialize JSON.number_to_json default] in Heq. unfold id in Heq.
    apply pretty_Z_prefix in Heq as [Hz ->]; [|done..].
    by apply safe_integer_eq in Hz as ->.
  - cbn [JSON.serialize default] in Heq. unfold id in Heq.
    apply quote_prefix_full in Heq as [-> ->]. done.
  - cbn [JSON.serialize default] in Heq. unfold id in Heq.
    rewrite !append_assoc' in Heq.
    apply (inj (String.app _)) in Heq. unfold JSON.elements in Heq.
    apply json_data_arr in Hd1, Hd2.
    change (List.map enc items1) with (enc <$> items1) in Heq.
    change (List.map enc items2) with (enc <$> items2) in Heq.
    apply (join_prefix_inj enc (fun x => json_data x = true) "]"%char) in Heq
      as [-> ->]; try done.
    + intros x Hx. destruct (stringify_head x Hx) as (c & s & -> & Hk).
      exists c, s. split; [done|]. intros ->.
      by destruct x as [| |?|[| |]| | | | | | |].
    + eapply Forall_impl; [apply Forall_and; split; [exact IH|exact Hd1]|].
      intros x [Hx Hdx] y t1 t2 Hy Ht1 Ht2 Hxy. by apply Hx.
  - cbn [JSON.serialize default] in Heq. unfold id in Heq.
    rewrite !append_assoc' in Heq.
    apply (inj (String.app _)) in Heq.
    apply json_data_obj in Hd1, Hd2.
    rewrite !members_data in Heq by done.
    apply (join_prefix_inj (fun kv : string * value =>
                              JSON.quote kv.1 +:+ ":" +:+ enc kv.2)
             (fun kv => json_data kv.2 = true) "}"%char) in Heq
      as [-> ->]; try done.
    + intros [k x] _. by eexists (ascii_of_N 34), _.
    + eapply Forall_impl; [apply Forall_and; split; [exact IH|exact Hd1]|].
      intros [k1 x1] [Hx Hdx] [k2 x2] t1 t2 Hy Ht1 Ht2 Hxy.
      cbn [fst snd] in *. rewrite !append_assoc' in Hxy.
      apply quote_prefix_full in Hxy as [-> Hxy].
      apply (inj (String.app _)) in Hxy.
      apply Hx in Hxy as [-> ->]; done.
Qed.

(** X16: On JSON data [toEqual] is equality of values: of the elements of
    arrays in order, and of the properties of objects in the order in which
    they are enumerated. *)
Theorem toEqual_is_equality_on_json_data (a b : value) (disableSnapshots : bool) :
  json_data a = true -> json_data b = true ->
  (passes (expect (customMatchers disableSnapshots) a "toEqual" [b]) <-> a = b).
Proof.
  intros Ha Hb. rewrite passes_toEqual, toEqual_succeeds.
  rewrite !stringify_plain by by apply json_data_plain.
  split; [|intros ->; by eexists].
  intros (r & [= <-] & [= Heq]).
  destruct (stringify_data_prefix a Ha b "" "" Hb eq_refl eq_refl) as [-> _]; [|done].
  by rewrite Heq.
Qed.

(** ** Events and hooks of a run *)

Lemma preserves_True {St A} (p : promise St A) : preserves (fun _ => True) p.
Proof. induction p as [a|e| |k IH] using promise_rect'; done. Qed.

Lemma filter_with_Forall {A} (P : A -> Prop) (keep : A -> completion bool) l kept :
  Forall P l -> filter_with keep l = Normal kept -> Forall P kept.
Proof.
  intros Hl. revert kept. induction Hl as [|x l Hx Hl IH]; intros kept.
  - by intros [= <-].
  - cbn [filter_with]. destruct (keep x) as [b|e]; [|done].
    destruct (filter_with keep l) as [kept'|e]; [|done].
    intros [= <-]. destruct b; [constructor|]; by auto.
Qed.

(** Test code acts on the store only. *)
Section UserCode.
Context {U : Type}.
Variable I : @world U -> Prop.
Hypothesis I_ust : forall w u, I w -> I (set_ust u w).

Lemma keeps_user (m : action (@ustate U) unit) : keeps I (zoom ust set_ust m).
Proof.
  apply (keeps_zoom ust set_ust (fun _ => True) I); [done|by intros; apply I_ust|].
  intros u _. split; [done|apply preserves_True].
Qed.

Lemma keeps_call (fn : @callable U) ctx :
  (forall w name, I w -> I (record (Called name ctx) w)) -> keeps I (call fn ctx).
Proof. intros Hc w Hw. apply keeps_user. by apply Hc. Qed.
End UserCode.

(** A property [I] of the world during the run of a suite.  [good] tells
    the functions that the test code is made of, [allowed] the objects that
    they may be called on. *)
Section EngineInvariant.
Context {U : Type}.
Variable RegExp : string -> regexp.
Local Abbreviation world := (@world U).
Local Abbreviation Suite := (@Suite U).

Lemma Suite_ind' (P : Suite -> Prop) :
  (forall st ts ss hs cx so sk mg,
      Forall P ss -> P (MkSuite st ts ss hs cx so sk mg)) ->
  forall s, P s.
Proof.
  intros H. fix IH 1. intros [st ts ss hs cx so sk mg]. apply H.
  induction ss as [|child ss IHss]; [constructor|].
  constructor; [apply IH|apply IHss].
Qed.

(** [computeMergedHooks] assigns the cache fields only. *)
Lemma computeMergedHooks_suite (suite : Suite) pb pa (w : world) :
  let suite' := (computeMergedHooks suite pb pa w).1.2 in
  tests suite' = tests suite /\ suites suite' = suites suite /\
  hooks suite' = hooks suite /\ context suite' = context suite.
Proof.
  unfold computeMergedHooks. destruct (merged suite) as [[b a]|]; by destruct suite.
Qed.

Variable I : world -> Prop.
Variable good : @callable U -> Prop.
Variable allowed : loc -> Prop.
Hypothesis I_call :
  forall fn ctx, good fn -> allowed ctx -> keeps I (call fn ctx).
Hypothesis I_now : forall w t, I w -> I (set_now t w).
Hypothesis I_title : forall w t, I w -> I (set_currentTestTitle t w).
Hypothesis I_oracle : forall w o, I w -> I (set_oracle o w).
Hypothesis I_emit :
  forall w ev, task_event ev -> I w -> I (notify ev (record (Emitted ev) w)).
Hypothesis I_array : forall w chain, I w -> Forall good (array_at chain w).

Lemma keeps_emit ev : task_event ev -> keeps I (emit ev).
Proof.
  intros Hev w Hw. unfold emit. cbn [fst snd]. split; [by apply I_emit|].
  by destruct ((listeners ev (reporter w)).2).
Qed.

Lemma preserves_race deadline p :
  preserves I p -> preserves I (race_promise deadline p).
Proof.
  induction p as [a|e| |k IH] using promise_rect'; try done.
  - intros _ w Hw. split; [by apply I_now|done].
  - intros Hp w Hw. destruct (Hp w Hw) as [H1 H2]. specialize (IH w).
    cbn [race_promise]. destruct (k w) as [w' p']. split; [done|by apply IH].
Qed.

Lemma keeps_hooks fns ctx :
  allowed ctx -> Forall good fns ->
  keeps I (for_each fns (fun hook => await (call hook ctx))).
Proof.
  intros Hctx Hfns. induction Hfns as [|fn fns Hfn _ IH]; [apply keeps_ret|].
  cbn [for_each]. apply keeps_bind; [|done]. by apply keeps_await, I_call.
Qed.

Lemma keeps_run_chain chain ctx : allowed ctx -> keeps I (run_chain chain ctx).
Proof.
  intros Hctx w Hw. unfold run_chain. apply keeps_hooks; [done| |done].
  by apply I_array.
Qed.

Lemma keeps_attempt test ctx :
  allowed ctx -> good (testFn test) -> keeps I (attempt test ctx).
Proof.
  intros Hctx Hfn. unfold attempt. destruct (timeout (options test)) as [ms|];
    [destruct (ms =? 0)|]; try by apply keeps_await, I_call.
  apply keeps_await. intros w Hw. unfold race_timeout.
  destruct (I_call (testFn test) ctx Hfn Hctx w Hw) as [H1 H2].
  destruct (call (testFn test) ctx w) as [w' p]. split; [done|by apply preserves_race].
Qed.

Lemma keeps_attempt_loop test ctx rounds :
  allowed ctx -> good (testFn test) ->
  forall error attempts, keeps I (attempt_loop test ctx rounds error attempts).
Proof.
  intros Hctx Hfn.
  induction rounds as [|rounds IH]; intros error attempts; [apply keeps_ret|].
  cbn [attempt_loop]. apply keeps_bind.
  - apply keeps_try_catch.
    + apply keeps_bind; [by apply keeps_attempt|intros; apply keeps_ret].
    + intros; apply keeps_ret.
  - intros [err|]; [|apply keeps_ret].
    destruct (_ <=? _); [apply IH|apply keeps_ret].
Qed.

Lemma keeps_testTask ctx before after test :
  allowed ctx -> good (testFn test) -> keeps I (testTask ctx before after test).
Proof.
  intros Hctx Hfn. unfold testTask.
  apply keeps_bind; [by apply keeps_run_chain|intros _].
  apply keeps_bind; [by apply keeps_emit|intros _].
  apply keeps_bind; [by apply keeps_modify; intros; apply I_title|intros _].
  apply keeps_bind; [apply keeps_gets|intros tStart].
  apply keeps_bind; [by apply keeps_attempt_loop|intros error].
  apply keeps_bind; [apply keeps_gets|intros tEnd].
  apply keeps_bind; [by apply keeps_run_chain|intros _].
  destruct (truthy error) eqn:Herr; by apply keeps_emit.
Qed.

Lemma run_hooks_keeps fns ctx w :
  allowed ctx -> Forall good fns -> I w -> I (run_hooks fns ctx w).1.
Proof.
  intros Hctx Hfns Hw. unfold run_hooks.
  pose proof (run_keeps I (for_each fns (fun hook => await (call hook ctx))) w) as H.
  destruct (run _ w) as [w' o]. apply H; [|done]. by apply keeps_hooks.
Qed.

(** The batch of the tests of a suite. *)
Lemma batch_keeps ctx before after (selected : list (@Test U)) limit sched w :
  allowed ctx -> Forall (fun test => good (testFn test)) selected ->
  I w ->
  I (runConcurrent (testTask ctx before after <$> selected) limit sched w).1.2.
Proof.
  intros Hctx Hsel. apply runConcurrent_keeps.
  apply Forall_fmap. eapply Forall_impl; [exact Hsel|].
  intros test Hfn. by apply keeps_testTask.
Qed.

Hypothesis I_concat :
  forall w chain fns,
    I w -> Forall good fns -> I (set_arrays (<[chain := fns]> (arrays w)) w).

Lemma computeMergedHooks_keeps suite pb pa w :
  Forall good (beforeEach (hooks suite)) -> Forall good (afterEach (hooks suite)) ->
  I w -> I (computeMergedHooks suite pb pa w).1.1.
Proof.
  intros Hb Ha Hw. unfold computeMergedHooks.
  destruct (merged suite) as [[b a]|]; [done|]. cbn [fst].
  assert (H1 : I (set_arrays (<[fresh (dom (arrays w)) :=
                                  array_at pb w ++ beforeEach (hooks suite)]>
                                (arrays w)) w)).
  { apply I_concat; [done|]. apply Forall_app. split; [by apply I_array|done]. }
  apply I_concat; [done|]. apply Forall_app. split; [done|by apply I_array].
Qed.

Lemma each_child_keeps (run_child : Suite -> world -> world * Suite * settled)
    children : forall w,
  Forall (fun child => forall w, I w -> I (run_child child w).1.1) children ->
  I w -> I (each_child run_child children w).1.1.
Proof.
  induction children as [|child rest IH]; intros w Hall Hw; [done|].
  apply Forall_cons in Hall as [Hc Hrest]. cbn [each_child].
  specialize (Hc w Hw). destruct (run_child child w) as [[w1 child'] r].
  cbn [fst] in Hc. destruct r; try done.
  specialize (IH w1 Hrest Hc). by destruct (each_child run_child rest w1) as [[w2 rest'] r].
Qed.

Hypothesis I_allocate : forall w keys, I w -> I (allocate (new_object w) keys w).
Hypothesis I_new : forall w, I w -> allowed (new_object w).

(** A property that the steps of the test code, the bookkeeping of the
    engine and the events of tests all keep is kept by the run of a suite,
    however it ends. *)
Lemma runSuite_keeps (suite : Suite) :
  Forall good (functions suite) ->
  forall pc pb pa w, I w -> I (runSuite RegExp suite pc pb pa w).1.1.
Proof.
  induction suite as [st ts ss hs cx so sk mg IH] using Suite_ind'.
  intros Hgood pc pb pa w Hw. cbn [runSuite s_skip]. destruct sk; [done|].
  cbn [functions hooks tests suites] in Hgood.
  rewrite !Forall_app in Hgood.
  destruct Hgood as (GbA & GaA & GbE & GaE & Gts & Gss).
  rewrite Forall_fmap in Gts. apply Forall_flat_map in Gss.
  pose proof (I_new w Hw) as Hctx.
  pose proof (I_allocate w (context_at cx w ∪ context_at pc w) Hw) as H1.
  unfold merge_context. cbn [context set_context hooks beforeAll].
  set (c := new_object w) in *. set (w1 := allocate c _ w) in *.
  pose proof (run_hooks_keeps (beforeAll hs) c w1 Hctx GbA H1) as H2.
  destruct (run_hooks _ _ w1) as [w2 r2]. cbn [fst] in H2.
  destruct r2; try done.
  pose proof (computeMergedHooks_keeps
                (MkSuite st ts ss hs c so false mg) pb pa w2 GbE GaE H2) as H3.
  pose proof (computeMergedHooks_suite (MkSuite st ts ss hs c so false mg) pb pa w2)
    as (Hts & _ & Hhs & _).
  destruct (computeMergedHooks _ pb pa w2) as [[w3 suite2] [before after]].
  cbn [fst snd tests hooks] in H3, Hts, Hhs.
  destruct (testsToRun RegExp suite2 (config w3)) as [selected|e] eqn:Hsel; [|done].
  assert (Gsel : Forall (fun test => good (testFn test)) selected).
  { apply (filter_with_Forall _ (eligible RegExp suite2 (config w3)) (tests suite2));
      [by rewrite Hts|done]. }
  pose proof (batch_keeps c before after selected (concurrency (config w3))
                (oracle w3) w3 Hctx Gsel H3) as H4.
  destruct (runConcurrent _ _ _ w3) as [[sched' w4] o].
  cbn [fst snd] in H4.
  destruct o as [results|e| |]; cbn [fst]; try (by apply I_oracle).
  cbn [suites].
  pose proof (each_child_keeps
                (fun child => runSuite RegExp child c before after)
                ss (set_oracle sched' w4)) as H5.
  destruct (each_child _ ss (set_oracle sched' w4)) as [[w5 children] r].
  cbn [fst] in H5.
  assert (H6 : I w5).
  { apply H5; [|by apply I_oracle].
    rewrite Forall_forall in IH, Gss. apply Forall_forall.
    intros child Hin w0 Hw0. apply IH; [done| |done].
    by apply Gss. }
  destruct r; try done.
  assert (Hh : afterAll (hooks (set_suites children suite2)) = afterAll hs)
    by (rewrite <- Hhs; by destruct suite2).
  rewrite Hh.
  pose proof (run_hooks_keeps (afterAll hs) c w5 Hctx GaA H6) as H7.
  by destruct (run_hooks _ _ w5).
Qed.
End EngineInvariant.

(** The same for a property that does not depend on what the test code
    does, nor on the objects it is called on. *)
Section PlainInvariant.
Context {U : Type}.
Variable RegExp : string -> regexp.
Local Abbreviation world := (@world U).
Local Abbreviation Suite := (@Suite U).

Variable I : world -> Prop.
Hypothesis I_ust : forall w u, I w -> I (set_ust u w).
Hypothesis I_now : forall w t, I w -> I (set_now t w).
Hypothesis I_title : forall w t, I w -> I (set_currentTestTitle t w).
Hypothesis I_arrays : forall w a, I w -> I (set_arrays a w).
Hypothesis I_oracle : forall w o, I w -> I (set_oracle o w).
Hypothesis I_emit :
  forall w ev, task_event ev -> I w -> I (notify ev (record (Emitted ev) w)).

(** What runs on one context. *)
Section OnContext.
Variable ctx : loc.
Hypothesis I_call_on : forall w name, I w -> I (record (Called name ctx) w).

Lemma plain_call (fn : @callable U) c :
  (fun _ : @callable U => True) fn -> ctx = c -> keeps I (call fn c).
Proof. intros _ <-. by apply keeps_call. Qed.

Lemma hooks_keep fns w : I w -> I (run_hooks fns ctx w).1.
Proof.
  apply (run_hooks_keeps I (fun _ => True) (eq ctx) plain_call); [done|].
  by apply Forall_true.
Qed.

Lemma tests_keep before after (selected : list (@Test U)) limit sched w :
  I w ->
  I (runConcurrent (testTask ctx before after <$> selected) limit sched w).1.2.
Proof.
  apply (batch_keeps I (fun _ => True) (eq ctx) plain_call I_now I_title I_emit);
    [|done|by apply Forall_true].
  intros w0 chain _. by apply Forall_true.
Qed.
End OnContext.

Hypothesis I_call : forall w name this, I w -> I (record (Called name this) w).
Hypothesis I_allocate : forall w c keys, I w -> I (allocate c keys w).

Lemma suite_keeps (suite : Suite) pc pb pa w :
  I w -> I (runSuite RegExp suite pc pb pa w).1.1.
Proof.
  apply (runSuite_keeps RegExp I (fun _ => True) (fun _ => True)); try done.
  - intros fn ctx _ _. apply keeps_call; [done|]. intros w0 name. apply I_call.
  - intros w0 chain _. by apply Forall_true.
  - intros w0 chain fns Hw0 _. by apply I_arrays.
  - intros w0 keys. apply I_allocate.
  - by apply Forall_true.
Qed.
End PlainInvariant.

Section RunEvents.
Context {U : Type}.
Variable RegExp : string -> regexp.
Local Abbreviation world := (@world U).
Local Abbreviation Suite := (@Suite U).

Lemma emitted_snoc l e :
  emitted (l ++ [e]) =
  emitted l ++ match e with Emitted ev => [ev] | Called _ _ => [] end.
Proof. unfold emitted. rewrite omap_app. by destruct e. Qed.

Lemma hear_snoc r evs ev : hear r (evs ++ [ev]) = (listeners ev (hear r evs)).1.
Proof. unfold hear. by rewrite foldl_app. Qed.

Lemma task_event_test_event ev : task_event ev -> test_event ev.
Proof. by destruct ev. Qed.

Lemma since_refl (w : world) : since (trace w) (reporter w) w.
Proof. exists []. by rewrite app_nil_r. Qed.

Lemma since_same t0 r0 (w w' : world) :
  trace w' = trace w -> reporter w' = reporter w -> since t0 r0 w -> since t0 r0 w'.
Proof. intros Ht Hr (l & ? & ? & ?). exists l. by rewrite Ht, Hr. Qed.

Lemma since_call t0 r0 (w : world) name this :
  since t0 r0 w -> since t0 r0 (record (Called name this) w).
Proof.
  intros (l & Ht & Hl & Hr). exists (l ++ [Called name this]).
  rewrite emitted_snoc, app_nil_r. split_and!; [|done|done].
  destruct w; cbn in *. by rewrite Ht, app_assoc.
Qed.

Lemma since_emit t0 r0 (w : world) ev :
  test_event ev -> since t0 r0 w -> since t0 r0 (notify ev (record (Emitted ev) w)).
Proof.
  intros Hev (l & Ht & Hl & Hr). exists (l ++ [Emitted ev]).
  rewrite emitted_snoc, hear_snoc. split_and!.
  - destruct w; cbn in *. by rewrite Ht, app_assoc.
  - apply Forall_app. split; [done|by constructor].
  - destruct w; cbn in *. by rewrite Hr.
Qed.

Lemma since_allocate t0 r0 (w : world) c keys :
  since t0 r0 w -> since t0 r0 (allocate c keys w).
Proof. by apply since_same. Qed.

Lemma runSuite_since (suite : Suite) pc pb pa (w : world) t0 r0 :
  since t0 r0 w -> since t0 r0 (runSuite RegExp suite pc pb pa w).1.1.
Proof.
  apply (suite_keeps RegExp (since t0 r0)).
  - intros w0 u. by apply since_same; destruct w0.
  - intros w0 t. by apply since_same; destruct w0.
  - intros w0 t. by apply since_same; destruct w0.
  - intros w0 a. by apply since_same; destruct w0.
  - intros w0 o. by apply since_same; destruct w0.
  - intros w0 ev Hev. by apply since_emit, task_event_test_event.
  - intros w0 name this. apply since_call.
  - intros w0 c keys. apply since_allocate.
Qed.

Lemma hear_test_events evs : forall r,
  Forall test_event evs ->
  skipped (hear r evs) = skipped r /\
  passed (hear r evs) = (passed r + length (List.filter is_testPass evs))%nat /\
  failed (hear r evs) = (failed r + length (List.filter is_testFail evs))%nat.
Proof.
  induction evs as [|ev evs IH]; intros r Hall; [cbn; lia|].
  apply Forall_cons in Hall as [Hev Hall].
  change (hear r (ev :: evs)) with (hear (listeners ev r).1 evs).
  destruct (IH (listeners ev r).1 Hall) as (-> & -> & ->).
  destruct ev as [t|t|t d|t d e|t|d]; try done; cbn; [lia|].
  destruct e; cbn; lia.
Qed.

(** X17: The run of a suite, its sub-suites included, emits no other events
    than [testStart], [testPass] and [testFail]: no [testSkip], and nothing
    for a suite.  The reporter has heard exactly these events: its
    [skipped] counter is as before, [passed] has grown by the number of
    [testPass] events and [failed] by the number of [testFail] events.
    This holds however the run ends. *)
Theorem runSuite_emits_test_events_only (suite : Suite) pc pb pa (w : world) :
  let w' := (runSuite RegExp suite pc pb pa w).1.1 in
  exists l,
    trace w' = trace w ++ l /\
    Forall test_event (emitted l) /\
    reporter w' = hear (reporter w) (emitted l) /\
    skipped (reporter w') = skipped (reporter w) /\
    passed (reporter w') =
      (passed (reporter w) + length (List.filter is_testPass (emitted l)))%nat /\
    failed (reporter w') =
      (failed (reporter w) + length (List.filter is_testFail (emitted l)))%nat.
Proof.
  cbn zeta.
  destruct (runSuite_since suite pc pb pa w _ _ (since_refl w)) as (l & Ht & Hl & Hr).
  exists l. rewrite Hr. split_and!; try done; by apply hear_test_events.
Qed.

Lemma run_globals_same fns (w : world) :
  trace (run_globals fns w).1 = trace w /\
  reporter (run_globals fns w).1 = reporter w /\
  now (run_globals fns w).1 = now w.
Proof.
  unfold run_globals.
  pose proof (run_keeps
                (fun w' : world => trace w' = trace w /\ reporter w' = reporter w /\
                                   now w' = now w)
                (for_each fns (fun fn => await (zoom ust set_ust fn))) w) as H.
  destruct (run _ w) as [w' o]. apply H; [|done].
  apply keeps_for_each. intros fn. apply keeps_await, keeps_user.
  intros w0 u. by destruct w0.
Qed.

(** X18: A run that completes emits [suiteStart] once, for the root suite and
    before anything else, and [runEnd] once, after everything else; what
    lies between are calls and the events of tests; the global hooks leave
    no entry.  The duration that [runEnd] carries is the time between the
    two events. *)
Theorem runTests_event_frame globalBefore globalAfter (rootSuite : Suite)
    (w w' : world) (suite' : Suite) :
  runTests RegExp globalBefore globalAfter rootSuite w = (w', suite', Done) ->
  exists l total,
    trace w' = trace w ++ Emitted (SuiteStart (s_title rootSuite)) :: l ++
                          [Emitted (RunEnd total)] /\
    Forall test_event (emitted l) /\
    reporter w' = hear (reporter w) (emitted l) /\
    skipped (reporter w') = skipped (reporter w) /\
    total = now w' - now w.
Proof.
  unfold runTests.
  destruct (run_globals_same globalBefore w) as (Ht1 & Hr1 & Hn1).
  destruct (run_globals globalBefore w) as [w1 r1]. cbn [fst] in *.
  destruct r1; try done.
  rewrite run_emit. cbn [listeners snd].
  set (w2 := notify _ (record _ w1)).
  set (pc := new_object w2). set (w3 := allocate pc ∅ w2).
  set (pb := fresh _). set (w4 := set_arrays _ w3).
  set (pa := fresh _). set (w5 := set_arrays _ w4).
  assert (Ht5 : trace w5 = trace w ++ [Emitted (SuiteStart (s_title rootSuite))]).
  { rewrite <- Ht1. by destruct w1. }
  assert (Hr5 : reporter w5 = reporter w).
  { rewrite <- Hr1. by destruct w1. }
  assert (Hn5 : now w2 = now w).
  { rewrite <- Hn1. by destruct w1. }
  destruct (runSuite_since rootSuite pc pb pa w5 _ _ (since_refl w5))
    as (l & Ht & Hl & Hr).
  destruct (runSuite RegExp rootSuite pc pb pa w5) as [[w6 suite6] r6].
  cbn [fst] in *. destruct r6; try done.
  set (total := now w6 - now w2).
  rewrite run_emit. cbn [listeners snd].
  set (w7 := notify _ (record _ w6)).
  destruct (run_globals_same globalAfter w7) as (Ht8 & Hr8 & Hn8).
  destruct (run_globals globalAfter w7) as [w8 r8]. cbn [fst] in *.
  intros [= <- <- ->]. exists l, total.
  assert (Hmid : reporter w6 = hear (reporter w) (emitted l)) by (by rewrite Hr, Hr5).
  destruct (emit_record (RunEnd total) w6) as (Ht7 & Hr7 & Hn7).
  fold w7 in Ht7, Hr7, Hn7. cbn [listeners fst] in Hr7.
  split_and!.
  - rewrite Ht8, Ht7, Ht, Ht5, <- !app_assoc. done.
  - done.
  - by rewrite Hr8, Hr7.
  - rewrite Hr8, Hr7, Hmid. by apply hear_test_events.
  - rewrite Hn8, Hn7. unfold total. by rewrite Hn5.
Qed.
End RunEvents.

Section ReporterCounts.
Context {U : Type}.
Variable RegExp : string -> regexp.

Lemma task_event_takes ev : task_event ev -> takes ev.
Proof. destruct ev as [t|t|t d|t d e|t|d]; try done. by destruct e. Qed.

Lemma runSuite_counts (suite : @Suite U) pc pb pa (w : @world U) :
  counts_ok (reporter w) ->
  counts_ok (reporter (runSuite RegExp suite pc pb pa w).1.1).
Proof.
  apply (suite_keeps RegExp (fun w0 : @world U => counts_ok (reporter w0)));
    try (by intros [] ?).
  - intros w0 ev Hev Hw0. destruct w0. cbn in *.
    apply listeners_counts; [by apply task_event_takes|done].
Qed.

(** X3: Whatever events a new reporter hears, as long as every [testFail]
    among them carries an error, its three counters are the numbers of the
    lines of each status in its array, and the array has as many lines as
    the counters add up to.  A [testFail] whose error is [undefined] or
    [null] is counted, but the listener throws before it has pushed a line.
    The run of a suite keeps the counters and the lines in agreement. *)
Theorem reporter_counts_its_lines :
  (forall evs, Forall takes evs -> counts_ok (hear new_Reporter evs)) /\
  (forall title duration error r,
      nullish error = true ->
      let heard := listeners (TestFail title duration error) r in
      failed heard.1 = S (failed r) /\ reported heard.1 = reported r /\
      passed heard.1 = passed r /\ skipped heard.1 = skipped r /\
      exists e, heard.2 = Abrupt e) /\
  (forall (suite : @Suite U) pc pb pa (w : @world U),
      counts_ok (reporter w) ->
      counts_ok (reporter (runSuite RegExp suite pc pb pa w).1.1)).
Proof.
  split_and!.
  - intros evs Hevs. by apply hear_counts.
  - intros title duration error r Herr. destruct error; try discriminate Herr;
      cbn; split_and!; eauto.
  - apply runSuite_counts.
Qed.
End ReporterCounts.

Section Exhausted.
Context {U : Type}.
Local Abbreviation world := (@world U).
Local Abbreviation Test := (@Test U).

Lemma fails_in_a_row_advanced (test : Test) ctx n :
  forall (w w' : world) e,
    fails_in_a_row test ctx n w w' e ->
    advanced w w' (repeat (body_call test ctx) n).
Proof.
  induction n as [|n IH]; intros w w' e; [done|].
  destruct n as [|n]; cbn [fails_in_a_row].
  - intros H. by apply attempt_advanced in H as [? _].
  - intros (w1 & e1 & Hatt & Hrest).
    apply attempt_advanced in Hatt as [Hadv _].
    apply (advanced_trans _ _ _ _ _ Hadv (IH _ _ _ Hrest)).
Qed.

Lemma attempt_loop_exhausted (test : Test) ctx rounds :
  forall error attempts (w w' : world) e,
    0 <= attempts ->
    Z.of_nat rounds + attempts = Z.max (retryLimit test) 0 + 1 ->
    fails_in_a_row test ctx rounds w w' e ->
    run (attempt_loop test ctx rounds error attempts) w = (w', Fulfilled e).
Proof.
  induction rounds as [|rounds IH]; intros error attempts w w' e Hpos Hsum; [done|].
  rewrite attempt_loop_unfold. destruct rounds as [|rounds]; cbn [fails_in_a_row].
  - intros ->. destruct (Z.leb_spec (attempts + 1) (retryLimit test)); [lia|done].
  - intros (w1 & e1 & -> & Hrest).
    destruct (Z.leb_spec (attempts + 1) (retryLimit test)); [|lia].
    apply IH; [lia|lia|done].
Qed.

(** X20: A body that fails at every attempt is called [retry + 1] times, once
    if [retry] is negative.  The after chain runs, and the task ends with
    [testFail] and the error of the last attempt if that value is truthy;
    with [testPass] if the body throws a falsy value, such as [null], [0]
    or the empty string. *)
Theorem retries_exhausted ctx before after (test : Test)
    (w w1 w2 w3 : world) (e : value) :
  run (run_chain before ctx) w = (w1, Fulfilled tt) ->
  fails_in_a_row test ctx (S (Z.to_nat (retry (options test))))
                 (started test w1) w2 e ->
  run (run_chain after ctx) w2 = (w3, Fulfilled tt) ->
  let ev := if truthy e then TestFail (title test) (now w2 - now w1) e
            else TestPass (title test) (now w2 - now w1) in
  exists w4,
    run (testTask ctx before after test) w = (w4, Fulfilled tt) /\
    trace w4 =
      trace w ++ calls ctx (array_at before w) ++
      [Emitted (TestStart (title test))] ++
      repeat (body_call test ctx) (S (Z.to_nat (retry (options test)))) ++
      calls ctx (array_at after w) ++ [Emitted ev] /\
    reporter w4 = (listeners ev (reporter w)).1.
Proof.
  intros Hbefore Hbody Hafter. cbn zeta.
  rewrite testTask_unfold, Hbefore.
  assert (Hrounds : max_rounds test = S (Z.to_nat (retry (options test))))
    by (unfold max_rounds; by rewrite retryLimit_eq).
  rewrite Hrounds.
  rewrite (attempt_loop_exhausted test ctx _ VNull 0 (started test w1) w2 e);
    [|lia|rewrite retryLimit_eq; lia|done].
  cbn [finish]. rewrite Hafter. eexists. split; [reflexivity|].
  unfold verdict.
  set (ev := if truthy e then _ else _).
  destruct (emit_record ev w3) as (-> & -> & _).
  apply chain_fulfilled in Hbefore as [Hb _].
  apply chain_fulfilled in Hafter as [Ha _].
  apply fails_in_a_row_advanced in Hbody.
  destruct (started_advanced test w1) as (Hs1 & Hs2 & Hs3 & _).
  pose proof (array_at_advanced after _ _ _ Hbody) as Harr.
  unfold array_at in Harr at 2. rewrite Hs2 in Harr.
  fold (array_at after w1) in Harr.
  rewrite (array_at_advanced after _ _ _ Hb) in Harr.
  destruct Hb as (_ & Hb & Hbr & _), Ha as (_ & Ha & Har & _),
           Hbody as (_ & Hbody & Hbodyr & _).
  rewrite Ha, Hbody, Hs1, Hb, Harr, Har, Hbodyr, Hs3, Hbr.
  split; [by rewrite <- !app_assoc|done].
Qed.
End Exhausted.

Section OnlyOnSuites.
Context {U : Type}.
Variable RegExp : string -> regexp.
Local Abbreviation world := (@world U).
Local Abbreviation Suite := (@Suite U).

Lemma runSuite_unfold (suite : Suite) pc pb pa (w : world) :
  runSuite RegExp suite pc pb pa w =
  if s_skip suite then (w, suite, Done) else
  let (w, suite1) := merge_context suite pc w in
  let ctx := context suite1 in
  match run_hooks (beforeAll (hooks suite1)) ctx w with
  | (w, Done) =>
      let '(w, suite2, (before, after)) := computeMergedHooks suite1 pb pa w in
      match testsToRun RegExp suite2 (config w) with
      | Abrupt e => (w, suite2, Failed e)
      | Normal selected =>
          let testTasks := testTask ctx before after <$> selected in
          match runConcurrent testTasks (concurrency (config w)) (oracle w) w with
          | (sched, w, Resolved _) =>
              let w := set_oracle sched w in
              let '(w, children, r) :=
                each_child (fun child => runSuite RegExp child ctx before after)
                           (suites suite) w in
              let suite3 := set_suites children suite2 in
              match r with
              | Done =>
                  let (w, r) := run_hooks (afterAll (hooks suite3)) ctx w in
                  (w, suite3, r)
              | _ => (w, suite3, r)
              end
          | (sched, w, RcRejected e) => (set_oracle sched w, suite2, Failed e)
          | (sched, w, NeverResolves) => (set_oracle sched w, suite2, Hangs)
          | (sched, w, RcOutOfSchedule) => (set_oracle sched w, suite2, NoSchedule)
          end
      end
  | (w, r) => (w, suite1, r)
  end.
Proof. by destruct suite. Qed.

Lemma each_child_clear (run_child : Suite -> world -> world * Suite * settled)
    children : forall w,
  Forall (fun child => forall w,
            run_child (clear_only child) w =
            (let '(w', s', r) := run_child child w in (w', clear_only s', r)))
         children ->
  each_child run_child (List.map clear_only children) w =
  (let '(w', cs, r) := each_child run_child children w in
   (w', List.map clear_only cs, r)).
Proof.
  induction children as [|child rest IH]; intros w Hall; [done|].
  apply Forall_cons in Hall as [Hc Hrest]. cbn [List.map each_child].
  rewrite Hc. destruct (run_child child w) as [[w1 child'] r].
  destruct r; try done.
  rewrite (IH w1 Hrest). by destruct (each_child run_child rest w1) as [[w2 rest'] r].
Qed.

(** X21: [describe.only] marks a suite and nothing reads the mark: a suite
    runs as it does without the marks on it and on the suites below it;
    the world it leaves and the way it ends are the same, and so are the
    suites, marks apart. *)
Theorem runSuite_ignores_only_on_suites (suite : Suite) : forall pc pb pa (w : world),
  runSuite RegExp (clear_only suite) pc pb pa w =
  (let '(w', suite', r) := runSuite RegExp suite pc pb pa w in
   (w', clear_only suite', r)).
Proof.
  induction suite as [st ts ss hs cx so sk mg IH] using Suite_ind'.
  intros pc pb pa w. rewrite !runSuite_unfold. cbn [clear_only s_skip suites].
  destruct sk; [done|].
  unfold merge_context. cbn [context]. unfold set_context.
  cbn [s_title tests suites hooks context s_only s_skip merged beforeAll].
  destruct (run_hooks (beforeAll hs) _ _) as [w2 r2]. destruct r2; try done.
  unfold computeMergedHooks.
  cbn [s_title tests suites hooks context s_only s_skip merged set_merged].
  destruct mg as [[b a]|].
  - unfold testsToRun, eligible. cbn [tests].
    match goal with |- context [filter_with ?k ?l] =>
      destruct (filter_with k l) as [selected|e]; [|done] end.
    destruct (runConcurrent _ _ _ w2) as [[sched w4] o]. destruct o; try done.
    rewrite each_child_clear
      by (eapply Forall_impl; [exact IH|]; intros child Hc w0; apply Hc).
    destruct (each_child _ ss _) as [[w5 cs] r]. unfold set_suites.
    cbn [s_title tests suites hooks context s_only s_skip merged afterAll].
    destruct r; try done.
    match goal with |- context [run_hooks ?f ?c ?w0] =>
      destruct (run_hooks f c w0) end. reflexivity.
  - cbn zeta. unfold testsToRun, eligible, set_merged.
    cbn [s_title tests suites hooks context s_only s_skip merged].
    match goal with |- context [filter_with ?k ?l] =>
      destruct (filter_with k l) as [selected|e]; [|done] end.
    match goal with |- context [runConcurrent ?t ?c ?o ?w3] =>
      destruct (runConcurrent t c o w3) as [[sched w4] o'] end.
    destruct o'; try done.
    rewrite each_child_clear
      by (eapply Forall_impl; [exact IH|]; intros child Hc w0; apply Hc).
    destruct (each_child _ ss _) as [[w5 cs] r]. unfold set_suites.
    cbn [s_title tests suites hooks context s_only s_skip merged afterAll].
    destruct r; try done.
    match goal with |- context [run_hooks ?f ?c ?w0] =>
      destruct (run_hooks f c w0) end. reflexivity.
Qed.
End OnlyOnSuites.

Section SuiteFrame.
Context {U : Type}.
Variable RegExp : string -> regexp.
Local Abbreviation world := (@world U).
Local Abbreviation Suite := (@Suite U).

Lemma run_hooks_done fns ctx (w w' : world) :
  run_hooks fns ctx w = (w', Done) -> advanced w w' (calls ctx fns).
Proof.
  unfold run_hooks.
  destruct (run (for_each fns _) w) as [w1 o] eqn:Hrun.
  apply chain_advanced in Hrun as (n & Hadv & _ & _ & Hn & _).
  destruct o as [[]|e|]; intros [= <-].
  by rewrite (Hn eq_refl), firstn_all in Hadv.
Qed.

Lemma computeMergedHooks_fields (suite : Suite) pb pa (w : world) :
  let r := computeMergedHooks suite pb pa w in
  trace r.1.1 = trace w /\ reporter r.1.1 = reporter w /\
  hooks r.1.2 = hooks suite /\ context r.1.2 = context suite.
Proof.
  unfold computeMergedHooks. destruct (merged suite) as [[b a]|]; [done|].
  by destruct w, suite.
Qed.

Lemma since_closed t0 r0 :
  (forall (w : world) u, since t0 r0 w -> since t0 r0 (set_ust u w)) /\
  (forall (w : world) name this,
      since t0 r0 w -> since t0 r0 (record (Called name this) w)) /\
  (forall (w : world) t, since t0 r0 w -> since t0 r0 (set_now t w)) /\
  (forall (w : world) t, since t0 r0 w -> since t0 r0 (set_currentTestTitle t w)) /\
  (forall (w : world) a, since t0 r0 w -> since t0 r0 (set_arrays a w)) /\
  (forall (w : world) o, since t0 r0 w -> since t0 r0 (set_oracle o w)) /\
  (forall (w : world) ev, test_event ev -> since t0 r0 w ->
                          since t0 r0 (notify ev (record (Emitted ev) w))).
Proof.
  split_and!.
  - intros w0 u. by apply since_same; destruct w0.
  - intros w0 name this. apply since_call.
  - intros w0 t. by apply since_same; destruct w0.
  - intros w0 t. by apply since_same; destruct w0.
  - intros w0 a. by apply since_same; destruct w0.
  - intros w0 o. by apply since_same; destruct w0.
  - intros w0 ev. apply since_emit.
Qed.

(** X22: A suite that is run to its end calls its [beforeAll] hooks first and
    its [afterAll] hooks last, in the order of registration and on the
    context of the suite; what lies between are the calls and the events of
    its tests and of the suites below it. *)
Theorem runSuite_hooks_frame (suite suite' : Suite) pc pb pa (w w' : world) :
  s_skip suite = false ->
  runSuite RegExp suite pc pb pa w = (w', suite', Done) ->
  exists l,
    trace w' = trace w ++ calls (context suite') (beforeAll (hooks suite)) ++
               l ++ calls (context suite') (afterAll (hooks suite)) /\
    Forall test_event (emitted l) /\
    reporter w' = hear (reporter w) (emitted l).
Proof.
  intros Hskip. rewrite runSuite_unfold, Hskip.
  assert (Hm : trace (merge_context suite pc w).1 = trace w /\
               reporter (merge_context suite pc w).1 = reporter w /\
               hooks (merge_context suite pc w).2 = hooks suite)
    by (by destruct w, suite).
  destruct (merge_context suite pc w) as [w1 suite1]. cbn [fst snd] in Hm.
  destruct Hm as (Ht1 & Hr1 & Hh1). cbn zeta.
  destruct (run_hooks (beforeAll (hooks suite1)) (context suite1) w1)
    as [w2 r2] eqn:Hbefore.
  destruct r2; try done. apply run_hooks_done in Hbefore.
  destruct Hbefore as (_ & Ht2 & Hr2 & _).
  pose proof (computeMergedHooks_fields suite1 pb pa w2) as Hc.
  destruct (computeMergedHooks suite1 pb pa w2) as [[w3 suite2] [before after]].
  cbn [fst snd] in Hc. destruct Hc as (Ht3 & Hr3 & Hh2 & Hc2).
  destruct (since_closed (trace w3) (reporter w3))
    as (S1 & S2 & S3 & S4 & S5 & S6 & S7).
  destruct (testsToRun RegExp suite2 (config w3)) as [selected|e]; [|done].
  pose proof (tests_keep (since (trace w3) (reporter w3)) S1 S3 S4
                (fun w0 ev Hev => S7 w0 ev (task_event_test_event ev Hev))
                (context suite1) (fun w0 name => S2 w0 name _)
                before after selected (concurrency (config w3)) (oracle w3) w3
                (since_refl w3)) as H4.
  destruct (runConcurrent _ _ _ w3) as [[sched' w4] o].
  cbn [fst snd] in H4. destruct o as [results|e| |]; try done.
  pose proof (each_child_keeps (since (trace w3) (reporter w3))
                (fun child => runSuite RegExp child (context suite1) before after)
                (suites suite) (set_oracle sched' w4)) as H5.
  destruct (each_child _ (suites suite) (set_oracle sched' w4)) as [[w5 children] r].
  cbn [fst] in H5.
  assert (H6 : since (trace w3) (reporter w3) w5).
  { apply H5; [|by apply S6].
    apply Forall_forall. intros child _ w0. apply runSuite_since. }
  destruct r; try done.
  assert (Hh3 : hooks (set_suites children suite2) = hooks suite)
    by (rewrite <- Hh1, <- Hh2; by destruct suite2).
  assert (Hc3 : context (set_suites children suite2) = context suite1)
    by (rewrite <- Hc2; by destruct suite2).
  rewrite Hh3.
  destruct (run_hooks (afterAll (hooks suite)) (context suite1) w5)
    as [w6 r6] eqn:Hafter.
  intros [= <- <- ->]. apply run_hooks_done in Hafter.
  destruct Hafter as (_ & Ht6 & Hr6 & _).
  destruct H6 as (l & Ht5 & Hl & Hr5). exists l. rewrite Hc3.
  split_and!; [|done|].
  - rewrite Ht6, Ht5, Ht3, Ht2, Ht1, Hh1, <- !app_assoc. done.
  - by rewrite Hr6, Hr5, Hr3, Hr2, Hr1.
Qed.
End SuiteFrame.

(** ** The context of a suite *)

Section Contexts.
Context {U : Type}.
Variable RegExp : string -> regexp.
Local Abbreviation world := (@world U).
Local Abbreviation Suite := (@Suite U).

Lemma new_object_fresh (w : world) :
  (new_object w ∉ dom (ctxs (ust w))) /\ (new_object w ∉ objects w).
Proof.
  pose proof (is_fresh (dom (ctxs (ust w)) ∪ objects w)) as H.
  unfold new_object. set_solver.
Qed.

Lemma allocate_lookup (w : world) c keys :
  ctxs (ust (allocate c keys w)) !! c = Some keys /\
  forall l, l <> c -> ctxs (ust (allocate c keys w)) !! l = ctxs (ust w) !! l.
Proof.
  destruct w; cbn. split; [apply lookup_insert_eq|].
  intros l Hl. by apply lookup_insert_ne.
Qed.

Lemma runSuite_context_field (suite : Suite) pc pb pa (w : world) :
  s_skip suite = false ->
  context (runSuite RegExp suite pc pb pa w).1.2 = new_object w.
Proof.
  intros Hskip. rewrite runSuite_unfold, Hskip. unfold merge_context.
  assert (Hc : context (set_context (new_object w) suite) = new_object w)
    by (by destruct suite).
  set (suite1 := set_context (new_object w) suite) in *.
  destruct (run_hooks _ _ _) as [w2 [|e| |]]; try done.
  pose proof (computeMergedHooks_suite suite1 pb pa w2) as (_ & _ & _ & Hctx).
  destruct (computeMergedHooks suite1 pb pa w2) as [[w3 suite2] [before after]].
  cbn [fst snd] in Hctx.
  destruct (testsToRun RegExp suite2 (config w3)) as [selected|e];
    [|by rewrite <- Hc, <- Hctx].
  destruct (runConcurrent _ _ _ w3) as [[sched w4] [results|e| |]];
    try by rewrite <- Hc, <- Hctx.
  destruct (each_child _ _ (set_oracle sched w4)) as [[w5 children] r].
  assert (context (set_suites children suite2) = new_object w) as Hctx'
      by (rewrite <- Hc, <- Hctx; by destruct suite2).
  destruct r as [|e| |]; try done.
  by destruct (run_hooks _ _ w5).
Qed.

(** Since the history was [t0], calls have been made on [c] only, and no
    object has been created: the set of objects is [O]. *)
Local Abbreviation own_calls c O t0 :=
  (fun w : world =>
     objects w = O /\ exists l, trace w = t0 ++ l /\ Forall (on_context c) l).

(** Since the history was [t0], calls have been made only on objects that
    did not exist when the set of objects was [O]. *)
Local Abbreviation later_calls O t0 :=
  (fun w : world =>
     O ⊆ objects w /\
     exists l, trace w = t0 ++ l /\ Forall (called_on (fun x => x ∉ O)) l).

Lemma own_same c O t0 (w w' : world) :
  trace w' = trace w -> objects w' = objects w ->
  own_calls c O t0 w -> own_calls c O t0 w'.
Proof. intros Ht Ho (? & l & ? & ?). rewrite Ht, Ho. eauto. Qed.

Lemma own_entry c O t0 (w : world) e :
  on_context c e -> own_calls c O t0 w -> own_calls c O t0 (record e w).
Proof.
  intros He (HO & l & Ht & Hl). split; [by destruct w|].
  exists (l ++ [e]). split.
  - destruct w; cbn in *. by rewrite Ht, app_assoc.
  - apply Forall_app. split; [done|by constructor].
Qed.

Lemma own_hooks c O t0 fns (w : world) :
  own_calls c O t0 w -> own_calls c O t0 (run_hooks fns c w).1.
Proof.
  apply (hooks_keep (own_calls c O t0)).
  - intros w0 u. by apply own_same; destruct w0.
  - intros w0 name. by apply own_entry.
Qed.

Lemma own_tests c O t0 before after (selected : list (@Test U)) limit sched
    (w : world) :
  own_calls c O t0 w ->
  own_calls c O t0
    (runConcurrent (testTask c before after <$> selected) limit sched w).1.2.
Proof.
  apply (tests_keep (own_calls c O t0)).
  - intros w0 u. by apply own_same; destruct w0.
  - intros w0 t. by apply own_same; destruct w0.
  - intros w0 t. by apply own_same; destruct w0.
  - intros w0 ev _ Hw0.
    apply (own_same c O t0 (record (Emitted ev) w0)); [by destruct w0..|].
    by apply own_entry.
  - intros w0 name. by apply own_entry.
Qed.

Lemma computeMergedHooks_same (suite : Suite) pb pa (w : world) :
  trace (computeMergedHooks suite pb pa w).1.1 = trace w /\
  objects (computeMergedHooks suite pb pa w).1.1 = objects w.
Proof.
  unfold computeMergedHooks. destruct (merged suite) as [[b a]|]; [done|].
  by destruct w.
Qed.

Lemma later_same O t0 (w w' : world) :
  trace w' = trace w -> objects w' = objects w ->
  later_calls O t0 w -> later_calls O t0 w'.
Proof. intros Ht Ho (? & l & ? & ?). rewrite Ht, Ho. eauto. Qed.

Lemma later_entry O t0 (w : world) e :
  called_on (fun x => x ∉ O) e -> later_calls O t0 w -> later_calls O t0 (record e w).
Proof.
  intros He (HO & l & Ht & Hl). split; [by destruct w|].
  exists (l ++ [e]). split.
  - destruct w; cbn in *. by rewrite Ht, app_assoc.
  - apply Forall_app. split; [done|by constructor].
Qed.

Lemma later_suite O t0 (suite : Suite) pc pb pa (w : world) :
  later_calls O t0 w -> later_calls O t0 (runSuite RegExp suite pc pb pa w).1.1.
Proof.
  apply (runSuite_keeps RegExp (later_calls O t0) (fun _ => True) (fun x => x ∉ O)).
  - intros fn ctx _ Hctx. apply keeps_call.
    + intros w0 u. by apply later_same; destruct w0.
    + intros w0 name. by apply later_entry.
  - intros w0 t. by apply later_same; destruct w0.
  - intros w0 t. by apply later_same; destruct w0.
  - intros w0 o. by apply later_same; destruct w0.
  - intros w0 ev _ Hw0.
    apply (later_same O t0 (record (Emitted ev) w0)); [by destruct w0..|].
    by apply later_entry.
  - intros w0 chain _. by apply Forall_true.
  - intros w0 chain fns Hw0 _. revert Hw0. by apply later_same; destruct w0.
  - intros w0 keys (HO & l & Ht & Hl). split; [destruct w0; cbn in *; set_solver|].
    exists l. by destruct w0.
  - intros w0 (HO & _). pose proof (new_object_fresh w0) as [_ Hn]. set_solver.
  - by apply Forall_true.
Qed.

Lemma later_children O t0 c before after (children : list Suite) (w : world) :
  later_calls O t0 w ->
  later_calls O t0
    (each_child (fun child => runSuite RegExp child c before after) children w).1.1.
Proof.
  apply each_child_keeps. apply Forall_forall. intros child _ w0.
  apply later_suite.
Qed.

(** The history of the run of a suite: the calls of the suite itself,
    all on its context, before and after those of the runs of its
    children, which are on objects created later. *)
Lemma runSuite_calls (suite suite' : Suite) pc pb pa (w w' : world) r :
  s_skip suite = false ->
  runSuite RegExp suite pc pb pa w = (w', suite', r) ->
  let c := new_object w in
  let w1 := allocate c (context_at (context suite) w ∪ context_at pc w) w in
  exists own1 kids own2,
    trace w' = trace w ++ own1 ++ kids ++ own2 /\
    Forall (on_context c) (own1 ++ own2) /\
    Forall (called_on (fun l => l ∉ objects w1)) kids /\
    ((kids = [] /\ own2 = [] /\ suites suite' = suites suite) \/
     exists before after w4 w5 r5,
       trace w4 = trace w ++ own1 /\
       each_child (fun child => runSuite RegExp child c before after)
                  (suites suite) w4 = (w5, suites suite', r5) /\
       trace w5 = trace w4 ++ kids).
Proof.
  intros Hskip. rewrite runSuite_unfold, Hskip. unfold merge_context. cbn zeta.
  set (c := new_object w). set (w1 := allocate c _ w).
  assert (Hc : context (set_context c suite) = c) by (by destruct suite).
  assert (Hss : suites (set_context c suite) = suites suite) by (by destruct suite).
  set (suite1 := set_context c suite) in *. rewrite Hc.
  assert (H1 : own_calls c (objects w1) (trace w) w1).
  { split; [done|]. exists []. rewrite app_nil_r. split; [by destruct w|constructor]. }
  pose proof (own_hooks c _ _ (beforeAll (hooks suite1)) w1 H1) as H2.
  destruct (run_hooks _ c w1) as [w2 r2]. cbn [fst] in H2.
  assert (Hstop : forall (wx : world) (sx : Suite) rx,
             own_calls c (objects w1) (trace w) wx ->
             suites sx = suites suite ->
             (wx, sx, rx) = (w', suite', r) ->
             exists own1 kids own2,
               trace w' = trace w ++ own1 ++ kids ++ own2 /\
               Forall (on_context c) (own1 ++ own2) /\
               Forall (called_on (fun l => l ∉ objects w1)) kids /\
               ((kids = [] /\ own2 = [] /\ suites suite' = suites suite) \/
                exists before after w4 w5 r5,
                  trace w4 = trace w ++ own1 /\
                  each_child (fun child => runSuite RegExp child c before after)
                             (suites suite) w4 = (w5, suites suite', r5) /\
                  trace w5 = trace w4 ++ kids)).
  { intros wx sx rx (_ & l & Ht & Hl) Hsx [= <- <- <-].
    exists l, [], []. rewrite !app_nil_r. split_and!; [done|done|constructor|by left]. }
  destruct r2 as [|e| |]; try by apply Hstop.
  pose proof (computeMergedHooks_same suite1 pb pa w2) as [Ht3 Ho3].
  pose proof (computeMergedHooks_suite suite1 pb pa w2) as (_ & Hss2 & Hh2 & _).
  destruct (computeMergedHooks suite1 pb pa w2) as [[w3 suite2] [before after]].
  cbn [fst snd] in Ht3, Ho3, Hss2, Hh2.
  assert (H3 : own_calls c (objects w1) (trace w) w3) by (by apply (own_same _ _ _ w2)).
  rewrite Hss in Hss2.
  destruct (testsToRun RegExp suite2 (config w3)) as [selected|e]; [|by apply Hstop].
  pose proof (own_tests c _ _ before after selected (concurrency (config w3))
                (oracle w3) w3 H3) as H4.
  destruct (runConcurrent _ _ _ w3) as [[sched w4] o]. cbn [fst snd] in H4.
  assert (H4' : own_calls c (objects w1) (trace w) (set_oracle sched w4))
    by (by apply (own_same _ _ _ w4); [destruct w4..|]).
  destruct o as [results|e| |]; try by apply Hstop.
  assert (H5 : later_calls (objects w1) (trace (set_oracle sched w4))
                 (set_oracle sched w4)).
  { destruct H4' as (-> & _). split; [done|]. exists []. by rewrite app_nil_r. }
  apply (later_children _ _ c before after (suites suite)) in H5.
  destruct (each_child _ (suites suite) (set_oracle sched w4))
    as [[w5 children] r5] eqn:Hkids.
  cbn [fst] in H5.
  destruct H4' as (_ & own1 & Ht4 & Hown1). destruct H5 as (HO5 & kids & Ht5 & Hkids5).
  assert (Hs3 : suites (set_suites children suite2) = children) by (by destruct suite2).
  assert (Hh3 : hooks (set_suites children suite2) = hooks suite2) by (by destruct suite2).
  assert (Hmid : r5 <> Done ->
            (w5, set_suites children suite2, r5) = (w', suite', r) ->
            exists own1 kids own2,
               trace w' = trace w ++ own1 ++ kids ++ own2 /\
               Forall (on_context c) (own1 ++ own2) /\
               Forall (called_on (fun l => l ∉ objects w1)) kids /\
               ((kids = [] /\ own2 = [] /\ suites suite' = suites suite) \/
                exists before after w4 w5 r5,
                  trace w4 = trace w ++ own1 /\
                  each_child (fun child => runSuite RegExp child c before after)
                             (suites suite) w4 = (w5, suites suite', r5) /\
                  trace w5 = trace w4 ++ kids)).
  { intros _ [= <- <- <-]. exists own1, kids, [].
    rewrite !app_nil_r. split_and!; [by rewrite Ht5, Ht4, app_assoc|done|done|].
    right. exists before, after, (set_oracle sched w4), w5, r5.
    by rewrite Hs3. }
  destruct r5 as [|e| |]; try by (apply Hmid).
  pose proof (own_hooks c (objects w5) (trace w5)
                (afterAll (hooks (set_suites children suite2))) w5) as H6.
  destruct (run_hooks _ c w5) as [w6 r6]. cbn [fst] in H6.
  destruct H6 as (_ & own2 & Ht6 & Hown2).
  { split; [done|]. exists []. by rewrite app_nil_r. }
  intros [= <- <- <-]. exists own1, kids, own2. split_and!.
  - by rewrite Ht6, Ht5, Ht4, <- !app_assoc.
  - by apply Forall_app.
  - done.
  - right. exists before, after, (set_oracle sched w4), w5, Done. by rewrite Hs3.
Qed.

(** What exists is left as it is by functions that write to their [this]
    only: the location [l] holds [keys], it has been taken, and the hook
    arrays hold such functions only. *)
Local Abbreviation untouched l keys :=
  (fun w : world =>
     ctxs (ust w) !! l = keys /\
     l ∈ dom (ctxs (ust w)) ∪ objects w /\
     forall chain, Forall writes_this_only (array_at chain w)).

Lemma untouched_call l keys (fn : @callable U) ctx :
  writes_this_only fn -> ctx <> l -> keeps (untouched l keys) (call fn ctx).
Proof.
  intros Hfn Hne w Hw. unfold call.
  apply (keeps_zoom ust set_ust (fun u => ctxs u !! l = keys) (untouched l keys)).
  - by intros b (? & _).
  - intros b u (Hb & Hin & Harr) Hu. split_and!; [done| |done].
    apply elem_of_union in Hin as [Hin|Hin]; [|by apply elem_of_union_r].
    apply elem_of_union_l. apply elem_of_dom in Hin as [x Hx].
    apply elem_of_dom. exists x. cbn. by rewrite Hu, <- Hb.
  - by apply Hfn.
  - by destruct w.
Qed.

Lemma runSuite_untouched (suite : Suite) pc pb pa (w : world) l :
  Forall writes_this_only (functions suite) ->
  (forall chain, Forall writes_this_only (array_at chain w)) ->
  l ∈ dom (ctxs (ust w)) ∪ objects w ->
  ctxs (ust (runSuite RegExp suite pc pb pa w).1.1) !! l = ctxs (ust w) !! l.
Proof.
  intros Hfns Harr Hl.
  assert (H : untouched l (ctxs (ust w) !! l) (runSuite RegExp suite pc pb pa w).1.1);
    [|by destruct H].
  apply (runSuite_keeps RegExp (untouched l (ctxs (ust w) !! l)) writes_this_only
           (fun c => c <> l)); [..|done|done].
  - intros fn ctx. apply untouched_call.
  - intros w0 t. by destruct w0.
  - intros w0 t. by destruct w0.
  - intros w0 o. by destruct w0.
  - intros w0 ev _. by destruct w0.
  - intros w0 chain (_ & _ & H). apply H.
  - intros w0 chain fns (H1 & H2 & H3) Hfn. split_and!; [by destruct w0..|].
    intros chain'. unfold array_at. destruct w0; cbn in *.
    destruct (decide (chain' = chain)) as [->|Hne].
    + by rewrite lookup_insert_eq.
    + rewrite lookup_insert_ne by done. apply H3.
  - intros w0 keys (H1 & H2 & H3).
    pose proof (new_object_fresh w0) as [Hn1 Hn2].
    assert (new_object w0 <> l) as Hne
      by (intros <-; apply elem_of_union in H2 as [?|?]; done).
    split_and!.
    + by rewrite (proj2 (allocate_lookup w0 _ _)).
    + apply elem_of_union in H2 as [H2|H2].
      * apply elem_of_union_l, elem_of_dom.
        rewrite (proj2 (allocate_lookup w0 _ _)) by done. by apply elem_of_dom.
      * apply elem_of_union_r. destruct w0; cbn in *. by apply elem_of_union_r.
    + intros chain. apply H3.
  - intros w0 (_ & H2 & _) <-. pose proof (new_object_fresh w0) as [Hn1 Hn2].
    apply elem_of_union in H2 as [?|?]; done.
Qed.

End Contexts.

(** ** A pattern that is not a regular expression *)

Section InvalidGrep.
Context {U : Type}.
Variable RegExp : string -> regexp.
Local Abbreviation world := (@world U).
Local Abbreviation Suite := (@Suite U).

(** X24: Where [grep] is a pattern that [new RegExp] refuses, a suite that
    has tests, none of them marked [only], does not get to run any of
    them: when its [beforeAll] hooks have completed [runSuite] fails with
    the [SyntaxError], thrown by the filter at the first test.  The history
    has the calls of [beforeAll] hooks and nothing else, no event is
    emitted, and the run of the suite does not complete. *)
Theorem invalid_grep_fails_the_suite (suite : Suite) pc pb pa (w : world)
    pattern message :
  s_skip suite = false ->
  grep (config w) = Some pattern ->
  pattern <> "" ->
  RegExp pattern = InvalidPattern message ->
  existsb t_only (tests suite) = false ->
  tests suite <> [] ->
  let c := new_object w in
  let w1 := allocate c (context_at (context suite) w ∪ context_at pc w) w in
  let '(w', suite', r) := runSuite RegExp suite pc pb pa w in
  (exists n, (n <= length (beforeAll (hooks suite)))%nat /\
             trace w' = trace w ++ calls c (take n (beforeAll (hooks suite)))) /\
  reporter w' = reporter w /\
  r <> Done /\
  ((run_hooks (beforeAll (hooks suite)) c w1).2 = Done ->
   r = Failed (VError message) /\
   trace w' = trace w ++ calls c (beforeAll (hooks suite))).
Proof.
  intros Hskip Hgrep Hne Hre Honly Hts. cbn zeta.
  rewrite runSuite_unfold, Hskip. unfold merge_context. cbn zeta.
  set (c := new_object w). set (w1 := allocate c _ w).
  assert (Hc : context (set_context c suite) = c) by (by destruct suite).
  assert (Hh : hooks (set_context c suite) = hooks suite) by (by destruct suite).
  assert (Htests : tests (set_context c suite) = tests suite) by (by destruct suite).
  set (suite1 := set_context c suite) in *. rewrite Hc, Hh.
  unfold run_hooks.
  destruct (run (for_each (beforeAll (hooks suite)) _) w1) as [w2 o] eqn:Hrun.
  apply (chain_advanced (beforeAll (hooks suite)) c) in Hrun
    as (n & (_ & Ht2 & Hr2 & _ & Hcfg & _) & _ & Hn & Hfull & _).
  assert (Ht1 : trace w1 = trace w) by (by destruct w).
  assert (Hr1 : reporter w1 = reporter w) by (by destruct w).
  assert (Hcfg1 : config w1 = config w) by (by destruct w).
  rewrite Ht1 in Ht2. rewrite Hr1 in Hr2. rewrite Hcfg1 in Hcfg.
  destruct o as [[]|e|]; cbn [settled_of snd].
  2,3: split_and!; [by exists n|done|done|done].
  pose proof (computeMergedHooks_same suite1 pb pa w2) as [Ht3 _].
  pose proof (computeMergedHooks_suite suite1 pb pa w2) as (Hts2 & _).
  assert (Hcfg3 : config (computeMergedHooks suite1 pb pa w2).1.1 = config w2 /\
                  reporter (computeMergedHooks suite1 pb pa w2).1.1 = reporter w2).
  { unfold computeMergedHooks. destruct (merged suite1) as [[b a]|]; [done|].
    by destruct w2. }
  destruct (computeMergedHooks suite1 pb pa w2) as [[w3 suite2] [before after]].
  cbn [fst snd] in Ht3, Hts2, Hcfg3. destruct Hcfg3 as [Hcfg3 Hr3].
  rewrite Htests in Hts2.
  assert (Hsel : testsToRun RegExp suite2 (config w3) = Abrupt (VError message)).
  { unfold testsToRun. rewrite Hts2. apply filter_with_throws; [done|].
    intros test. unfold eligible. rewrite Hts2, Honly, Hcfg3, Hcfg, Hgrep.
    destruct (String.eqb_spec pattern "") as [->|_]; [done|]. by rewrite Hre. }
  rewrite Hsel. rewrite (Hfull eq_refl), firstn_all in Ht2.
  split_and!.
  - exists (length (beforeAll (hooks suite))).
    split; [done|]. by rewrite firstn_all, Ht3.
  - by rewrite Hr3.
  - done.
  - intros _. split; [done|]. by rewrite Ht3.
Qed.
End InvalidGrep.

Section OnlyAndGrep.
Context {U : Type}.
Variable RegExp : string -> regexp.

(** X23: When a test of the suite is marked [only], the tests that run are
    the marked tests of that suite, in the order of registration, whatever
    the pattern of [grep], which is not even compiled, and whatever their
    [skip] flags; the marks of other suites play no part. *)
Theorem only_beats_grep (suite : @Suite U) (cfg : Config) (t : @Test U) :
  t ∈ tests suite -> t_only t = true ->
  testsToRun RegExp suite cfg = Normal (List.filter t_only (tests suite)) /\
  t ∈ List.filter t_only (tests suite).
Proof.
  intros Hin Honly.
  assert (Hex : existsb t_only (tests suite) = true).
  { apply existsb_exists. exists t. split; [by apply list_elem_of_In|done]. }
  split.
  - unfold testsToRun. apply filter_with_total.
    intros t0 _. unfold eligible. by rewrite Hex.
  - apply list_elem_of_In, filter_In.
    split; [by apply list_elem_of_In|done].
Qed.
End OnlyAndGrep.

Section RunFailure.
Context {U : Type}.
Variable RegExp : string -> regexp.
Local Abbreviation world := (@world U).
Local Abbreviation Suite := (@Suite U).

(** X19: A run that does not complete, because a hook outside the tasks
    rejects, a test never settles or the schedule runs out, emits no
    [runEnd]: with no global after hooks, the history of such a run holds
    at most [suiteStart] followed by calls and events of tests. *)
Theorem runTests_failure_emits_no_runEnd globalBefore (rootSuite suite' : Suite)
    (w w' : world) (r : settled) :
  runTests RegExp globalBefore [] rootSuite w = (w', suite', r) ->
  r <> Done ->
  exists l,
    trace w' = trace w ++ l /\
    (forall total, Emitted (RunEnd total) ∉ l) /\
    reporter w' = hear (reporter w) (emitted l).
Proof.
  unfold runTests.
  destruct (run_globals_same globalBefore w) as (Ht1 & Hr1 & Hn1).
  destruct (run_globals globalBefore w) as [w1 r1]. cbn [fst] in *.
  assert (Hnone : forall r0, (w1, rootSuite, r0) = (w', suite', r) ->
            exists l, trace w' = trace w ++ l /\
                      (forall total, Emitted (RunEnd total) ∉ l) /\
                      reporter w' = hear (reporter w) (emitted l)).
  { intros r0 [= <- <- <-]. exists []. rewrite app_nil_r.
    split_and!; [done| |done]. intros total. apply not_elem_of_nil. }
  destruct r1; try (intros Heq _; by apply (Hnone _ Heq)). clear Hnone.
  rewrite run_emit. cbn [listeners snd].
  set (w2 := notify _ (record _ w1)).
  set (pc := new_object w2). set (w3 := allocate pc ∅ w2).
  set (pb := fresh _). set (w4 := set_arrays _ w3).
  set (pa := fresh _). set (w5 := set_arrays _ w4).
  assert (Ht5 : trace w5 = trace w ++ [Emitted (SuiteStart (s_title rootSuite))]).
  { rewrite <- Ht1. by destruct w1. }
  assert (Hr5 : reporter w5 = reporter w).
  { rewrite <- Hr1. by destruct w1. }
  destruct (runSuite_since RegExp rootSuite pc pb pa w5 _ _ (since_refl w5))
    as (l & Ht & Hl & Hr).
  destruct (runSuite RegExp rootSuite pc pb pa w5) as [[w6 suite6] r6].
  cbn [fst] in *.
  assert (Hfail : (w6, suite6, r6) = (w', suite', r) ->
            exists l, trace w' = trace w ++ l /\
                      (forall total, Emitted (RunEnd total) ∉ l) /\
                      reporter w' = hear (reporter w) (emitted l)).
  { intros [= <- <- <-].
    exists (Emitted (SuiteStart (s_title rootSuite)) :: l).
    split_and!.
    - rewrite Ht, Ht5, <- app_assoc. done.
    - intros total Hin. apply elem_of_cons in Hin as [[=]|Hin].
      assert (RunEnd total ∈ emitted l) as Hev.
      { unfold emitted. apply list_elem_of_omap. by exists (Emitted (RunEnd total)). }
      rewrite Forall_forall in Hl. by apply Hl in Hev.
    - rewrite Hr, Hr5. reflexivity. }
  destruct r6; try (intros Heq _; by apply Hfail).
  rewrite run_emit. cbn. intros [= <- <- <-] Hne. by destruct Hne.
Qed.
End RunFailure.

(** ** The properties above on the sample files *)

Section MoreWitnesses.
Import Samples MoreSamples.

Lemma index_aligned_witness :
  (forall i task, three_tasks !! i = Some task ->
                  forall s, settles 1 (three_outcomes i) (task s).2) /\
  (length three_tasks * 2 <= length [1; 0; 1; 0; 0; 0])%nat /\
  (exists sched' s' rs,
      runConcurrent three_tasks 2 [1; 0; 1; 0; 0; 0]%nat [] =
        (sched', s', Resolved rs) /\
      length rs = length three_tasks /\
      forall i, (i < length three_tasks)%nat ->
                exists r, rs !! i = Some (Some r) /\ three_outcomes i r) /\
  (exists sched' s' rs,
      runConcurrent (logged three_tasks) 2 [1; 0; 1; 0; 0; 0]%nat ([], [7%nat]) =
        (sched', (s', [7%nat] ++ seq 0 (length three_tasks)), Resolved rs) /\
      length rs = length three_tasks /\
      forall i, (i < length three_tasks)%nat ->
                exists r, rs !! i = Some (Some r) /\ three_outcomes i r).
Proof.
  split; [exact three_tasks_settle|]. split; [simpl; lia|].
  apply (runConcurrent_index_aligned three_tasks three_outcomes 1 2
           [1; 0; 1; 0; 0; 0]%nat [] [7%nat] three_tasks_settle).
  - lia.
  - simpl. lia.
Defined.

Lemma invalid_grep_witness :
  Cli.grep (Cli.process_arg "--grep=(a=b)" (Cli.defaultConfig "")) = Some "(a" /\
  s_skip opened = false /\
  grep (config unbalanced_world) = Some "(a" /\
  "(a" <> "" /\
  sample_RegExp "(a" =
    InvalidPattern "Invalid regular expression: /(a/: Unterminated group" /\
  existsb t_only (tests opened) = false /\
  tests opened <> [] /\
  let '(w', suite', r) :=
    runSuite sample_RegExp opened 0%nat 0%nat 1%nat unbalanced_world in
  r = Failed (VError "Invalid regular expression: /(a/: Unterminated group") /\
  trace w' = [Called "open" 1%nat] /\
  reporter w' = reporter unbalanced_world.
Proof.
  split; [reflexivity|].
  split; [reflexivity|]. split; [reflexivity|]. split; [discriminate|].
  split; [reflexivity|]. split; [reflexivity|]. split; [discriminate|].
  pose proof (invalid_grep_fails_the_suite sample_RegExp opened 0%nat 0%nat 1%nat
                unbalanced_world "(a"
                "Invalid regular expression: /(a/: Unterminated group"
                eq_refl eq_refl ltac:(discriminate) eq_refl eq_refl
                ltac:(discriminate)) as H.
  cbn zeta in H.
  destruct (runSuite sample_RegExp opened 0%nat 0%nat 1%nat unbalanced_world)
    as [[w' suite'] r].
  destruct H as (_ & Hr & _ & Hdone).
  destruct (Hdone ltac:(vm_compute; reflexivity)) as [Hfail Htrace].
  split; [exact Hfail|]. split; [|exact Hr].
  rewrite Htrace. vm_compute. reflexivity.
Defined.

Lemma resolves_complete_witness :
  (forall i task, three_tasks !! i = Some task ->
                  forall s, ends_in (three_outcomes i) (task s).2) /\
  1 <= 2 /\
  (exists rs,
      (runConcurrent three_tasks 2 [1; 0; 1; 0; 0; 0]%nat []).2 = Resolved rs /\
      length rs = length three_tasks /\
      forall i, (i < length three_tasks)%nat ->
                exists r, rs !! i = Some (Some r) /\ three_outcomes i r) /\
  (runConcurrent (logged three_tasks) 2 [1; 0; 1; 0; 0; 0]%nat ([], [7%nat])).1.2.2 =
    [7%nat] ++ seq 0 (length three_tasks).
Proof.
  assert (Hends : forall i task, three_tasks !! i = Some task ->
                    forall s, ends_in (three_outcomes i) (task s).2).
  { intros [|[|[|i]]] task; intros [= <-] s; cbn; [reflexivity|intros; reflexivity|reflexivity]. }
  destruct (runConcurrent_resolves_complete three_tasks three_outcomes 2
              [1; 0; 1; 0; 0; 0]%nat [] [7%nat] Hends ltac:(lia)) as [H1 H2].
  split; [exact Hends|]. split; [lia|]. split.
  - destruct (runConcurrent three_tasks 2 [1; 0; 1; 0; 0; 0]%nat [])
      as [[sched' s'] o] eqn:Hrun.
    assert (Ho : exists rs, o = Resolved rs).
    { pose proof Hrun as Hval. vm_compute in Hval. injection Hval as _ _ <-.
      eexists. reflexivity. }
    destruct Ho as [rs ->]. exists rs. split; [reflexivity|].
    first [exact (H1 sched' s' rs eq_refl)|exact (H1 sched' s' rs Hrun)].
  - destruct (runConcurrent (logged three_tasks) 2 [1; 0; 1; 0; 0; 0]%nat ([], [7%nat]))
      as [[sched' [s' log']] o] eqn:Hrun.
    assert (Ho : exists rs, o = Resolved rs).
    { pose proof Hrun as Hval. vm_compute in Hval. injection Hval as _ _ _ <-.
      eexists. reflexivity. }
    destruct Ho as [rs ->].
    first [exact (proj1 (H2 sched' s' log' rs eq_refl))
          |exact (proj1 (H2 sched' s' log' rs Hrun))].
Defined.

Lemma say_keeps (P : @ustate console -> Prop) line :
  (forall u, P u -> P (UState (ctxs u) (user u ++ [line]))) -> keeps P (say line).
Proof. intros HP. by apply keeps_modify. Qed.

Lemma reader_writes_this_only name key : writes_this_only (reader name key).
Proof.
  intros this l keys Hl u Hu. cbn [fn_body reader].
  destruct (JSON.stringify _) as [text|e]; [|done].
  by apply say_keeps.
Qed.

Lemma setter_writes_this_only name key v : writes_this_only (setter name key v).
Proof.
  intros this l keys Hl. cbn [fn_body setter]. apply keeps_modify.
  intros u Hu. cbn. by rewrite lookup_insert_ne.
Qed.

Lemma family_writes_this_only : Forall writes_this_only (functions family).
Proof.
  change (functions family) with
    [setter "setZ" "z" (VStr "P"); reader "readW" "w"; reader "readX" "x";
     setter "setW" "w" (VStr "C1"); reader "readZ" "z"; reader "readW" "w"].
  repeat (apply Forall_cons_2;
          [first [apply reader_writes_this_only|apply setter_writes_this_only]|]).
  constructor.
Qed.


Lemma toBe_witness :
  succeeds (toBe (PNum (NInt (lit 1))) (PNum (NInt (lit 1)))) /\
  succeeds (toEqual (VNum (NInt (lit 1))) (VNum (NInt (lit 1)))) /\
  toBe (PBigInt 1) (PBigInt 1) = Normal tt /\
  toEqual (VBigInt 1) (VBigInt 1) = Abrupt JSON.bigint_error.
Proof.
  destruct (toBe_is_equality_except_NaN (PNum (NInt (lit 1))) (PNum (NInt (lit 1)))
              false) as (H1 & _ & H2 & _).
  destruct (toBe_is_equality_except_NaN (PBigInt 1) (PBigInt 1) false)
    as (_ & _ & _ & H3 & _).
  assert (Hsame : succeeds (toBe (PNum (NInt (lit 1))) (PNum (NInt (lit 1)))))
    by (apply H1; split; [reflexivity|discriminate]).
  split; [exact Hsame|]. split; [apply (H2 Hsame); discriminate|].
  exact (H3 1 eq_refl eq_refl).
Defined.

Lemma toBeGreaterThan_witness : ~ succeeds (toBeGreaterThan (NInt (lit 3)) (NInt (lit 3))).
Proof.
  apply (proj1 (proj2 (proj2 toBeGreaterThan_passes_on_NaN)) (NInt (lit 3))).
  discriminate.
Defined.

Lemma each_witness :
  exists t : @Test console,
    imap (case_test "adds" (fun _ : nat => ret tt)) [10%nat; 20%nat] !! 1%nat = Some t /\
    title t = "adds" +:+ " [case " +:+ pretty 1%nat +:+ "]".
Proof.
  destruct (each_registers_one_test_per_item (U := console) [10%nat; 20%nat] "adds"
              (fun _ => ret tt) loaded) as (_ & _ & H & _).
  destruct (H 1%nat 20%nat eq_refl) as (t & Ht & Htitle & _).
  exists t. split; [exact Ht|exact Htitle].
Defined.

Lemma letters_only_kept : Forall (keeps letters_only) three_tasks.
Proof.
  assert (Hadd : forall line, line = "a" \/ line = "b" \/ line = "c" ->
            forall out : console, letters_only out -> letters_only (out ++ [line])).
  { intros line Hline out Hout. apply Forall_app. split; [done|by constructor]. }
  unfold three_tasks.
  apply Forall_cons_2; [|apply Forall_cons_2; [|apply Forall_cons_2; [|constructor]]].
  - apply keeps_bind; [apply keeps_modify, Hadd; tauto|intros; apply keeps_ret].
  - apply keeps_bind; [apply keeps_await, keeps_modify, Hadd; tauto
                      |intros; apply keeps_throw].
  - apply keeps_bind; [apply keeps_modify, Hadd; tauto|intros; apply keeps_ret].
Qed.

Lemma keeps_invariant_witness :
  letters_only (runConcurrent three_tasks 2 [1; 0; 1; 0; 0; 0]%nat []).1.2 /\
  forall rs, (runConcurrent three_tasks 2 [1; 0; 1; 0; 0; 0]%nat []).2 = Resolved rs ->
             length rs = length three_tasks.
Proof.
  apply (runConcurrent_keeps_invariant three_tasks letters_only letters_only_kept).
  constructor.
Defined.

Lemma hanging_task_witness :
  let o := (runConcurrent stuck_first 2 [0; 0; 0]%nat ([] : console)).2 in
  o = NeverResolves \/ o = RcOutOfSchedule.
Proof.
  apply (runConcurrent_hanging_task_blocks stuck_first 0 never).
  - reflexivity.
  - intros s. constructor.
  - lia.
Defined.

Lemma one_at_a_time_witness :
  exists n, forall sched,
    (n <= length sched)%nat ->
    runConcurrent three_tasks 1 sched ([] : console) =
    (drop n sched, ["a"; "b"; "c"],
     Resolved (Some <$> [Value "a"; ErrorObj (VStr "b"); Value "c"])).
Proof.
  apply (runConcurrent_one_at_a_time three_tasks).
  vm_compute. reflexivity.
Defined.

Lemma event_frame_witness :
  let w := ready with_before_hook in
  let w' := (run_file with_before_hook).1.1 in
  exists l total,
    trace w' = trace w ++ Emitted (SuiteStart (s_title (currentSuite with_before_hook)))
                 :: l ++ [Emitted (RunEnd total)] /\
    Forall test_event (emitted l) /\
    reporter w' = hear (reporter w) (emitted l) /\
    skipped (reporter w') = skipped (reporter w) /\
    total = now w' - now w.
Proof.
  apply (runTests_event_frame sample_RegExp [] [] (currentSuite with_before_hook)
           (ready with_before_hook) (run_file with_before_hook).1.1
           (run_file with_before_hook).1.2).
  vm_compute. reflexivity.
Defined.

Lemma retries_exhausted_witness :
  let ev := if truthy (VError "oops")
            then TestFail (title failing_test) (now failing_w2 - now failing_w1)
                          (VError "oops")
            else TestPass (title failing_test) (now failing_w2 - now failing_w1) in
  exists w4,
    run (testTask 0%nat 0%nat 1%nat failing_test) bench = (w4, Fulfilled tt) /\
    trace w4 =
      trace bench ++ calls 0%nat (array_at 0%nat bench) ++
      [Emitted (TestStart (title failing_test))] ++
      repeat (body_call failing_test 0%nat)
             (S (Z.to_nat (retry (options failing_test)))) ++
      calls 0%nat (array_at 1%nat bench) ++ [Emitted ev] /\
    reporter w4 = (listeners ev (reporter bench)).1.
Proof.
  apply (retries_exhausted 0%nat 0%nat 1%nat failing_test bench
           failing_w1 failing_w2 failing_w3 (VError "oops")).
  - vm_compute; reflexivity.
  - exists failing_a1, (VError "oops"). split; vm_compute; reflexivity.
  - vm_compute; reflexivity.
Defined.

Lemma hooks_frame_witness :
  let suite := currentSuite framed in
  let w := ready framed in
  let w' := (runSuite sample_RegExp suite 0%nat 0%nat 0%nat w).1.1 in
  let suite' := (runSuite sample_RegExp suite 0%nat 0%nat 0%nat w).1.2 in
  exists l,
    trace w' = trace w ++ calls (context suite') (beforeAll (hooks suite)) ++
               l ++ calls (context suite') (afterAll (hooks suite)) /\
    Forall test_event (emitted l) /\
    reporter w' = hear (reporter w) (emitted l).
Proof.
  apply (runSuite_hooks_frame sample_RegExp (currentSuite framed)
           (runSuite sample_RegExp (currentSuite framed) 0%nat 0%nat 0%nat (ready framed)).1.2
           0%nat 0%nat 0%nat (ready framed)).
  - reflexivity.
  - vm_compute. reflexivity.
Defined.

Lemma only_beats_grep_witness :
  let cfg := {| concurrency := 50; grep := Some "t2" |} in
  testsToRun sample_RegExp (currentSuite focused) cfg =
    Normal (List.filter t_only (tests (currentSuite focused))) /\
  focused_test ∈ List.filter t_only (tests (currentSuite focused)).
Proof.
  apply (only_beats_grep sample_RegExp (currentSuite focused)
           {| concurrency := 50; grep := Some "t2" |} focused_test).
  - apply list_elem_of_here.
  - reflexivity.
Defined.

Lemma failure_witness :
  let w := ready failing_beforeAll in
  let w' := (run_file failing_beforeAll).1.1 in
  exists l,
    trace w' = trace w ++ l /\
    (forall total, Emitted (RunEnd total) ∉ l) /\
    reporter w' = hear (reporter w) (emitted l).
Proof.
  apply (runTests_failure_emits_no_runEnd sample_RegExp []
           (currentSuite failing_beforeAll) (run_file failing_beforeAll).1.2
           (ready failing_beforeAll) (run_file failing_beforeAll).1.1
           (Failed (VError "boom"))).
  - vm_compute. reflexivity.
  - discriminate.
Defined.

Lemma json_data_witness :
  json_data nested_data = true /\
  (passes (expect (customMatchers false) nested_data "toEqual" [nested_data]) <->
   nested_data = nested_data).
Proof.
  split; [reflexivity|].
  apply (toEqual_is_equality_on_json_data nested_data nested_data false); reflexivity.
Defined.
End MoreWitnesses.
